(** * Tecken symbol upload: archive validation, bucket resolution, upload fan-out

    A shallow embedding of [tecken/upload/views.py] and proofs of the
    properties its specification states about it.

    Python [str] values are modelled as [string]: sequences of code points
    below 256, which is the repertoire the [ascii] type carries.  Every text
    operation below is written for that repertoire the way CPython defines
    it ([str.lower], [str.split], [in], [str.endswith], [repr]).

    The view is a function from the request and the world before it (the
    objects in storage, the ledger of uploads) to the response and the world
    after it.  What it calls and is not among the sources is either left
    open as a variable of the section ([fnmatch], the attributes of a
    bucket, the download collaborators, the scheduler of the threads, the
    order in which the futures complete, the existence checks that time
    out) or modelled from the specification ([dump_and_extract],
    [upload_file_upload], [invalid_key_name_characters]).

    Two neighbours of the view are embedded the same way: the hash of a
    missing symbol ([tecken/download/models.py]) and the middleware that
    asks Auth0 whether a user is blocked ([tecken/useradmin/middleware.py]),
    with the network, the cache and the clock as arguments. *)

From Stdlib Require Import Ascii String List NArith ZArith Bool Lia.
From Stdlib Require Import Sorting.Sorted Sorting.Permutation.
From Stdlib Require DecimalString DecimalPos DecimalN.
From stdpp Require Import base option list gmap strings sorting.
Import ListNotations.

Local Open Scope string_scope.
Local Open Scope list_scope.

(** ** Python text primitives *)

Module Py.

(** [sub in s] *)
Fixpoint contains (sub s : string) : bool :=
  String.prefix sub s ||
  match s with
  | EmptyString => false
  | String _ s' => contains sub s'
  end.

(** [s.endswith(suf)] *)
Fixpoint endswith (s suf : string) : bool :=
  String.eqb s suf ||
  match s with
  | EmptyString => false
  | String _ s' => endswith s' suf
  end.

(** [s.startswith(pre)] *)
Definition startswith (s pre : string) : bool := String.prefix pre s.

(** [s.split(sep)] for a one-character separator: never empty, one more
    segment than there are separators. *)
Fixpoint split (sep : ascii) (s : string) : list string :=
  match s with
  | EmptyString => [EmptyString]
  | String c s' =>
      if Ascii.eqb c sep then EmptyString :: split sep s'
      else match split sep s' with
           | seg :: rest => String c seg :: rest
           | [] => [String c EmptyString]
           end
  end.

(** [xs[-1]] on a list of strings (the caller knows it is not empty). *)
Definition last_item (xs : list string) : string := List.last xs EmptyString.

(** Code point of a character. *)
Definition ord (c : ascii) : N := N_of_ascii c.

(** [str.lower] on one code point below 256: A-Z, and the Latin-1 capitals
    U+00C0..U+00DE except the multiplication sign U+00D7. *)
Definition lower_char (c : ascii) : ascii :=
  let n := ord c in
  if ((65 <=? n) && (n <=? 90))%N then ascii_of_N (n + 32)
  else if ((192 <=? n) && (n <=? 222) && negb (n =? 215))%N
       then ascii_of_N (n + 32)
  else c.

(** [s.lower()] *)
Fixpoint lower (s : string) : string :=
  match s with
  | EmptyString => EmptyString
  | String c s' => String (lower_char c) (lower s')
  end.

(** [any(p(ch) for ch in s)] *)
Fixpoint any_char (p : ascii -> bool) (s : string) : bool :=
  match s with
  | EmptyString => false
  | String c s' => p c || any_char p s'
  end.

(** [os.path.basename] of a POSIX path: what follows the last slash. *)
Definition basename (p : string) : string := last_item (split "/" p).

(** [os.path.join(a, b)] of [posixpath]. *)
Definition path_join (a b : string) : string :=
  if startswith b "/" then b
  else if String.eqb a "" || endswith a "/" then a ++ b
  else a ++ "/" ++ b.

(** [str.isspace] on one code point below 256. *)
Definition is_space (c : ascii) : bool :=
  let n := ord c in
  ((9 <=? n) && (n <=? 13) || (28 <=? n) && (n <=? 32)
   || (n =? 133) || (n =? 160))%N.

Fixpoint lstrip (s : string) : string :=
  match s with
  | EmptyString => EmptyString
  | String c s' => if is_space c then lstrip s' else s
  end.

(** [s.rstrip()]: a character stays when it is not white space or when
    something that stays follows it. *)
Fixpoint rstrip (s : string) : string :=
  match s with
  | EmptyString => EmptyString
  | String c s' =>
      match rstrip s' with
      | EmptyString => if is_space c then EmptyString else String c EmptyString
      | kept => String c kept
      end
  end.

(** [s.strip()] *)
Definition strip (s : string) : string := rstrip (lstrip s).

(** [str(n)] for a non-negative integer. *)
Definition str_of_N (n : N) : string :=
  DecimalString.NilZero.string_of_uint (N.to_uint n).

(** Lower-case hexadecimal digit of a value below 16. *)
Definition hex_digit (n : N) : ascii :=
  if (n <? 10)%N then ascii_of_N (48 + n) else ascii_of_N (87 + n).

(** The two-digit escape [\xHH] that [repr] prints. *)
Definition hex_escape (c : ascii) : string :=
  String "\" (String "x"
    (String (hex_digit (ord c / 16)) (String (hex_digit (ord c mod 16)) ""))).

(** [str.isprintable] on one code point below 256. *)
Definition printable (c : ascii) : bool :=
  let n := ord c in
  ((32 <=? n) && (n <? 127) || (161 <=? n) && negb (n =? 173))%N.

(** The double-quote character, code point 34. *)
Definition dquote : ascii := ascii_of_N 34.

Definition repr_char (quote : ascii) (c : ascii) : string :=
  if Ascii.eqb c quote || Ascii.eqb c "\" then String "\" (String c "")
  else if Ascii.eqb c "009" then "\t"
  else if Ascii.eqb c "010" then "\n"
  else if Ascii.eqb c "013" then "\r"
  else if printable c then String c ""
  else hex_escape c.

Fixpoint repr_body (quote : ascii) (s : string) : string :=
  match s with
  | EmptyString => EmptyString
  | String c s' => repr_char quote c ++ repr_body quote s'
  end.

(** [repr(s)], which is what [{s!r}] formats: single quotes, unless the
    text has a single quote and no double quote. *)
Definition repr (s : string) : string :=
  let quote : ascii :=
    if any_char (Ascii.eqb "'") s && negb (any_char (Ascii.eqb dquote) s)
    then dquote else "'"%char in
  String quote (repr_body quote s ++ String quote "").

(** [fnmatch.fnmatchcase(s, pat)] for the patterns made of literal
    characters, [*] (any run of characters) and [?] (any one character). *)
Fixpoint wildcard_match (pat : string) : string -> bool :=
  match pat with
  | EmptyString => fun s => String.eqb s EmptyString
  | String c pat' =>
      if Ascii.eqb c "*" then
        fix star (s : string) : bool :=
          wildcard_match pat' s ||
          match s with
          | EmptyString => false
          | String _ s' => star s'
          end
      else
        fun s =>
          match s with
          | EmptyString => false
          | String d s' =>
              (Ascii.eqb c "?" || Ascii.eqb c d) && wildcard_match pat' s'
          end
  end.

End Py.


(** ** MD5 and UTF-8, as [hashlib.md5(text.encode("utf-8")).hexdigest()] *)

Module MD5.

Local Open Scope Z_scope.

Definition w32 (x : Z) : Z := x mod 2 ^ 32.

Definition not32 (x : Z) : Z := 2 ^ 32 - 1 - x.

Definition rotl (x c : Z) : Z :=
  Z.lor (w32 (Z.shiftl x c)) (Z.shiftr x (32 - c)).

Definition K : list Z := [
  0xd76aa478; 0xe8c7b756; 0x242070db; 0xc1bdceee;
  0xf57c0faf; 0x4787c62a; 0xa8304613; 0xfd469501;
  0x698098d8; 0x8b44f7af; 0xffff5bb1; 0x895cd7be;
  0x6b901122; 0xfd987193; 0xa679438e; 0x49b40821;
  0xf61e2562; 0xc040b340; 0x265e5a51; 0xe9b6c7aa;
  0xd62f105d; 0x02441453; 0xd8a1e681; 0xe7d3fbc8;
  0x21e1cde6; 0xc33707d6; 0xf4d50d87; 0x455a14ed;
  0xa9e3e905; 0xfcefa3f8; 0x676f02d9; 0x8d2a4c8a;
  0xfffa3942; 0x8771f681; 0x6d9d6122; 0xfde5380c;
  0xa4beea44; 0x4bdecfa9; 0xf6bb4b60; 0xbebfbc70;
  0x289b7ec6; 0xeaa127fa; 0xd4ef3085; 0x04881d05;
  0xd9d4d039; 0xe6db99e5; 0x1fa27cf8; 0xc4ac5665;
  0xf4292244; 0x432aff97; 0xab9423a7; 0xfc93a039;
  0x655b59c3; 0x8f0ccc92; 0xffeff47d; 0x85845dd1;
  0x6fa87e4f; 0xfe2ce6e0; 0xa3014314; 0x4e0811a1;
  0xf7537e82; 0xbd3af235; 0x2ad7d2bb; 0xeb86d391 ].

Definition shifts : list Z := [
  7; 12; 17; 22; 7; 12; 17; 22; 7; 12; 17; 22; 7; 12; 17; 22;
  5; 9; 14; 20; 5; 9; 14; 20; 5; 9; 14; 20; 5; 9; 14; 20;
  4; 11; 16; 23; 4; 11; 16; 23; 4; 11; 16; 23; 4; 11; 16; 23;
  6; 10; 15; 21; 6; 10; 15; 21; 6; 10; 15; 21; 6; 10; 15; 21 ].

Definition at_index (xs : list Z) (i : Z) : Z := nth (Z.to_nat i) xs 0.

(** The encoding of one code point below 256. *)
Definition utf8_char (c : ascii) : list Z :=
  let n := Z.of_N (N_of_ascii c) in
  if n <? 128 then [n] else [Z.lor 192 (Z.shiftr n 6); Z.lor 128 (Z.land n 63)].

Fixpoint utf8 (s : string) : list Z :=
  match s with
  | EmptyString => []
  | String c s' => utf8_char c ++ utf8 s'
  end.

Definition le_bytes (count : nat) (x : Z) : list Z :=
  map (fun i => Z.land (Z.shiftr x (8 * Z.of_nat i)) 255) (seq 0 count).

(** The message, the bit 1, zeros up to 56 modulo 64, the length in bits. *)
Definition pad (msg : list Z) : list Z :=
  let len := Z.of_nat (length msg) in
  let zeros := Z.to_nat ((55 - len) mod 64) in
  msg ++ [128] ++ repeat 0 zeros ++ le_bytes 8 ((8 * len) mod 2 ^ 64).

Fixpoint words (count : nat) (bytes : list Z) : list Z :=
  match count with
  | O => []
  | S count' =>
      match bytes with
      | b0 :: b1 :: b2 :: b3 :: rest =>
          (b0 + 256 * b1 + 65536 * b2 + 16777216 * b3) :: words count' rest
      | _ => []
      end
  end.

Definition state : Type := Z * Z * Z * Z.

Definition step (M : list Z) (st : state) (i : nat) : state :=
  let '(a, b, c, d) := st in
  let i := Z.of_nat i in
  let '(f, g) :=
    if i <? 16 then (Z.lor (Z.land b c) (Z.land (not32 b) d), i)
    else if i <? 32 then
      (Z.lor (Z.land d b) (Z.land (not32 d) c), (5 * i + 1) mod 16)
    else if i <? 48 then (Z.lxor b (Z.lxor c d), (3 * i + 5) mod 16)
    else (Z.lxor c (Z.lor b (not32 d)), (7 * i) mod 16) in
  let f := w32 (f + a + at_index K i + at_index M g) in
  (d, w32 (b + rotl f (at_index shifts i)), b, c).

Definition block (st : state) (M : list Z) : state :=
  let '(a0, b0, c0, d0) := st in
  let '(a, b, c, d) := fold_left (step M) (seq 0 64) st in
  (w32 (a0 + a), w32 (b0 + b), w32 (c0 + c), w32 (d0 + d)).

Fixpoint blocks (count : nat) (st : state) (bytes : list Z) : state :=
  match count with
  | O => st
  | S count' => blocks count' (block st (words 16 bytes)) (skipn 64 bytes)
  end.

Definition digest (msg : list Z) : list Z :=
  let bytes := pad msg in
  let '(a, b, c, d) :=
    blocks (length bytes / 64)
      (0x67452301, 0xefcdab89, 0x98badcfe, 0x10325476) bytes in
  le_bytes 4 a ++ le_bytes 4 b ++ le_bytes 4 c ++ le_bytes 4 d.

Fixpoint hex (bytes : list Z) : string :=
  match bytes with
  | [] => EmptyString
  | b :: rest =>
      String (Py.hex_digit (Z.to_N (b / 16)))
        (String (Py.hex_digit (Z.to_N (b mod 16))) (hex rest))
  end.

(** [hashlib.md5(text.encode("utf-8")).hexdigest()] *)
Definition hexdigest (text : string) : string := hex (digest (utf8 text)).

End MD5.

(** The digits [hexdigest] writes. *)
Definition lower_hex_digits : string := "0123456789abcdef".

Definition is_lower_hex_digit (c : ascii) : Prop :=
  In c (list_ascii_of_string lower_hex_digits).

(** ** The hash of a missing symbol ([tecken/download/models.py]) *)

(** [(x for x in strings if x is not None)] *)
Fixpoint not_none (strings : list (option string)) : list string :=
  match strings with
  | [] => []
  | Some x :: rest => x :: not_none rest
  | None :: rest => not_none rest
  end.

(** [MissingSymbol.make_md5_hash], of any number of arguments;
    [force_bytes] encodes a [str] as UTF-8. *)
Definition make_md5_hash (strings : list (option string)) : string :=
  MD5.hexdigest (String.concat ":" (not_none strings)).

(** [max_length] of the column [MissingSymbol.hash]. *)
Definition hash_max_length : nat := 32.

(** ** The Auth0 blocked check ([tecken/useradmin/middleware.py]) *)

Module Useradmin.

(** What [response.json()] returns.  A [dict] is kept as the list of its
    items in insertion order, its keys distinct; the numbers are the
    integers. *)
#[warnings="-register-all"] Inductive json :=
| JNull
| JBool (b : bool)
| JInt (n : Z)
| JStr (s : string)
| JList (items : list json)
| JDict (items : list (string * json)).

(** The exception of the module, those of Django it raises, those of the
    operations on a decoded document, and the exception of [requests] for
    an exchange that failed or a body that is no JSON. *)
Inductive error :=
| Auth0ManagementAPIError (status_code : Z)
| PermissionDenied (msg : string)
| MiddlewareNotUsed
| KeyError (key : string)
| TypeError
| AttributeError
| RequestException (msg : string).

Inductive outcome (A : Type) :=
| Returned (a : A)
| Raised (e : error).
Arguments Returned {A} a.
Arguments Raised {A} e.

(** What the network gives: an answer, or the text of the
    [RequestException] it raises. *)
Inductive exchange (A : Type) :=
| Answered (a : A)
| Failed (msg : string).
Arguments Answered {A} a.
Arguments Failed {A} msg.

(** [bool(v)] *)
Definition json_truth (v : json) : bool :=
  match v with
  | JNull => false
  | JBool b => b
  | JInt n => negb (n =? 0)%Z
  | JStr s => negb (String.eqb s "")
  | JList items => match items with [] => false | _ :: _ => true end
  | JDict items => match items with [] => false | _ :: _ => true end
  end.

Fixpoint lookup_item (items : list (string * json)) (key : string)
  : option json :=
  match items with
  | [] => None
  | (k, v) :: rest => if String.eqb key k then Some v else lookup_item rest key
  end.

(** [v[key]] with a [str] key: only a [dict] has such items. *)
Definition getitem (v : json) (key : string) : outcome json :=
  match v with
  | JDict items =>
      match lookup_item items key with
      | Some x => Returned x
      | None => Raised (KeyError key)
      end
  | _ => Raised TypeError
  end.

(** [v.get(key)]: a method of [dict] alone. *)
Definition get_method (v : json) (key : string) : outcome json :=
  match v with
  | JDict items => Returned (default JNull (lookup_item items key))
  | _ => Raised AttributeError
  end.

Fixpoint characters (s : string) : list json :=
  match s with
  | EmptyString => []
  | String c rest => JStr (String c EmptyString) :: characters rest
  end.

(** What [for user in v] goes through: the items of a list, the keys of a
    [dict], the characters of a [str]. *)
Definition iterate (v : json) : outcome (list json) :=
  match v with
  | JList items => Returned items
  | JDict items => Returned (map (fun kv => JStr (fst kv)) items)
  | JStr s => Returned (characters s)
  | _ => Raised TypeError
  end.

(** [str(n)] for an integer. *)
Definition str_of_Z (n : Z) : string :=
  if (n <? 0)%Z then ("-" ++ Py.str_of_N (Z.to_N (- n)))%string
  else Py.str_of_N (Z.to_N n).

(** [repr(v)] *)
Fixpoint repr (v : json) : string :=
  match v with
  | JNull => "None"
  | JBool true => "True"
  | JBool false => "False"
  | JInt n => str_of_Z n
  | JStr s => Py.repr s
  | JList items =>
      ("[" ++ String.concat ", " (map repr items) ++ "]")%string
  | JDict items =>
      "{" ++ String.concat ", "
               (map (fun kv : string * json =>
                       let '(k, x) := kv in
                       (Py.repr k ++ ": " ++ repr x)%string)
                  items) ++ "}"
  end.

(** [str(v)], which is what [{v}] formats. *)
Definition str (v : json) : string :=
  match v with
  | JStr s => s
  | _ => repr v
  end.

(** A reply of Auth0: [response.status_code], and what [response.json()]
    returns or raises. *)
Record Response := {
  status_code : Z;
  json_body : exchange json;
}.

(** The session of [session_with_retries(total_retries=5)], which is the
    network behind it: what it answers to [session.post(url, json=payload)]
    and to [session.get(url, params=query, headers=headers)]. *)
Record Session := {
  post : string -> list (string * string) -> exchange Response;
  get : string -> list (string * string) -> list (string * string)
        -> exchange Response;
}.

(** The calls made to Auth0. *)
Inductive HttpRequest :=
| Post (url : string) (payload : list (string * string))
| Get (url : string) (params headers : list (string * string)).

(** The Django settings the module reads. *)
Record Settings := {
  ENABLE_AUTH0_BLOCKED_CHECK : bool;
  OIDC_RP_CLIENT_ID : string;
  OIDC_RP_CLIENT_SECRET : string;
  OIDC_OP_USER_ENDPOINT : string;
  NOT_BLOCKED_IN_AUTH0_INTERVAL_SECONDS : Z;
}.

(** A row of the user table, and [request.user]: Django's [AnonymousUser],
    whose [is_active] is false, or the user of the session. *)
Record User := {
  id : N;
  email : string;
  is_active : bool;
}.

Inductive RequestUser :=
| AnonymousUser
| Authenticated (u : User).

(** The request object, which [auth.logout] changes. *)
Record Request := {
  user : RequestUser;
  session : gmap string string;
}.

(** What is behind the request: Django's cache, every entry with the time
    it expires at; the rows [save()] has written; the calls made to Auth0 so
    far. *)
Record World := {
  cache : gmap string Z;
  saved : gmap N User;
  sent : list HttpRequest;
}.

(** [cache.get(key)] at time [now]: an entry is gone once its time has
    come. *)
Definition cache_get (now : Z) (entries : gmap string Z) (key : string)
  : option bool :=
  match entries !! key with
  | Some expires => if (now <? expires)%Z then Some true else None
  | None => None
  end.

(** [cache.set(key, True, timeout)] at time [now]: Django takes a timeout of
    0 for an entry that has expired already. *)
Definition cache_set (now : Z) (entries : gmap string Z) (key : string)
    (timeout : Z) : gmap string Z :=
  <[key := (now + (if (timeout =? 0)%Z then -1 else timeout))%Z]> entries.

(** [auth.logout(request)] *)
Definition logout (request : Request) : Request :=
  {| user := AnonymousUser; session := ∅ |}.

Definition _get_access_token (client_id client_secret domain : string)
    (session : Session) (sent : list HttpRequest)
  : outcome json * list HttpRequest :=
  let url := ("https://" ++ domain ++ "/oauth/token")%string in
  let audience := ("https://" ++ domain ++ "/api/v2/")%string in
  let payload :=
    [("client_id", client_id);
     ("client_secret", client_secret);
     ("grant_type", "client_credentials");
     ("audience", audience)] in
  let sent := sent ++ [Post url payload] in
  match post session url payload with
  | Failed msg => (Raised (RequestException msg), sent)
  | Answered response =>
      if negb (status_code response =? 200)%Z
      then (Raised (Auth0ManagementAPIError (status_code response)), sent)
      else
        match json_body response with
        | Failed msg => (Raised (RequestException msg), sent)
        | Answered body => (getitem body "access_token", sent)
        end
  end.

Definition find_users (client_id client_secret domain email : string)
    (session : Session) (sent : list HttpRequest)
  : outcome json * list HttpRequest :=
  match _get_access_token client_id client_secret domain session sent with
  | (Raised e, sent) => (Raised e, sent)
  | (Returned access_token, sent) =>
      let url := ("https://" ++ domain ++ "/api/v2/users")%string in
      let query :=
        [("q", ("email:" ++ String Py.dquote (email ++ String Py.dquote ""))%string)] in
      let headers :=
        [("Authorization", ("Bearer " ++ str access_token)%string)] in
      let sent := sent ++ [Get url query headers] in
      match get session url query headers with
      | Failed msg => (Raised (RequestException msg), sent)
      | Answered response =>
          if negb (status_code response =? 200)%Z
          then (Raised (Auth0ManagementAPIError (status_code response)), sent)
          else
            match json_body response with
            | Failed msg => (Raised (RequestException msg), sent)
            | Answered users => (Returned users, sent)
            end
      end
  end.

(** The loop of [is_blocked_in_auth0]. *)
Fixpoint any_blocked (users : list json) : outcome bool :=
  match users with
  | [] => Returned false
  | user :: rest =>
      match get_method user "blocked" with
      | Raised e => Raised e
      | Returned blocked =>
          if json_truth blocked then Returned true else any_blocked rest
      end
  end.

Section Middleware.

Variable settings : Settings.

(** [urlparse(url).netloc] of the Python library. *)
Variable netloc : string -> string.

Definition is_blocked_in_auth0 (session : Session) (email : string)
    (sent : list HttpRequest) : outcome bool * list HttpRequest :=
  match find_users (OIDC_RP_CLIENT_ID settings)
          (OIDC_RP_CLIENT_SECRET settings)
          (netloc (OIDC_OP_USER_ENDPOINT settings)) email session sent with
  | (Raised e, sent) => (Raised e, sent)
  | (Returned users, sent) =>
      match iterate users with
      | Raised e => (Raised e, sent)
      | Returned users => (any_blocked users, sent)
      end
  end.

(** [NotBlockedInAuth0Middleware.__init__]: the middleware, which is the
    [get_response] it keeps, or [MiddlewareNotUsed]. *)
Definition __init__ {A : Type} (get_response : A) : outcome A :=
  if negb (ENABLE_AUTH0_BLOCKED_CHECK settings) then Raised MiddlewareNotUsed
  else Returned get_response.

(** The key of the cache entry; the dollar sign is in the source. *)
Definition cache_key (u : User) : string :=
  "NotBlockedInAuth0Middleware:$" ++ Py.str_of_N (id u).

(** [NotBlockedInAuth0Middleware.process_request], called at time [now]
    with the session it is given by [session_with_retries]; [later] is the
    time when the answer of Auth0 is there and the cache is written.  It
    returns what it returns or raises, the request and the world it
    leaves.  The messages it logs are left out. *)
Definition process_request {A : Type} (session : Session) (now later : Z)
    (request : Request) (world : World)
  : outcome (option A) * Request * World :=
  match user request with
  | AnonymousUser => (Returned None, request, world)
  | Authenticated u =>
      if negb (is_active u) || String.eqb (email u) ""
      then (Returned None, request, world)
      else
        match cache_get now (cache world) (cache_key u) with
        | Some _ => (Returned None, request, world)
        | None =>
            match is_blocked_in_auth0 session (email u) (sent world) with
            | (Raised e, sent) =>
                (Raised e, request,
                 {| cache := cache world; saved := saved world;
                    sent := sent |})
            | (Returned true, sent) =>
                let u := {| id := id u; email := email u;
                            is_active := false |} in
                (Raised (PermissionDenied
                           "User is blocked in Auth0 and made inactive."),
                 logout {| user := Authenticated u;
                           session := Useradmin.session request |},
                 {| cache := cache world;
                    saved := <[id u := u]> (saved world);
                    sent := sent |})
            | (Returned false, sent) =>
                (Returned None, request,
                 {| cache :=
                      cache_set later (cache world) (cache_key u)
                        (NOT_BLOCKED_IN_AUTH0_INTERVAL_SECONDS settings);
                    saved := saved world;
                    sent := sent |})
            end
        end
  end.

(** [NotBlockedInAuth0Middleware.__call__]; a response object is true. *)
Definition __call__ {A : Type}
    (get_response : Request -> World -> outcome A * Request * World)
    (session : Session) (now later : Z) (request : Request) (world : World)
  : outcome A * Request * World :=
  match process_request session now later request world with
  | (Raised e, request, world) => (Raised e, request, world)
  | (Returned (Some response), request, world) =>
      (Returned response, request, world)
  | (Returned None, request, world) => get_response request world
  end.

End Middleware.

(** A deployment to run the model on: Auth0 gives a token, and finds the
    two accounts of an address, the second of them blocked or not. *)
Definition example_settings : Settings := {|
  ENABLE_AUTH0_BLOCKED_CHECK := true;
  OIDC_RP_CLIENT_ID := "client";
  OIDC_RP_CLIENT_SECRET := "secret";
  OIDC_OP_USER_ENDPOINT := "https://auth.example.com/userinfo";
  NOT_BLOCKED_IN_AUTH0_INTERVAL_SECONDS := 86400;
|}.

Definition example_netloc (url : string) : string :=
  nth 2 (Py.split "/" url) EmptyString.

Definition example_session (blocked : json) : Session := {|
  post := fun url payload =>
    Answered {| status_code := 200;
                json_body :=
                  Answered (JDict [("access_token", JStr "t0k3n");
                                   ("expires_in", JInt 86400)]) |};
  get := fun url params headers =>
    Answered {| status_code := 200;
                json_body :=
                  Answered (JList [JDict [("email", JStr "dev@example.com")];
                                   JDict [("email", JStr "dev@example.com");
                                          ("blocked", blocked)]]) |};
|}.

(** Auth0 refuses the token. *)
Definition example_refusing_session : Session := {|
  post := fun url payload =>
    Answered {| status_code := 401; json_body := Failed "no JSON" |};
  get := fun url params headers => Failed "unreachable";
|}.

Definition example_user : User := {|
  id := 42;
  email := "dev@example.com";
  is_active := true;
|}.

Definition example_request : Request := {|
  user := Authenticated example_user;
  session := {["_auth_user_id" := "42"]};
|}.

Definition example_world : World := {|
  cache := ∅;
  saved := {[42%N := example_user]};
  sent := [];
|}.

End Useradmin.

(** ** Data model *)

(** One extracted archive member ([FileMember] of [tecken.upload.utils]):
    the attributes the view reads. *)
Record FileMember := {
  member_name : string;
  member_size : N;
  member_path : string;
}.

(** The Django settings the upload view reads.  A [dict] is kept as the list
    of its items in insertion order; its keys are distinct. *)
Record Settings := {
  DISALLOWED_SYMBOLS_SNIPPETS : list string;
  UPLOAD_DEFAULT_URL : string;
  UPLOAD_TRY_SYMBOLS_URL : string;
  UPLOAD_URL_EXCEPTIONS : list (string * string);
  SYMBOL_FILE_PREFIX : string;
  SYNCHRONOUS_UPLOAD_FILE_UPLOAD : bool;
  UPLOAD_FILE_UPLOAD_MAX_WORKERS : nat;
}.

(** [k in d] and [d.get(k)] on a dict kept as its item list. *)
Definition dict_has (d : list (string * string)) (k : string) : bool :=
  existsb (fun kv => String.eqb k (fst kv)) d.

Fixpoint dict_get (d : list (string * string)) (k : string) : option string :=
  match d with
  | [] => None
  | (k', v) :: rest => if String.eqb k k' then Some v else dict_get rest k
  end.

(** A value whose truth the code tests: [bool], or the raw [str] of a POST
    parameter. *)
Inductive pyvalue :=
| PyBool (b : bool)
| PyStr (s : string).

(** [bool(v)] *)
Definition truth (v : pyvalue) : bool :=
  match v with
  | PyBool b => b
  | PyStr s => negb (String.eqb s "")
  end.

(** Truth of an optional string ([None] and the empty string are false). *)
Definition truthy (o : option string) : bool :=
  match o with
  | Some s => negb (String.eqb s "")
  | None => false
  end.

(** The requesting identity, as far as the view looks at it. *)
Record User := {
  email : string;
  is_superuser : bool;
  has_perm : string -> bool;
}.

(** The exceptions the view raises or catches, and the error of the
    storage client that goes through it. *)
Inductive exn :=
| NoPossibleBucketName (preferred : string)
| BadZipfile (msg : string)
| UnrecognizedArchiveFileExtension (ext : string)
| DuplicateFileDifferentSize (msg : string)
| ImproperlyConfigured (msg : string)
| ClientError (msg : string).

Inductive result (A : Type) :=
| Ok (a : A)
| Raise (e : exn).
Arguments Ok {A} a.
Arguments Raise {A} e.

(** ** Archive policy validation *)

Definition _ignorable_filenames : list string := [".DS_Store"].

(** [x in xs] for a tuple of strings. *)
Definition str_in (x : string) (xs : list string) : bool :=
  existsb (String.eqb x) xs.

(** One character of the class [[^a-f0-9]] under [re.I]. *)
Definition not_hex_character (c : ascii) : bool :=
  let n := Py.ord c in
  negb ((48 <=? n) && (n <=? 57) || (97 <=? n) && (n <=? 102)
        || (65 <=? n) && (n <=? 70))%N.

(** [_not_hex_characters.findall(s)]: every character that is no hex digit. *)
Fixpoint _not_hex_characters_findall (s : string) : list ascii :=
  match s with
  | EmptyString => []
  | String c s' =>
      if not_hex_character c then c :: _not_hex_characters_findall s'
      else _not_hex_characters_findall s'
  end.

Definition snippet_message (snippet : string) : string :=
  "Content of archive file contains the snippet " ++
  "'" ++ snippet ++ "' which is not allowed".

Definition invalid_character_message (name : string) : string :=
  "Invalid character in filename " ++ Py.repr name.

Definition unrecognized_message (name : string) : string :=
  "Unrecognized file pattern. Should only be <module>/<hex>/<file> " ++
  "or <name>-symbols.txt and nothing else. " ++
  "(First unrecognized pattern was " ++ name ++ ")".

(** What one turn of the loop over the members does. *)
Inductive verdict :=
| Continue
| Return (msg : string).

Section Views.

Set Default Proof Using "Type".

(** The characters that are illegal in a storage object key. *)
Variable invalid_key_char : ascii -> bool.

(** Modelled from the spec: [tecken.base.utils.invalid_key_name_characters]
    is not among the sources.  The specification describes it as the test
    that a text has a character that is illegal in a storage object key, so
    it is the search for a character of a class, and the class is left
    open. *)
Definition invalid_key_name_characters (key : string) : bool :=
  Py.any_char invalid_key_char key.

(** [fnmatch.fnmatch(name, pattern)] of the Python library. *)
Variable fnmatch : string -> string -> bool.

Variable settings : Settings.

(** The inner loop: the first configured snippet that occurs in the name. *)
Fixpoint first_disallowed_snippet (snippets : list string) (name : string)
  : option string :=
  match snippets with
  | [] => None
  | snippet :: rest =>
      if Py.contains snippet name then Some snippet
      else first_disallowed_snippet rest name
  end.

(** The body of the loop over [file_listings]. *)
Definition check_file_listing (file_listing : FileMember) : verdict :=
  let name := member_name file_listing in
  match first_disallowed_snippet (DISALLOWED_SYMBOLS_SNIPPETS settings) name with
  | Some snippet => Return (snippet_message snippet)
  | None =>
      let split := Py.split "/" name in
      if str_in (Py.last_item split) _ignorable_filenames then Continue
      else
        match split with
        | [s0; s1; s2] =>
            if invalid_key_name_characters (s0 ++ s2)
            then Return (invalid_character_message name)
            else
              match _not_hex_characters_findall s1 with
              | [] => Continue
              | _ :: _ => Return (unrecognized_message name)
              end
        | [_] =>
            if Py.endswith (Py.lower name) "-symbols.txt" then Continue
            else Return (unrecognized_message name)
        | _ => Return (unrecognized_message name)
        end
  end.

(** [check_symbols_archive_file_listing]: [None] when nothing is wrong, the
    error text of the first member that is not as expected otherwise. *)
Fixpoint check_symbols_archive_file_listing (file_listings : list FileMember)
  : option string :=
  match file_listings with
  | [] => None
  | file_listing :: rest =>
      match check_file_listing file_listing with
      | Return msg => Some msg
      | Continue => check_symbols_archive_file_listing rest
      end
  end.

(** ** Bucket resolution *)

(** Modelled from the spec: [tecken.storage.StorageBucket] is not among the
    sources.  The resolver constructs the target from the resolved URL and
    the resolved try flag, which is all that is kept of it here. *)
Record StorageBucket := {
  bucket_url : string;
  try_symbols : pyvalue;
}.

(** The loop of [get_possible_bucket_urls] over the exceptions. *)
Fixpoint possible_private_urls (email_lower : string) (superuser : bool)
    (exceptions : list (string * string)) : list (string * string) :=
  match exceptions with
  | [] => []
  | (email_pattern, url) :: rest =>
      if String.eqb email_lower (Py.lower email_pattern)
         || fnmatch email_lower (Py.lower email_pattern)
         || superuser
      then (url, "private") :: possible_private_urls email_lower superuser rest
      else possible_private_urls email_lower superuser rest
  end.

Definition get_possible_bucket_urls (user : User) : list (string * string) :=
  let exceptions := UPLOAD_URL_EXCEPTIONS settings in
  let email_lower := Py.lower (email user) in
  match possible_private_urls email_lower (is_superuser user) exceptions with
  | [] => [(UPLOAD_DEFAULT_URL settings, "public")]
  | urls => urls
  end.

(** The loop of [get_bucket_info] over the wildcards: the URL of the first
    pattern that matches, [None] when the loop ends without a [break]. *)
Fixpoint first_wildcard_match (email_lower : string)
    (exceptions : list (string * string)) : option string :=
  match exceptions with
  | [] => None
  | (email_or_wildcard, url) :: rest =>
      if fnmatch email_lower (Py.lower email_or_wildcard) then Some url
      else first_wildcard_match email_lower rest
  end.

(** The loop of [get_bucket_info] over the permitted URLs. *)
Fixpoint first_url_containing (preferred_bucket_name : string)
    (urls : list (string * string)) : option string :=
  match urls with
  | [] => None
  | (url, _) :: rest =>
      if Py.contains preferred_bucket_name url then Some url
      else first_url_containing preferred_bucket_name rest
  end.

(** The [else] branch of [get_bucket_info]: the exception entry of the
    identity, by exact key first, by wildcard otherwise. *)
Definition exception_of (user : User) : option string :=
  let exceptions := UPLOAD_URL_EXCEPTIONS settings in
  if dict_has exceptions (Py.lower (email user))
  then dict_get exceptions (Py.lower (email user))
  else first_wildcard_match (Py.lower (email user)) exceptions.

Definition get_bucket_info (user : User) (try_symbols : option pyvalue)
    (preferred_bucket_name : option string) : result StorageBucket :=
  let try_symbols :=
    match try_symbols with
    | None => PyBool (negb (has_perm user "upload.upload_symbols"))
    | Some v => v
    end in
  let url :=
    if truth try_symbols then UPLOAD_TRY_SYMBOLS_URL settings
    else UPLOAD_DEFAULT_URL settings in
  if truthy preferred_bucket_name then
    let preferred := default EmptyString preferred_bucket_name in
    match first_url_containing preferred (get_possible_bucket_urls user) with
    | Some url => Ok {| bucket_url := url; try_symbols := try_symbols |}
    | None => Raise (NoPossibleBucketName preferred)
    end
  else
    let exception := exception_of user in
    let url := if truthy exception then default EmptyString exception else url in
    Ok {| bucket_url := url; try_symbols := try_symbols |}.

(** [_ignore_member_file] *)
Definition _ignore_member_file (filename : string) : bool :=
  if Py.endswith (Py.lower filename) "-symbols.txt" then true
  else if str_in (Py.basename filename) _ignorable_filenames then true
  else false.


(** ** Archive extraction *)

(** One entry of the archive's directory ([zipfile.ZipInfo]). *)
Record ZipInfo := {
  filename : string;
  file_size : N;
}.

(** The bytes handed in, as the zip decoder reads them: a directory of
    entries, or a refusal with the decoder's message. *)
Inductive file_buffer :=
| NotAZip (msg : string)
| ZipFile (infolist : list ZipInfo).

(** The size recorded for a name among the entries seen so far. *)
Fixpoint seen_size (seen : list ZipInfo) (name : string) : option N :=
  match seen with
  | [] => None
  | info :: rest =>
      if String.eqb name (filename info) then Some (file_size info)
      else seen_size rest name
  end.

(** The first entry whose name was seen before with another size. *)
Fixpoint first_size_conflict (seen infolist : list ZipInfo) : option ZipInfo :=
  match infolist with
  | [] => None
  | info :: rest =>
      match seen_size seen (filename info) with
      | Some sz =>
          if N.eqb sz (file_size info) then first_size_conflict seen rest
          else Some info
      | None => first_size_conflict (info :: seen) rest
      end
  end.

(** The members found in the working directory after extraction: one per
    name, entries of a name already extracted landing on the same file. *)
Fixpoint extracted_members (upload_dir : string) (seen : list string)
    (infolist : list ZipInfo) : list FileMember :=
  match infolist with
  | [] => []
  | info :: rest =>
      if str_in (filename info) seen then extracted_members upload_dir seen rest
      else {| member_name := filename info;
              member_size := file_size info;
              member_path := Py.path_join upload_dir (filename info) |}
           :: extracted_members upload_dir (filename info :: seen) rest
  end.

(** [os.path.splitext(name)[1]]: from the last dot of the base name on,
    when a character that is no dot stands before it. *)
Fixpoint extension_from (seen_other : bool) (s : string) : string :=
  match s with
  | EmptyString => EmptyString
  | String c rest =>
      match extension_from (seen_other || negb (Ascii.eqb c ".")) rest with
      | EmptyString =>
          if Ascii.eqb c "." && seen_other then s else EmptyString
      | ext => ext
      end
  end.

Definition extension (name : string) : string :=
  extension_from false (Py.basename name).

(** Modelled from the spec: [tecken.upload.utils.dump_and_extract] is not
    among the sources.  The archive type is determined from the declared
    name's extension (zip is the supported one; another extension fails
    naming it); malformed bytes fail with the decoder's message; two entries
    extracting to the same name with different sizes fail, the same name with
    the same size being a harmless duplicate entry; otherwise the result is
    the ordered list of members. *)
Definition dump_and_extract (upload_dir : string) (buffer : file_buffer)
    (name : string) : result (list FileMember) :=
  if Py.endswith (Py.lower name) ".zip" then
    match buffer with
    | NotAZip msg => Raise (BadZipfile msg)
    | ZipFile infolist =>
        match first_size_conflict [] infolist with
        | Some info => Raise (DuplicateFileDifferentSize (filename info))
        | None => Ok (extracted_members upload_dir [] infolist)
        end
    end
  else Raise (UnrecognizedArchiveFileExtension (extension (Py.lower name))).

(** ** Storage and the upload of one member *)

(** What the storage collaborator has under a bucket and a key: an object
    of a size, or a fault, the error [putObject] raises for that key. *)
Inductive slot :=
| Object (size : N)
| Fault (msg : string).

(** The storage collaborator: what it has, by bucket and key, and the
    [putObject] calls made so far. *)
Record Storage := {
  objects : gmap (string * string) slot;
  put_log : list (string * string);
}.

Record FileUpload := {
  key : string;
  file_upload_bucket : string;
  file_upload_size : N;
}.

(** Whether the existence check for a bucket and a key is not answered
    within the timeouts of the lookup client. *)
Variable lookup_times_out : string -> string -> bool.

(** The existence check: an object with this key and this size is there.
    A check that is not answered in time is taken for no object. *)
Definition exists_with_size (st : Storage) (bucket_name key_name : string)
    (size : N) : bool :=
  if lookup_times_out bucket_name key_name then false
  else
    match objects st !! (bucket_name, key_name) with
    | Some (Object sz) => N.eqb sz size
    | _ => false
    end.

(** A [putObject] that is answered: the object is there, with this size. *)
Definition put_object (st : Storage) (bucket_name key_name : string)
    (size : N) : Storage :=
  {| objects := <[(bucket_name, key_name) := Object size]> (objects st);
     put_log := put_log st ++ [(bucket_name, key_name)] |}.

(** A [putObject] that raises: the call was made, nothing is written. *)
Definition put_refused (st : Storage) (bucket_name key_name : string)
  : Storage :=
  {| objects := objects st;
     put_log := put_log st ++ [(bucket_name, key_name)] |}.

(** What a unit of work does once the existence check has answered. *)
Definition finish_upload (st : Storage) (bucket_name key_name : string)
    (member : FileMember) (found : bool)
  : Storage * result (option FileUpload) :=
  if found then (st, Ok None)
  else
    match objects st !! (bucket_name, key_name) with
    | Some (Fault msg) =>
        (put_refused st bucket_name key_name, Raise (ClientError msg))
    | _ =>
        (put_object st bucket_name key_name (member_size member),
         Ok (Some {| key := key_name;
                     file_upload_bucket := bucket_name;
                     file_upload_size := member_size member |}))
    end.

(** Modelled from the spec: [tecken.upload.utils.upload_file_upload] is not
    among the sources.  It checks existence and size in storage at the key,
    a check that is not answered in time counting as no object; when an
    object with identical key and identical size exists nothing is written
    and there is no [FileUpload] (the member is skipped); otherwise the
    member's bytes are uploaded and the [FileUpload] is returned, or the
    error of the upload is raised. *)
Definition upload_file_upload (st : Storage) (bucket_name key_name : string)
    (member : FileMember) : Storage * result (option FileUpload) :=
  finish_upload st bucket_name key_name member
    (exists_with_size st bucket_name key_name (member_size member)).

(** ** Executors *)

(** One submitted call of [upload_file_upload]. *)
Record Task := {
  task_key : string;
  task_member : FileMember;
}.

(** A future that is done, with the key it was submitted for: it has the
    result of the call or the exception the call raised. *)
Definition Done : Type := string * result (option FileUpload).

(** [SynchronousExecutor]: [submit] runs the call before it returns, and
    keeps what it raises in the future. *)
Fixpoint run_synchronous (bucket_name : string) (st : Storage)
    (tasks : list Task) : Storage * list Done :=
  match tasks with
  | [] => (st, [])
  | t :: rest =>
      let '(st1, file_upload) :=
        upload_file_upload st bucket_name (task_key t) (task_member t) in
      let '(st2, dones) := run_synchronous bucket_name st1 rest in
      (st2, (task_key t, file_upload) :: dones)
  end.

(** [ThreadPoolExecutor]: a worker that is free takes the next submitted
    call; a call in progress makes its existence check, and later acts on
    the answer.  These steps of different workers interleave in any order. *)
Inductive phase :=
| Lookup
| Decided (found : bool).

Record Pool := {
  queue : list Task;
  running : list (Task * phase);
  finished : list Done;
  store : Storage;
}.

Definition can_start (workers : nat) (p : Pool) : bool :=
  (length (running p) <? workers)%nat &&
  match queue p with [] => false | _ :: _ => true end.

Definition start (p : Pool) : Pool :=
  match queue p with
  | [] => p
  | t :: rest =>
      {| queue := rest; running := running p ++ [(t, Lookup)];
         finished := finished p; store := store p |}
  end.

(** The worker at position [i] makes its next step. *)
Definition advance (bucket_name : string) (i : nat) (p : Pool) : Pool :=
  match running p !! i with
  | None => p
  | Some (t, Lookup) =>
      let found :=
        exists_with_size (store p) bucket_name (task_key t)
          (member_size (task_member t)) in
      {| queue := queue p;
         running := <[i := (t, Decided found)]> (running p);
         finished := finished p; store := store p |}
  | Some (t, Decided found) =>
      let '(st, file_upload) :=
        finish_upload (store p) bucket_name (task_key t) (task_member t) found in
      {| queue := queue p;
         running := take i (running p) ++ drop (S i) (running p);
         finished := finished p ++ [(task_key t, file_upload)];
         store := st |}
  end.

(** The number of steps that can be taken next. *)
Definition enabled (workers : nat) (p : Pool) : nat :=
  (if can_start workers p then 1 else 0) + length (running p).

(** One step, chosen among the enabled ones by the scheduler's number. *)
Definition pool_step (bucket_name : string) (workers choice : nat) (p : Pool)
  : Pool :=
  match enabled workers p with
  | O => p
  | S _ as n =>
      let c := choice mod n in
      if can_start workers p then
        match c with
        | O => start p
        | S i => advance bucket_name i p
        end
      else advance bucket_name c p
  end.

Fixpoint pool_steps (bucket_name : string) (workers : nat)
    (schedule : nat -> nat) (clock fuel : nat) (p : Pool) : Pool :=
  match fuel with
  | O => p
  | S fuel' =>
      pool_steps bucket_name workers schedule (S clock) fuel'
        (pool_step bucket_name workers (schedule clock) p)
  end.

(** A run of the pool to the end of the [with] block: every call takes three
    steps (start, check, finish). *)
Definition run_thread_pool (bucket_name : string) (workers : nat)
    (schedule : nat -> nat) (st : Storage) (tasks : list Task)
  : Storage * list Done :=
  let p := pool_steps bucket_name workers schedule 0 (3 * length tasks)
             {| queue := tasks; running := []; finished := []; store := st |} in
  (store p, finished p).

(** ** The upload view *)

(** The row of the persisted ledger the view creates and completes. *)
Record Upload := {
  upload_user : string;
  upload_filename : string;
  upload_bucket_name : string;
  upload_size : N;
  upload_download_url : option string;
  upload_redirect_urls : list string;
  upload_content_hash : string;
  upload_try_symbols : bool;
  upload_skipped_keys : option (list string);
  upload_ignored_keys : option (list string);
  upload_completed : bool;
}.

Record World := {
  storage : Storage;
  uploads : list Upload;
}.

Record UploadedFile := {
  uploaded_buffer : file_buffer;
  uploaded_size : N;
}.

(** What the view reads of the request: the files in the order sent, the
    form fields as [request.POST.get] reads them, and the authenticated
    identity. *)
Record Request := {
  FILES : list (string * UploadedFile);
  POST : gmap string string;
  user : User;
}.

(** What the download-by-URL collaborators ([UploadByDownloadForm] and the
    HTTP session) come back with. *)
Inductive download_outcome :=
| DownloadRemoteError (msg : string)
| DownloadInvalid (first_error : string)
| DownloadNon200 (url : string)
| Downloaded (url name : string) (size : N) (redirect_urls : list string)
    (buffer : file_buffer).

Inductive response :=
| JsonError (status : N) (error : string)
| JsonUpload (status : N) (upload : Upload).

(** [str(exception)] for the exceptions the view reports. *)
Definition exn_message (e : exn) : string :=
  match e with
  | NoPossibleBucketName s | BadZipfile s | UnrecognizedArchiveFileExtension s
  | DuplicateFileDifferentSize s | ImproperlyConfigured s | ClientError s => s
  end.

(** [sorted(xs, key=lambda x: x.name)]: stable, by code points. *)
Fixpoint insert_by_name (x : FileMember) (xs : list FileMember)
  : list FileMember :=
  match xs with
  | [] => [x]
  | y :: ys =>
      if String.leb (member_name x) (member_name y) then x :: y :: ys
      else y :: insert_by_name x ys
  end.

Fixpoint sorted_by_name (xs : list FileMember) : list FileMember :=
  match xs with
  | [] => []
  | x :: rest => insert_by_name x (sorted_by_name rest)
  end.

Definition newline : string := String (ascii_of_N 10) EmptyString.

Definition listing_line (x : FileMember) : string :=
  member_name x ++ ":" ++ Py.str_of_N (member_size x).

(** The text the hash is made of. *)
Definition listing_content (file_listing : list FileMember) : string :=
  String.concat newline (map listing_line (sorted_by_name file_listing)).

Definition content_hash (file_listing : list FileMember) : string :=
  String.substring 0 30 (MD5.hexdigest (listing_content file_listing)).

(** The first loop of the [with] block: the names put aside, and the calls
    submitted, in member order. *)
Fixpoint ignored_names (file_listing : list FileMember) : list string :=
  match file_listing with
  | [] => []
  | member :: rest =>
      if _ignore_member_file (member_name member)
      then member_name member :: ignored_names rest
      else ignored_names rest
  end.

Fixpoint submitted (prefix : string) (file_listing : list FileMember)
  : list Task :=
  match file_listing with
  | [] => []
  | member :: rest =>
      if _ignore_member_file (member_name member) then submitted prefix rest
      else {| task_key := Py.path_join prefix (member_name member);
              task_member := member |} :: submitted prefix rest
  end.

(** [tuple(member.name.split("/")[:2])] *)
Definition symbol_key (member : FileMember) : list string :=
  take 2 (Py.split "/" (member_name member)).

Definition key_to_symbol_keys (tasks : list Task) : gmap string (list string) :=
  fold_left (fun m t => <[task_key t := symbol_key (task_member t)]> m) tasks ∅.

(** The second loop: what the completed futures add up to. *)
Record Outcome := {
  ignored_keys : list string;
  skipped_keys : list string;
  file_uploads_created : nat;
  uploaded_symbol_keys : list (list string);
}.

Fixpoint skipped_of (dones : list Done) : list string :=
  match dones with
  | [] => []
  | (key_name, Ok None) :: rest => key_name :: skipped_of rest
  | _ :: rest => skipped_of rest
  end.

Fixpoint created_of (dones : list Done) : list FileUpload :=
  match dones with
  | [] => []
  | (_, Ok (Some file_upload)) :: rest => file_upload :: created_of rest
  | _ :: rest => created_of rest
  end.

(** The exception of the first future whose [result()] raises. *)
Fixpoint first_failure (dones : list Done) : option exn :=
  match dones with
  | [] => None
  | (_, Raise e) :: _ => Some e
  | _ :: rest => first_failure rest
  end.

Definition aggregate (file_listing : list FileMember) (tasks : list Task)
    (dones : list Done) : Outcome :=
  {| ignored_keys := ignored_names file_listing;
     skipped_keys := skipped_of dones;
     file_uploads_created := length (created_of dones);
     uploaded_symbol_keys :=
       map (fun file_upload =>
              default [] (key_to_symbol_keys tasks !! key file_upload))
           (created_of dones) |}.

(** Modelled from the spec: the attributes of [tecken.storage.StorageBucket]
    the view reads ([name], [prefix], [exists()]) are parsed from the URL by
    code that is not among the sources; they are left open. *)
Variable bucket_name : string -> string.
Variable bucket_prefix : string -> string.
Variable bucket_exists : string -> bool.

(** The download-by-URL collaborators, the size of the machine and the
    scheduler of its threads. *)
Variable download : gmap string string -> download_outcome.
Variable cpu_count : nat.
Variable schedule : nat -> nat.

(** [concurrent.futures.as_completed]: the futures, each once, in an order
    the view does not choose; the oracle says which of those left is
    next. *)
Variable completion_order : nat -> nat.

Fixpoint arrange (clock fuel : nat) (futures : list Done) : list Done :=
  match fuel with
  | O => []
  | S fuel' =>
      let i := completion_order clock mod length futures in
      match futures !! i with
      | Some future => future :: arrange (S clock) fuel' (delete i futures)
      | None => []
      end
  end.

Definition as_completed (futures : list Done) : list Done :=
  arrange 0 (length futures) futures.

(** [max_workers=settings.UPLOAD_FILE_UPLOAD_MAX_WORKERS or None], the
    library's default being [min(32, (os.cpu_count() or 1) + 4)]. *)
Definition max_workers : nat :=
  match UPLOAD_FILE_UPLOAD_MAX_WORKERS settings with
  | O => Nat.min 32 (Nat.max 1 cpu_count + 4)
  | n => n
  end.

Definition run_executor (bucket : string) (st : Storage) (tasks : list Task)
  : Storage * list Done :=
  if SYNCHRONOUS_UPLOAD_FILE_UPLOAD settings
  then run_synchronous bucket st tasks
  else run_thread_pool bucket max_workers schedule st tasks.

(** What the [try] block leaves behind when it does not return: the
    listing, and what the ledger row is made of. *)
Record Received := {
  received_listing : list FileMember;
  received_name : string;
  received_size : N;
  received_url : option string;
  received_redirect_urls : list string;
}.

Definition raised (e : exn) : response :=
  match e with
  | UnrecognizedArchiveFileExtension ext =>
      JsonError 400
        ("Unrecognized archive file extension " ++
         String Py.dquote (ext ++ String Py.dquote EmptyString))
  | _ => JsonError 400 (exn_message e)
  end.

(** The [try] block of [upload_archive]. *)
Definition receive (upload_dir : string) (request : Request)
  : response + Received :=
  match FILES request with
  | (name, upload_) :: _ =>
      match dump_and_extract upload_dir (uploaded_buffer upload_) name with
      | Raise e => inl (raised e)
      | Ok file_listing =>
          inr {| received_listing := file_listing; received_name := name;
                 received_size := uploaded_size upload_;
                 received_url := None; received_redirect_urls := [] |}
      end
  | [] =>
      if truthy (POST request !! "url") then
        match download (POST request) with
        | DownloadRemoteError msg => inl (JsonError 500 msg)
        | DownloadInvalid first_error => inl (JsonError 400 first_error)
        | DownloadNon200 url =>
            inl (JsonError 400 ("non-200 status code when retrieving " ++ url))
        | Downloaded url name size redirect_urls buffer =>
            match dump_and_extract upload_dir buffer name with
            | Raise e => inl (raised e)
            | Ok file_listing =>
                inr {| received_listing := file_listing;
                       received_name := name; received_size := size;
                       received_url := Some url;
                       received_redirect_urls := redirect_urls |}
            end
        end
      else
        inl (JsonError 400
               ("Must be multipart form data with at " ++ "least one file"))
  end.

(** [keys or None] *)
Definition or_none (keys : list string) : option (list string) :=
  match keys with
  | [] => None
  | _ :: _ => Some keys
  end.

(** [Upload.objects.create(...)]: the row is added to the ledger; its id is
    its place there. *)
Definition create_upload (rows : list Upload) (row : Upload)
  : nat * list Upload :=
  (length rows, rows ++ [row]).

(** What the update writes in a row. *)
Definition completed_row (skipped ignored : list string) (row : Upload)
  : Upload :=
  {| upload_user := upload_user row;
     upload_filename := upload_filename row;
     upload_bucket_name := upload_bucket_name row;
     upload_size := upload_size row;
     upload_download_url := upload_download_url row;
     upload_redirect_urls := upload_redirect_urls row;
     upload_content_hash := upload_content_hash row;
     upload_try_symbols := upload_try_symbols row;
     upload_skipped_keys := or_none skipped;
     upload_ignored_keys := or_none ignored;
     upload_completed := true |}.

(** [Upload.objects.filter(id=id).update(...)] *)
Definition update_upload (rows : list Upload) (id : nat)
    (skipped ignored : list string) : list Upload :=
  alter (completed_row skipped ignored) id rows.

(** The prefix of every key: the one configured, after the bucket's own
    when it has one. *)
Definition key_prefix (bucket_info : StorageBucket) : string :=
  if String.eqb (bucket_prefix (bucket_url bucket_info)) ""
  then SYMBOL_FILE_PREFIX settings
  else (bucket_prefix (bucket_url bucket_info) ++ "/" ++
        SYMBOL_FILE_PREFIX settings)%string.

(** The object [Upload.objects.create] returns: neither completed nor with
    lists of keys. *)
Definition new_upload (request : Request) (received : Received)
    (bucket_info : StorageBucket) (is_try_upload : bool) : Upload :=
  {| upload_user := email (user request);
     upload_filename := received_name received;
     upload_bucket_name := bucket_name (bucket_url bucket_info);
     upload_size := received_size received;
     upload_download_url := received_url received;
     upload_redirect_urls := received_redirect_urls received;
     upload_content_hash := content_hash (received_listing received);
     upload_try_symbols := is_try_upload;
     upload_skipped_keys := None;
     upload_ignored_keys := None;
     upload_completed := false |}.

(** [upload_archive], from the request and the world before it to the
    response (or the exception that escapes) and the world after it.  The
    row is created before the calls are submitted; every submitted call
    runs to its end, also when another one raises; the first [result()]
    that raises ends the view, the row left as it was created; otherwise
    the row is updated in the ledger, and the response is made of the
    object the creation returned, which the update does not touch.  The
    ledger is taken to answer; the daily count of [UploadsCreated], the
    metrics and the lines of the log are left out. *)
Definition upload_archive (upload_dir : string) (request : Request)
    (world : World) : result response * World :=
  match receive upload_dir request with
  | inl early => (Ok early, world)
  | inr received =>
      let file_listing := received_listing received in
      match check_symbols_archive_file_listing file_listing with
      | Some error => (Ok (JsonError 400 (Py.strip error)), world)
      | None =>
          let is_try_upload := POST request !! "try" in
          let preferred_bucket_name := POST request !! "bucket_name" in
          match get_bucket_info (user request) (PyStr <$> is_try_upload)
                  preferred_bucket_name with
          | Raise _ => (Ok (JsonError 403 "No valid bucket"), world)
          | Ok bucket_info =>
              let is_try_upload :=
                match is_try_upload with
                | None => truth (try_symbols bucket_info)
                | Some raw => truth (PyStr raw)
                end in
              let name := bucket_name (bucket_url bucket_info) in
              if negb (bucket_exists (bucket_url bucket_info)) then
                (Raise (ImproperlyConfigured
                          ("Bucket does not exist: " ++
                           bucket_url bucket_info)%string),
                 world)
              else
                let prefix := key_prefix bucket_info in
                let upload_obj :=
                  new_upload request received bucket_info is_try_upload in
                let '(id, rows) := create_upload (uploads world) upload_obj in
                let tasks := submitted prefix file_listing in
                let '(st, futures) :=
                  run_executor name (storage world) tasks in
                let completed := as_completed futures in
                match first_failure completed with
                | Some e => (Raise e, {| storage := st; uploads := rows |})
                | None =>
                    let outcome := aggregate file_listing tasks completed in
                    let rows :=
                      update_upload rows id (skipped_keys outcome)
                        (ignored_keys outcome) in
                    (Ok (JsonUpload 201 upload_obj),
                     {| storage := st; uploads := rows |})
                end
          end
      end
  end.


(** ** A deployment to run the model on *)

Definition example_settings : Settings := {|
  DISALLOWED_SYMBOLS_SNIPPETS := [".exe"; "evil"];
  UPLOAD_DEFAULT_URL := "https://s3.example.com/symbols-public";
  UPLOAD_TRY_SYMBOLS_URL := "https://s3.example.com/symbols-try";
  UPLOAD_URL_EXCEPTIONS :=
    [("*@private.example.com", "https://s3.example.com/symbols-private")];
  SYMBOL_FILE_PREFIX := "v1";
  SYNCHRONOUS_UPLOAD_FILE_UPLOAD := true;
  UPLOAD_FILE_UPLOAD_MAX_WORKERS := 0;
|}.

(** The same deployment with the thread pool, of three workers. *)
Definition example_pool_settings : Settings := {|
  DISALLOWED_SYMBOLS_SNIPPETS := [".exe"; "evil"];
  UPLOAD_DEFAULT_URL := "https://s3.example.com/symbols-public";
  UPLOAD_TRY_SYMBOLS_URL := "https://s3.example.com/symbols-try";
  UPLOAD_URL_EXCEPTIONS :=
    [("*@private.example.com", "https://s3.example.com/symbols-private")];
  SYMBOL_FILE_PREFIX := "v1";
  SYNCHRONOUS_UPLOAD_FILE_UPLOAD := false;
  UPLOAD_FILE_UPLOAD_MAX_WORKERS := 3;
|}.

(** The key characters to avoid: the space and the backslash. *)
Definition example_invalid_key_char (c : ascii) : bool :=
  Ascii.eqb c " " || Ascii.eqb c "\".

(** [fnmatch.fnmatch(name, pat)]: the arguments are the other way round. *)
Definition example_fnmatch (name pat : string) : bool := Py.wildcard_match pat name.

(** A bucket named by the last segment of its URL, with no prefix of its
    own, that exists. *)
Definition example_bucket_name (url : string) : string := Py.basename url.
Definition example_bucket_prefix (url : string) : string := EmptyString.
Definition example_bucket_exists (url : string) : bool := true.

Definition example_download (post : gmap string string) : download_outcome :=
  DownloadInvalid "This field is required.".

Definition example_cpu_count : nat := 4.
Definition example_schedule (clock : nat) : nat := 7 * clock + 3.
Definition example_completion_order (clock : nat) : nat := 5 * clock + 2.

(** Every existence check is answered in time; none is. *)
Definition example_lookup_times_out (bucket key_name : string) : bool := false.
Definition slow_lookup_times_out (bucket key_name : string) : bool := true.

Definition example_permissions (granted : list string) (perm : string) : bool :=
  str_in perm granted.

(** An uploader of release symbols, one of try symbols, one on the
    exception list and an administrator. *)
Definition example_releaser : User := {|
  email := "Release@Example.com";
  is_superuser := false;
  has_perm := example_permissions ["upload.upload_symbols"];
|}.

Definition example_tryer : User := {|
  email := "try@example.com";
  is_superuser := false;
  has_perm := example_permissions ["upload.upload_try_symbols"];
|}.

Definition example_partner : User := {|
  email := "Dev@Private.Example.com";
  is_superuser := false;
  has_perm := example_permissions ["upload.upload_symbols"];
|}.

Definition example_admin : User := {|
  email := "admin@example.com";
  is_superuser := true;
  has_perm := fun _ => true;
|}.

Definition example_entry (name : string) (size : N) : ZipInfo :=
  {| filename := name; file_size := size |}.

Definition example_member (name : string) (size : N) : FileMember :=
  {| member_name := name; member_size := size;
     member_path := Py.path_join "/tmp/upload" name |}.

(** The archive of the specification's scenario without its bad name. *)
Definition example_archive : file_buffer :=
  ZipFile [example_entry "xul.pdb/ABCD1234/xul.sym" 740;
           example_entry "xul.pdb/ABCD1234/xul.sym" 740;
           example_entry ".DS_Store" 6;
           example_entry "readme-symbols.txt" 31;
           example_entry "libxul.so/0F0F0F/libxul.so.sym" 1200].

Definition example_request (u : User) (post : list (string * string)) : Request := {|
  FILES := [("symbols.zip", {| uploaded_buffer := example_archive; uploaded_size := 977 |})];
  POST := list_to_map post;
  user := u;
|}.

(** The members extracted from the example archive, and a storage without
    objects. *)
Definition example_listing : list FileMember :=
  [example_member "xul.pdb/ABCD1234/xul.sym" 740;
   example_member ".DS_Store" 6;
   example_member "readme-symbols.txt" 31;
   example_member "libxul.so/0F0F0F/libxul.so.sym" 1200].

Definition example_storage : Storage := {| objects := ∅; put_log := [] |}.

Definition example_empty_world : World := {|
  storage := example_storage;
  uploads := [];
|}.


(** * Properties *)

(** ** Text lemmas *)

Lemma append_cons (c : ascii) (a b : string) :
  (String c a ++ b)%string = String c (a ++ b).
Proof. reflexivity. Qed.

Lemma append_nil (b : string) : ("" ++ b)%string = b.
Proof. reflexivity. Qed.

Lemma append_assoc (a b c : string) :
  ((a ++ b) ++ c = a ++ (b ++ c))%string.
Proof.
  induction a as [|x a IH]; [done|]. by rewrite !append_cons, IH.
Qed.

Lemma append_empty_r (a : string) : (a ++ "")%string = a.
Proof. induction a as [|x a IH]; [done|]. by rewrite append_cons, IH. Qed.

Lemma prefix_app (s t : string) : String.prefix s (s ++ t) = true.
Proof.
  induction s as [|c s IH].
  - by destruct t.
  - rewrite append_cons. simpl.
    destruct (ascii_dec c c); [exact IH | congruence].
Qed.

Lemma prefix_split (s t : string) :
  String.prefix s t = true -> exists rest, t = (s ++ rest)%string.
Proof.
  revert t; induction s as [|c s IH]; intros t H.
  - by exists t.
  - destruct t as [|d t]; simpl in H; [done|].
    destruct (ascii_dec c d) as [->|]; [|done].
    destruct (IH t H) as [rest ->]. by exists rest.
Qed.

Lemma contains_unfold (sub s : string) :
  Py.contains sub s =
  String.prefix sub s ||
  match s with EmptyString => false | String _ s' => Py.contains sub s' end.
Proof. by destruct s. Qed.

(** [contains] is the occurrence of the text somewhere in the other. *)
Lemma contains_spec (sub s : string) :
  Py.contains sub s = true <->
  exists before after, s = (before ++ sub ++ after)%string.
Proof.
  split.
  - induction s as [|c s IH]; rewrite contains_unfold, orb_true_iff;
      intros [H|H].
    + apply prefix_split in H as [rest ->]. by exists ""%string, rest.
    + done.
    + apply prefix_split in H as [rest H]. by exists ""%string, rest.
    + destruct (IH H) as (before & after & ->).
      by exists (String c before), after.
  - intros (before & after & ->).
    induction before as [|c before IH].
    + by rewrite append_nil, contains_unfold, prefix_app.
    + rewrite append_cons, contains_unfold, IH. apply orb_true_r.
Qed.

Lemma contains_middle (before sub after : string) :
  Py.contains sub (before ++ sub ++ after) = true.
Proof. apply contains_spec. eauto. Qed.

Lemma endswith_unfold (s suf : string) :
  Py.endswith s suf =
  String.eqb s suf ||
  match s with EmptyString => false | String _ s' => Py.endswith s' suf end.
Proof. by destruct s. Qed.

(** [endswith] is being the other text after something. *)
Lemma endswith_spec (s suf : string) :
  Py.endswith s suf = true <-> exists before, s = (before ++ suf)%string.
Proof.
  split.
  - induction s as [|c s IH]; rewrite endswith_unfold, orb_true_iff;
      intros [H|H].
    + apply String.eqb_eq in H as <-. by exists ""%string.
    + done.
    + apply String.eqb_eq in H as <-. by exists ""%string.
    + destruct (IH H) as [before ->]. by exists (String c before).
  - intros [before ->]. induction before as [|c before IH].
    + by rewrite append_nil, endswith_unfold, String.eqb_refl.
    + rewrite append_cons, endswith_unfold, IH. apply orb_true_r.
Qed.

Lemma any_char_app (p : ascii -> bool) (a b : string) :
  Py.any_char p (a ++ b) = Py.any_char p a || Py.any_char p b.
Proof.
  induction a as [|c a IH]; [done|].
  rewrite append_cons. simpl. by rewrite IH, orb_assoc.
Qed.

Lemma any_char_false (p : ascii -> bool) (s : string) :
  Py.any_char p s = false <->
  Forall (fun c => p c = false) (list_ascii_of_string s).
Proof.
  induction s as [|c s IH]; simpl.
  - split; [constructor | done].
  - rewrite orb_false_iff, IH. split.
    + intros [? ?]. by constructor.
    + by inversion 1.
Qed.

(** ** Archive validation *)

(** The rules in the words of the specification. *)

Definition hex_digits : string := "0123456789abcdefABCDEF".

(** Every character of the text has the property. *)
Definition all_chars (P : ascii -> Prop) (s : string) : Prop :=
  Forall P (list_ascii_of_string s).

Definition is_hex_digit (c : ascii) : Prop :=
  In c (list_ascii_of_string hex_digits).

Definition valid_key_char (c : ascii) : Prop := invalid_key_char c = false.

(** The name has one of the configured snippets in it. *)
Definition denylisted (name : string) : Prop :=
  exists snippet,
    In snippet (DISALLOWED_SYMBOLS_SNIPPETS settings) /\
    Py.contains snippet name = true.

(** The patterns a member's name may have. *)
Inductive recognized (name : string) : Prop :=
| module_hex_file (module_ hex file : string) :
    Py.split "/" name = [module_; hex; file] ->
    all_chars valid_key_char module_ ->
    all_chars valid_key_char file ->
    all_chars is_hex_digit hex ->
    recognized name
| symbols_listing :
    length (Py.split "/" name) = 1%nat ->
    Py.endswith (Py.lower name) "-symbols.txt" = true ->
    recognized name
| ignorable_file :
    In (Py.last_item (Py.split "/" name)) _ignorable_filenames ->
    recognized name.

Lemma not_hex_character_spec (c : ascii) :
  not_hex_character c = false <-> is_hex_digit c.
Proof.
  clear schedule cpu_count.
  unfold is_hex_digit. split.
  - destruct c as [[] [] [] [] [] [] [] []]; vm_compute; intros H;
      try discriminate H; tauto.
  - intros H. vm_compute in H.
    repeat (destruct H as [<-|H]; [reflexivity|]). destruct H.
Qed.

Lemma findall_nil (s : string) :
  _not_hex_characters_findall s = [] <-> all_chars is_hex_digit s.
Proof.
  unfold all_chars. induction s as [|c s IH]; simpl.
  - split; [constructor | done].
  - destruct (not_hex_character c) eqn:E.
    + split; [done|]. inversion 1 as [|? ? Hc]; subst.
      apply not_hex_character_spec in Hc. congruence.
    + rewrite IH. split.
      * intros ?. constructor; [by apply not_hex_character_spec | done].
      * by inversion 1.
Qed.

Lemma invalid_key_name_characters_false (s : string) :
  invalid_key_name_characters s = false <-> all_chars valid_key_char s.
Proof. apply any_char_false. Qed.

Lemma str_in_spec (x : string) (xs : list string) :
  str_in x xs = true <-> In x xs.
Proof.
  unfold str_in. rewrite existsb_exists. split.
  - intros (y & ? & ->%String.eqb_eq). done.
  - intros ?. exists x. by rewrite String.eqb_refl.
Qed.

Lemma first_disallowed_snippet_none (snippets : list string) (name : string) :
  first_disallowed_snippet snippets name = None <->
  forall snippet, In snippet snippets -> Py.contains snippet name = false.
Proof.
  induction snippets as [|s rest IH]; simpl.
  - split; [intros _ ? [] | done].
  - destruct (Py.contains s name) eqn:E.
    + split; [done|]. intros H. specialize (H s (or_introl eq_refl)). congruence.
    + rewrite IH. split.
      * intros H x [<-|?]; auto.
      * intros H x ?. apply H. by right.
Qed.

Lemma first_disallowed_snippet_some (snippets : list string) (name snippet : string) :
  first_disallowed_snippet snippets name = Some snippet ->
  In snippet snippets /\ Py.contains snippet name = true.
Proof.
  induction snippets as [|s rest IH]; simpl; [done|].
  destruct (Py.contains s name) eqn:E.
  - intros [= <-]. auto.
  - intros H. destruct (IH H). auto.
Qed.

Lemma not_denylisted (name : string) :
  first_disallowed_snippet (DISALLOWED_SYMBOLS_SNIPPETS settings) name = None
  <-> ~ denylisted name.
Proof.
  rewrite first_disallowed_snippet_none. unfold denylisted. split.
  - intros H (s & Hin & Hc). rewrite (H s Hin) in Hc. done.
  - intros H s Hin. destruct (Py.contains s name) eqn:E; [|done].
    destruct H. eauto.
Qed.

(** A member passes the loop body exactly when its name has none of the
    snippets and one of the patterns. *)
Lemma check_file_listing_continue (m : FileMember) :
  check_file_listing m = Continue <->
  ~ denylisted (member_name m) /\ recognized (member_name m).
Proof.
  unfold check_file_listing. rewrite <- not_denylisted.
  destruct (first_disallowed_snippet _ _) eqn:Hsn.
  { split; [done | by intros [? _]]. }
  destruct (str_in _ _) eqn:Hig.
  { split; [|done]. intros _. split; [done|].
    apply ignorable_file. by apply str_in_spec. }
  assert (Hnot : ~ In (Py.last_item (Py.split "/" (member_name m)))
                      _ignorable_filenames).
  { rewrite <- str_in_spec. congruence. }
  destruct (Py.split "/" (member_name m)) as [|s0 [|s1 [|s2 [|s3 rest]]]] eqn:Hsp.
  - split; [done|].
    intros [_ [? ? ? Hs _ _ _|Hl _|Hi]]; try rewrite Hsp in *; done.
  - destruct (Py.endswith _ _) eqn:He.
    + split; [|done]. intros _. split; [done|].
      apply symbols_listing; [by rewrite Hsp | done].
    + split; [done|].
      intros [_ [? ? ? Hs _ _ _|_ He'|Hi]]; try rewrite Hsp in *;
        [done | congruence | done].
  - split; [done|].
    intros [_ [? ? ? Hs _ _ _|Hl _|Hi]]; try rewrite Hsp in *; done.
  - destruct (invalid_key_name_characters (s0 ++ s2)) eqn:Hinv.
    + split; [done|].
      intros [_ [a h f Hs Ha Hf Hh|Hl _|Hi]]; try rewrite Hsp in *;
        [| done | done].
      injection Hs as <- <- <-.
      unfold invalid_key_name_characters in Hinv.
      rewrite any_char_app in Hinv.
      apply invalid_key_name_characters_false in Ha, Hf.
      unfold invalid_key_name_characters in Ha, Hf.
      rewrite Ha, Hf in Hinv. done.
    + unfold invalid_key_name_characters in Hinv.
      rewrite any_char_app in Hinv. apply orb_false_iff in Hinv as [Ha Hf].
      destruct (_not_hex_characters_findall s1) eqn:Hhex.
      * split; [|done]. intros _. split; [done|].
        eapply module_hex_file; [exact Hsp | | |].
        -- by apply invalid_key_name_characters_false.
        -- by apply invalid_key_name_characters_false.
        -- by apply findall_nil.
      * split; [done|].
        intros [_ [a' h f Hs _ _ Hh|Hl _|Hi]]; try rewrite Hsp in *;
          [| done | done].
        injection Hs as <- <- <-.
        apply findall_nil in Hh. congruence.
  - split; [done|].
    intros [_ [? ? ? Hs _ _ _|Hl _|Hi]]; try rewrite Hsp in *; done.
Qed.

Lemma snippet_message_contains (snippet : string) :
  Py.contains snippet (snippet_message snippet) = true.
Proof.
  unfold snippet_message. rewrite <- append_assoc. apply contains_middle.
Qed.

Lemma unrecognized_message_contains (name : string) :
  Py.contains name (unrecognized_message name) = true.
Proof.
  unfold unrecognized_message. rewrite <- !append_assoc.
  rewrite append_assoc. apply contains_middle.
Qed.

Lemma invalid_character_message_contains (name : string) :
  Py.contains (Py.repr name) (invalid_character_message name) = true.
Proof.
  unfold invalid_character_message.
  rewrite <- (append_empty_r (Py.repr name)) at 2. apply contains_middle.
Qed.

(** A member is as expected when its name has none of the configured
    snippets and has one of the patterns. *)
Definition passes (m : FileMember) : Prop :=
  ~ denylisted (member_name m) /\ recognized (member_name m).

(** The snippet is the first of the configured ones, in their order, that
    the name has in it. *)
Definition first_snippet (name snippet : string) : Prop :=
  exists before after,
    DISALLOWED_SYMBOLS_SNIPPETS settings = before ++ snippet :: after /\
    Forall (fun s => Py.contains s name = false) before /\
    Py.contains snippet name = true.

(** The name fails the key-character rule: it has three segments, and the
    first or the last has a character that is illegal in a key. *)
Definition key_character_fault (name : string) : Prop :=
  exists module_ hex file,
    Py.split "/" name = [module_; hex; file] /\
    invalid_key_name_characters (module_ ++ file) = true.

(** What the error of a member that is not as expected says: the message
    of the first configured snippet its name has; or, for a name without
    a snippet, the message of the key-character rule, with the [repr] of
    the name, when the name fails that rule, and the message of the
    pattern rule, with the name as it is, when it does not. *)
Definition reports (m : FileMember) (msg : string) : Prop :=
  let name := member_name m in
  (exists snippet,
      first_snippet name snippet /\
      msg = snippet_message snippet /\
      Py.contains snippet msg = true)
  \/ (~ denylisted name /\ ~ recognized name /\
      key_character_fault name /\
      msg = invalid_character_message name /\
      Py.contains (Py.repr name) msg = true)
  \/ (~ denylisted name /\ ~ recognized name /\
      ~ key_character_fault name /\
      msg = unrecognized_message name /\
      Py.contains name msg = true).

Lemma first_disallowed_snippet_first (snippets : list string)
    (name snippet : string) :
  first_disallowed_snippet snippets name = Some snippet ->
  exists before after,
    snippets = before ++ snippet :: after /\
    Forall (fun s => Py.contains s name = false) before /\
    Py.contains snippet name = true.
Proof.
  induction snippets as [|s rest IH]; simpl; [done|].
  destruct (Py.contains s name) eqn:E.
  - intros [= <-]. exists [], rest. auto.
  - intros H. destruct (IH H) as (before & after & -> & Hb & Hc).
    exists (s :: before), after. auto.
Qed.

Lemma check_file_listing_return (m : FileMember) (msg : string) :
  check_file_listing m = Return msg -> reports m msg.
Proof.
  intros H.
  assert (Hnp : ~ passes m).
  { intros Hp. apply check_file_listing_continue in Hp. congruence. }
  revert H. unfold check_file_listing, reports.
  destruct (first_disallowed_snippet _ _) as [snippet|] eqn:Hsn.
  { intros [= <-]. left. exists snippet.
    apply first_disallowed_snippet_first in Hsn.
    auto using snippet_message_contains. }
  apply not_denylisted in Hsn.
  assert (Hnr : ~ recognized (member_name m)) by (intros ?; by apply Hnp).
  intros H. right.
  assert (Hu : ~ key_character_fault (member_name m) ->
               msg = unrecognized_message (member_name m) ->
               ~ denylisted (member_name m) /\ ~ recognized (member_name m) /\
               ~ key_character_fault (member_name m) /\
               msg = unrecognized_message (member_name m) /\
               Py.contains (member_name m) msg = true).
  { intros ? ->. auto using unrecognized_message_contains. }
  destruct (str_in _ _); [done|].
  destruct (Py.split "/" (member_name m)) as [|s0 [|s1 [|s2 [|s3 rest]]]] eqn:Hsp.
  - right. apply Hu; [|congruence]. intros (? & ? & ? & Hs & _). by rewrite Hsp in Hs.
  - destruct (Py.endswith _ _); [done|].
    right. apply Hu; [|congruence]. intros (? & ? & ? & Hs & _). by rewrite Hsp in Hs.
  - right. apply Hu; [|congruence]. intros (? & ? & ? & Hs & _). by rewrite Hsp in Hs.
  - destruct (invalid_key_name_characters (s0 ++ s2)) eqn:Hinv.
    + left. injection H as <-. repeat split; try done.
      * exists s0, s1, s2. done.
      * apply invalid_character_message_contains.
    + destruct (_not_hex_characters_findall s1); [done|].
      right. apply Hu; [|congruence].
      intros (? & ? & ? & Hs & Hbad). rewrite Hsp in Hs.
      injection Hs as <- <- <-. congruence.
  - right. apply Hu; [|congruence]. intros (? & ? & ? & Hs & _). by rewrite Hsp in Hs.
Qed.

(** C1: a member list in which every name has one of the three patterns
    (module/hex/file with valid key characters, a single segment ending in
    -symbols.txt whatever the case, a last segment that is an ignorable file
    name) and none of the configured snippets is validated without error. *)
Theorem recognized_listing_is_accepted (file_listings : list FileMember) :
  (forall m, In m file_listings ->
     recognized (member_name m) /\
     forall snippet, In snippet (DISALLOWED_SYMBOLS_SNIPPETS settings) ->
                     Py.contains snippet (member_name m) = false) ->
  check_symbols_archive_file_listing file_listings = None.
Proof.
  induction file_listings as [|m rest IH]; intros H; simpl; [done|].
  assert (Hm : check_file_listing m = Continue).
  { apply check_file_listing_continue.
    destruct (H m (or_introl eq_refl)) as [Hr Hs]. split; [|done].
    apply not_denylisted. by apply first_disallowed_snippet_none. }
  rewrite Hm. apply IH. intros m' Hin. apply H. by right.
Qed.

(** C2, as amended: validation goes through the members in list order and
    returns the one error of the first member that is not as expected.  When
    that member's name has a configured snippet in it, the message is that
    of the first such snippet in the configured order and has it in it; when
    it has none and fails the key-character rule, the message has the
    [repr] of its name in it; when it has none and fails the catch-all
    pattern rule, the message has its name in it verbatim.  Without an
    error every member is as expected, so a snippet in any member's name
    gives an error. *)
Theorem first_violation_is_reported (file_listings : list FileMember) :
  match check_symbols_archive_file_listing file_listings with
  | None => Forall passes file_listings
  | Some msg =>
      exists before m after,
        file_listings = before ++ m :: after /\
        Forall passes before /\
        check_symbols_archive_file_listing (before ++ [m]) = Some msg /\
        reports m msg
  end.
Proof.
  induction file_listings as [|m rest IH]; simpl; [constructor|].
  destruct (check_file_listing m) as [|msg] eqn:Hm.
  - apply check_file_listing_continue in Hm as Hp.
    destruct (check_symbols_archive_file_listing rest) as [msg|].
    + destruct IH as (before & m' & after & -> & Hb & Hc & Hr).
      exists (m :: before), m', after. simpl. rewrite Hm. auto.
    + by constructor.
  - exists [], m, rest. simpl. rewrite Hm.
    auto using check_file_listing_return.
Qed.

(** ** Bucket resolution *)

(** An exception-list entry matches the identity: its address is the
    pattern, whatever the case, or matches it as a wildcard. *)
Definition entry_matches (user : User) (entry : string * string) : bool :=
  String.eqb (Py.lower (email user)) (Py.lower (fst entry))
  || fnmatch (Py.lower (email user)) (Py.lower (fst entry)).

(** The URLs the identity is permitted to use, in the words of the
    specification: the URLs of the matching exception-list entries, every
    exception-list URL for a superuser, or else the single public default. *)
Definition permitted_urls (user : User) : list string :=
  let exceptions := UPLOAD_URL_EXCEPTIONS settings in
  let private :=
    if is_superuser user then map snd exceptions
    else map snd (List.filter (entry_matches user) exceptions) in
  match private with
  | [] => [UPLOAD_DEFAULT_URL settings]
  | _ :: _ => private
  end.

(** The identity's address matches no exception-list entry, neither as a
    key nor as a wildcard. *)
Definition matches_no_exception (user : User) : Prop :=
  forall pattern url,
    In (pattern, url) (UPLOAD_URL_EXCEPTIONS settings) ->
    Py.lower (email user) <> pattern /\
    fnmatch (Py.lower (email user)) (Py.lower pattern) = false.

Lemma possible_private_urls_spec (user : User) (exceptions : list (string * string)) :
  map fst (possible_private_urls (Py.lower (email user)) (is_superuser user)
             exceptions) =
  if is_superuser user then map snd exceptions
  else map snd (List.filter (entry_matches user) exceptions).
Proof.
  induction exceptions as [|[pattern url] rest IH]; simpl.
  - by destruct (is_superuser user).
  - unfold entry_matches at 1. simpl.
    destruct (is_superuser user) eqn:Hsu.
    + rewrite !orb_true_r. simpl. by rewrite IH.
    + rewrite orb_false_r.
      destruct (_ || _); simpl; by rewrite IH.
Qed.

(** [get_possible_bucket_urls] computes the permitted URLs. *)
Lemma get_possible_bucket_urls_spec (user : User) :
  map fst (get_possible_bucket_urls user) = permitted_urls user.
Proof.
  unfold get_possible_bucket_urls, permitted_urls.
  rewrite <- possible_private_urls_spec.
  by destruct (possible_private_urls _ _ _).
Qed.

Lemma first_url_containing_some (preferred url : string)
    (urls : list (string * string)) :
  first_url_containing preferred urls = Some url ->
  In url (map fst urls) /\ Py.contains preferred url = true.
Proof.
  induction urls as [|[u kind] rest IH]; simpl; [done|].
  destruct (Py.contains preferred u) eqn:E.
  - intros [= <-]. auto.
  - intros H. destruct (IH H). auto.
Qed.

Lemma first_url_containing_none (preferred : string)
    (urls : list (string * string)) :
  first_url_containing preferred urls = None <->
  forall url, In url (map fst urls) -> Py.contains preferred url = false.
Proof.
  induction urls as [|[u kind] rest IH]; simpl.
  - split; [intros _ ? [] | done].
  - destruct (Py.contains preferred u) eqn:E.
    + split; [done|]. intros H. specialize (H u (or_introl eq_refl)). congruence.
    + rewrite IH. split.
      * intros H x [<-|?]; auto.
      * intros H x ?. apply H. by right.
Qed.

Lemma contains_empty (s : string) : Py.contains "" s = true.
Proof. rewrite contains_unfold. by destruct s. Qed.

Lemma permitted_urls_not_empty (user : User) : permitted_urls user <> [].
Proof.
  unfold permitted_urls.
  by destruct (if is_superuser user then _ else _).
Qed.

Lemma exception_of_none (user : User) :
  matches_no_exception user -> exception_of user = None.
Proof.
  unfold matches_no_exception, exception_of.
  induction (UPLOAD_URL_EXCEPTIONS settings) as [|[pattern url] rest IH];
    intros H; [done|].
  destruct (H pattern url (or_introl eq_refl)) as [Hne Hfn].
  apply String.eqb_neq in Hne.
  unfold dict_has in *. simpl. rewrite Hne, Hfn. simpl.
  apply IH. intros p u ?. apply (H p u). by right.
Qed.


(** Either one of the URLs has the text in it, or none has. *)
Lemma classic_contains (sub : string) (urls : list string) :
  (exists url, In url urls /\ Py.contains sub url = true) \/
  (forall url, In url urls -> Py.contains sub url = false).
Proof.
  induction urls as [|u rest [(url & ? & ?)|IH]].
  - right. intros ? [].
  - left. exists url. split; [by right | done].
  - destruct (Py.contains sub u) eqn:E.
    + left. exists u. split; [by left | done].
    + right. intros url [<-|?]; auto.
Qed.

Lemma get_bucket_info_preferred (user : User) (try_symbols : option pyvalue)
    (preferred : string) :
  (exists url, In url (permitted_urls user) /\ Py.contains preferred url = true) ->
  exists bucket, get_bucket_info user try_symbols (Some preferred) = Ok bucket.
Proof.
  intros (url & Hin & Hc). unfold get_bucket_info.
  destruct (truthy (Some preferred)); [|eauto]. simpl.
  destruct (first_url_containing _ _) eqn:E; [eauto|].
  rewrite first_url_containing_none, get_possible_bucket_urls_spec in E.
  rewrite (E url Hin) in Hc. done.
Qed.

Lemma get_bucket_info_not_preferred (user : User) (try_symbols : option pyvalue)
    (preferred : string) :
  (forall url, In url (permitted_urls user) -> Py.contains preferred url = false) ->
  get_bucket_info user try_symbols (Some preferred) =
  Raise (NoPossibleBucketName preferred).
Proof.
  intros H. unfold get_bucket_info.
  destruct (truthy (Some preferred)) eqn:Ht.
  - simpl.
    assert (E : first_url_containing preferred (get_possible_bucket_urls user) = None).
    { apply first_url_containing_none.
      by rewrite get_possible_bucket_urls_spec. }
    by rewrite E.
  - simpl in Ht. apply negb_false_iff, String.eqb_eq in Ht as ->.
    destruct (permitted_urls user) as [|url rest] eqn:E.
    + by apply permitted_urls_not_empty in E.
    + specialize (H url (or_introl eq_refl)).
      rewrite contains_empty in H. done.
Qed.

(** C3: with a preferred bucket name, resolution succeeds exactly when the
    name occurs in one of the URLs the identity is permitted to use; when it
    does not, [NoPossibleBucketName] is raised with the preferred name, and
    [upload_archive] answers 403 with the message No valid bucket. *)
Theorem preferred_bucket_must_be_permitted (user_ : User)
    (try_symbols : option pyvalue) (preferred : string) :
  ((exists bucket,
      get_bucket_info user_ try_symbols (Some preferred) = Ok bucket) <->
   (exists url,
      In url (permitted_urls user_) /\ Py.contains preferred url = true))
  /\ ((forall url, In url (permitted_urls user_) ->
                   Py.contains preferred url = false) ->
      get_bucket_info user_ try_symbols (Some preferred) =
      Raise (NoPossibleBucketName preferred))
  /\ (forall bucket,
        preferred <> EmptyString ->
        get_bucket_info user_ try_symbols (Some preferred) = Ok bucket ->
        In (bucket_url bucket) (permitted_urls user_) /\
        Py.contains preferred (bucket_url bucket) = true)
  /\ (forall upload_dir request world received,
        user request = user_ ->
        POST request !! "bucket_name" = Some preferred ->
        receive upload_dir request = inr received ->
        check_symbols_archive_file_listing (received_listing received) = None ->
        (forall url, In url (permitted_urls user_) ->
                     Py.contains preferred url = false) ->
        upload_archive upload_dir request world =
        (Ok (JsonError 403 "No valid bucket"), world)).
Proof.
  split; [|split; [|split]].
  - split; [|apply get_bucket_info_preferred].
    intros [bucket Hb].
    destruct (classic_contains preferred (permitted_urls user_)) as [H|H];
      [done|].
    rewrite (get_bucket_info_not_preferred _ _ _ H) in Hb. done.
  - apply get_bucket_info_not_preferred.
  - intros bucket Hne. unfold get_bucket_info.
    apply String.eqb_neq in Hne. simpl. rewrite Hne. simpl.
    destruct (first_url_containing _ _) as [url|] eqn:E; [|done].
    intros [= <-]. simpl.
    apply first_url_containing_some in E.
    by rewrite get_possible_bucket_urls_spec in E.
  - intros upload_dir request world received Hu Hp Hr Hc Hno.
    unfold upload_archive. rewrite Hr, Hc, Hu, Hp.
    by rewrite (get_bucket_info_not_preferred _ _ _ Hno).
Qed.


(** The URL the try flag selects before any override. *)
Definition candidate_url (try_flag : bool) : string :=
  if try_flag then UPLOAD_TRY_SYMBOLS_URL settings
  else UPLOAD_DEFAULT_URL settings.

Lemma get_bucket_info_no_exception (user : User) (try_symbols : option pyvalue)
    (preferred_bucket_name : option string) :
  matches_no_exception user ->
  truthy preferred_bucket_name = false ->
  get_bucket_info user try_symbols preferred_bucket_name =
  let flag := match try_symbols with
              | None => PyBool (negb (has_perm user "upload.upload_symbols"))
              | Some v => v
              end in
  Ok {| bucket_url := candidate_url (truth flag); try_symbols := flag |}.
Proof.
  intros Hno Hp. unfold get_bucket_info. rewrite Hp.
  by rewrite (exception_of_none _ Hno).
Qed.

(** C4, as amended: for an identity whose address matches no exception-list
    entry, with no preferred bucket name and no explicit try flag, the try
    flag is the negation of the identity holding [upload.upload_symbols], and
    the bucket is the one the flag selects: the public default bucket for a
    holder of the permission, the try bucket otherwise. *)
Theorem resolution_without_exception (user : User) :
  matches_no_exception user ->
  get_bucket_info user None None =
  Ok {| bucket_url :=
          if has_perm user "upload.upload_symbols"
          then UPLOAD_DEFAULT_URL settings
          else UPLOAD_TRY_SYMBOLS_URL settings;
        try_symbols := PyBool (negb (has_perm user "upload.upload_symbols")) |}.
Proof.
  intros Hno. rewrite (get_bucket_info_no_exception _ None None Hno eq_refl).
  simpl. unfold candidate_url. by destruct (has_perm user _).
Qed.

(** The try flag of the bucket is the one asked for, or the one derived
    from the permission, whatever overrides the URL. *)
Lemma get_bucket_info_try_symbols (user : User) (try_symbols_ : option pyvalue)
    (preferred_bucket_name : option string) (bucket : StorageBucket) :
  get_bucket_info user try_symbols_ preferred_bucket_name = Ok bucket ->
  try_symbols bucket =
  match try_symbols_ with
  | None => PyBool (negb (has_perm user "upload.upload_symbols"))
  | Some v => v
  end.
Proof.
  unfold get_bucket_info. destruct (truthy preferred_bucket_name).
  - destruct (first_url_containing _ _); [|done]. by intros [= <-].
  - by intros [= <-].
Qed.

Lemma raised_is_error (e : exn) :
  exists status error, raised e = JsonError status error.
Proof. destruct e; simpl; eauto. Qed.

(** What the [try] block returns early is an error. *)
Lemma receive_early (upload_dir : string) (request : Request) (early : response) :
  receive upload_dir request = inl early ->
  exists status error, early = JsonError status error.
Proof.
  unfold receive.
  destruct (FILES request) as [|[name upload_] rest].
  - destruct (truthy _); [|intros [= <-]; eauto].
    destruct (download _) as [msg|msg|url|url name size redirect_urls buffer];
      try (intros [= <-]; eauto).
    destruct (dump_and_extract _ _ _) as [l|e]; [done|].
    intros [= <-]. apply raised_is_error.
  - destruct (dump_and_extract _ _ _) as [l|e]; [done|].
    intros [= <-]. apply raised_is_error.
Qed.

(** C10, as amended: the try flag of an upload is the truth of the raw
    value of the [try] parameter when the POST body has one (true for any
    text that is not empty, false for the empty text), and is derived from
    the [upload.upload_symbols] permission only when the parameter is
    absent.  The flag selects the try bucket or the default bucket when the
    identity matches no exception-list entry and no bucket name is asked
    for; an exception-list entry or a permitted bucket name decides the
    bucket otherwise, and leaves the flag as it is. *)
Theorem try_parameter_is_taken_by_truth (upload_dir : string)
    (request : Request) (world world' : World) (status : N) (upload : Upload) :
  upload_archive upload_dir request world = (Ok (JsonUpload status upload), world') ->
  let flag :=
    match POST request !! "try" with
    | Some raw => negb (String.eqb raw "")
    | None => negb (has_perm (user request) "upload.upload_symbols")
    end in
  upload_try_symbols upload = flag /\
  (matches_no_exception (user request) ->
   truthy (POST request !! "bucket_name") = false ->
   upload_bucket_name upload = bucket_name (candidate_url flag)).
Proof.
  unfold upload_archive.
  destruct (receive upload_dir request) as [early|received] eqn:Hr.
  { apply receive_early in Hr as (? & ? & ->). done. }
  destruct (check_symbols_archive_file_listing _); [done|].
  destruct (get_bucket_info _ _ _) as [bucket|] eqn:Hb; [|done].
  destruct (negb (bucket_exists _)); [done|].
  unfold create_upload.
  destruct (run_executor _ _ _) as [st dones].
  destruct (first_failure _); [done|].
  intros [= <- <- <-]. simpl.
  pose proof (get_bucket_info_try_symbols _ _ _ _ Hb) as Ht.
  split.
  - rewrite Ht. by destruct (POST request !! "try").
  - intros Hno Hp.
    rewrite (get_bucket_info_no_exception _ _ _ Hno Hp) in Hb.
    injection Hb as <-. simpl. by destruct (POST request !! "try").
Qed.


(** ** Archive extraction *)

(** Entries of the same name have the same size. *)
Definition sizes_agree (infolist : list ZipInfo) : Prop :=
  forall a b, In a infolist -> In b infolist ->
              filename a = filename b -> file_size a = file_size b.

(** Two entries share a name and differ in size. *)
Definition size_conflict (infolist : list ZipInfo) : Prop :=
  exists a b, In a infolist /\ In b infolist /\
              filename a = filename b /\ file_size a <> file_size b.

Lemma sizes_agree_same_entries (l l' : list ZipInfo) :
  (forall x, In x l <-> In x l') -> sizes_agree l -> sizes_agree l'.
Proof. intros E H a b Ha Hb. apply H; by apply E. Qed.

Lemma zipinfo_eq (a b : ZipInfo) :
  filename a = filename b -> file_size a = file_size b -> a = b.
Proof. destruct a, b; simpl; by intros -> ->. Qed.

Lemma seen_size_some (seen : list ZipInfo) (name : string) (sz : N) :
  seen_size seen name = Some sz ->
  In {| filename := name; file_size := sz |} seen.
Proof.
  induction seen as [|info rest IH]; simpl; [done|].
  destruct (String.eqb_spec name (filename info)) as [->|].
  - intros [= <-]. left. by destruct info.
  - auto.
Qed.

Lemma seen_size_none (seen : list ZipInfo) (name : string) :
  seen_size seen name = None ->
  forall info, In info seen -> filename info <> name.
Proof.
  induction seen as [|info rest IH]; simpl; [by intros _ ? []|].
  destruct (String.eqb_spec name (filename info)) as [->|]; [done|].
  intros H x [<-|Hx]; [done | by apply IH].
Qed.

(** The scan for a conflict finds none exactly when the sizes agree. *)
Lemma first_size_conflict_none (seen infolist : list ZipInfo) :
  sizes_agree seen ->
  first_size_conflict seen infolist = None <-> sizes_agree (seen ++ infolist).
Proof.
  clear schedule cpu_count.
  revert seen. induction infolist as [|info rest IH]; intros seen Hseen; simpl.
  - rewrite app_nil_r. done.
  - destruct (seen_size seen (filename info)) as [sz|] eqn:Hs.
    + apply seen_size_some in Hs.
      destruct (N.eqb_spec sz (file_size info)) as [->|Hne].
      * assert (Hin : In info seen) by (by destruct info).
        rewrite (IH seen Hseen). split; apply sizes_agree_same_entries;
          intros x; rewrite !in_app_iff; simpl;
          (split; intros H; repeat (destruct H as [H|H]); subst; auto).
      * split; [done|]. intros H. destruct Hne.
        apply (H {| filename := filename info; file_size := sz |} info);
          rewrite ?in_app_iff; simpl; auto.
    + pose proof (seen_size_none _ _ Hs) as Hfresh.
      assert (Hseen' : sizes_agree (info :: seen)).
      { intros a b [<-|Ha] [<-|Hb] E; auto.
        - symmetry in E. by apply Hfresh in E.
        - by apply Hfresh in E. }
      rewrite (IH (info :: seen) Hseen').
      split; apply sizes_agree_same_entries;
        intros x; rewrite !in_app_iff; simpl; rewrite ?in_app_iff; tauto.
Qed.

Lemma first_size_conflict_some (seen infolist : list ZipInfo) (info : ZipInfo) :
  first_size_conflict seen infolist = Some info ->
  size_conflict (seen ++ infolist).
Proof.
  clear schedule cpu_count.
  revert seen. induction infolist as [|x rest IH]; intros seen; simpl; [done|].
  destruct (seen_size seen (filename x)) as [sz|] eqn:Hs.
  - apply seen_size_some in Hs.
    destruct (N.eqb_spec sz (file_size x)) as [->|Hne].
    + intros H. destruct (IH _ H) as (a & b & Ha & Hb & ? & ?).
      exists a, b. rewrite !in_app_iff in *. simpl. tauto.
    + intros _. exists {| filename := filename x; file_size := sz |}, x.
      rewrite !in_app_iff. simpl. auto.
  - intros H. destruct (IH _ H) as (a & b & Ha & Hb & ? & ?).
    exists a, b. rewrite !in_app_iff in *. simpl in *. tauto.
Qed.

Lemma size_conflict_not_agree (infolist : list ZipInfo) :
  size_conflict infolist -> ~ sizes_agree infolist.
Proof. intros (a & b & Ha & Hb & E & Hne) H. by apply Hne, H. Qed.

(** The names of the extracted members are distinct and new. *)
Lemma extracted_members_names (upload_dir : string) (seen : list string)
    (infolist : list ZipInfo) :
  NoDup (map member_name (extracted_members upload_dir seen infolist)) /\
  forall m, In m (extracted_members upload_dir seen infolist) ->
            ~ In (member_name m) seen /\
            In {| filename := member_name m; file_size := member_size m |}
               infolist.
Proof.
  revert seen. induction infolist as [|info rest IH]; intros seen; simpl.
  - split; [constructor | done].
  - destruct (str_in (filename info) seen) eqn:Hin.
    + destruct (IH seen) as [Hnd Hm]. split; [done|].
      intros m Hmem. destruct (Hm m Hmem). auto.
    + destruct (IH (filename info :: seen)) as [Hnd Hm]. split.
      * simpl. constructor; [|done].
        rewrite list_elem_of_In, in_map_iff. intros (m & E & Hmem).
        destruct (Hm m Hmem) as [Hnot _]. apply Hnot. left. done.
      * intros m [<-|Hmem]; simpl.
        -- split; [|left; by destruct info].
           rewrite <- str_in_spec. congruence.
        -- destruct (Hm m Hmem) as [Hnot ?]. split; [|by right].
           intros ?. apply Hnot. by right.
Qed.

(** C7: extraction accepts entries of the same name when their sizes are
    the same, and fails with [DuplicateFileDifferentSize] when two entries
    share a name and differ in size; [upload_archive] then answers 400 with
    the exception's text and leaves storage and ledger as they were. *)
Theorem duplicate_entries_conflict_by_size (upload_dir name : string)
    (infolist : list ZipInfo) :
  Py.endswith (Py.lower name) ".zip" = true ->
  (sizes_agree infolist ->
   dump_and_extract upload_dir (ZipFile infolist) name =
   Ok (extracted_members upload_dir [] infolist))
  /\ (size_conflict infolist ->
      exists msg,
        dump_and_extract upload_dir (ZipFile infolist) name =
        Raise (DuplicateFileDifferentSize msg) /\
        forall request world upload_ rest,
          FILES request = (name, upload_) :: rest ->
          uploaded_buffer upload_ = ZipFile infolist ->
          upload_archive upload_dir request world =
          (Ok (JsonError 400 msg), world)).
Proof.
  intros Hzip. unfold dump_and_extract. rewrite Hzip. split.
  - intros Hagree.
    assert (E : first_size_conflict [] infolist = None).
    { apply first_size_conflict_none; [by intros ? ? []|done]. }
    by rewrite E.
  - intros Hconf.
    destruct (first_size_conflict [] infolist) as [info|] eqn:E.
    + exists (filename info). split; [done|].
      intros request world upload_ rest Hf Hb.
      unfold upload_archive, receive, dump_and_extract.
      by rewrite Hf, Hb, Hzip, E.
    + apply first_size_conflict_none in E; [|by intros ? ? []].
      by apply size_conflict_not_agree in Hconf.
Qed.


(** ** The content hash *)

(** What the hash reads of a member. *)
Definition name_size (m : FileMember) : string * N :=
  (member_name m, member_size m).

(** Members of the same name have the same size, as extraction leaves it. *)
Definition names_determine_sizes (file_listing : list FileMember) : Prop :=
  forall a b, In a file_listing -> In b file_listing ->
              member_name a = member_name b -> member_size a = member_size b.

Definition by_name (a b : FileMember) : Prop :=
  String.le (member_name a) (member_name b).

Definition pair_by_name (a b : string * N) : Prop := String.le (fst a) (fst b).

Lemma insert_by_name_perm (x : FileMember) (xs : list FileMember) :
  insert_by_name x xs ≡ₚ x :: xs.
Proof.
  induction xs as [|y ys IH]; simpl; [done|].
  destruct (String.leb _ _); [done|].
  rewrite IH. apply Permutation_swap.
Qed.

Lemma sorted_by_name_perm (xs : list FileMember) : sorted_by_name xs ≡ₚ xs.
Proof.
  induction xs as [|x xs IH]; simpl; [done|].
  by rewrite insert_by_name_perm, IH.
Qed.

Lemma insert_by_name_sorted (x : FileMember) (xs : list FileMember) :
  StronglySorted by_name xs -> StronglySorted by_name (insert_by_name x xs).
Proof.
  induction 1 as [|y ys Hs IH Hy]; simpl.
  - repeat constructor.
  - destruct (String.leb (member_name x) (member_name y)) eqn:E.
    + constructor; [by constructor|].
      assert (Hxy : by_name x y) by (unfold by_name, String.le; by rewrite E).
      constructor; [done|].
      eapply Forall_impl; [exact Hy|]. intros z Hz.
      unfold by_name in *. by etrans.
    + constructor; [done|].
      rewrite insert_by_name_perm. constructor; [|done].
      unfold by_name. destruct (total String.le (member_name y) (member_name x))
        as [?|H]; [done|].
      unfold String.le in H. rewrite E in H. done.
Qed.

Lemma sorted_by_name_sorted (xs : list FileMember) :
  StronglySorted by_name (sorted_by_name xs).
Proof.
  induction xs as [|x xs IH]; simpl; [constructor|].
  by apply insert_by_name_sorted.
Qed.

Lemma listing_line_name_size (m : FileMember) :
  listing_line m =
  (fst (name_size m) ++ ":" ++ Py.str_of_N (snd (name_size m)))%string.
Proof. reflexivity. Qed.


(** The text hashed is made of the names and sizes alone, and is the same
    for the same names and sizes in another order. *)
Lemma sorted_name_sizes (l1 l2 : list FileMember) :
  names_determine_sizes l1 ->
  map name_size l1 ≡ₚ map name_size l2 ->
  map name_size (sorted_by_name l1) = map name_size (sorted_by_name l2).
Proof.
  intros Hdet Hperm.
  apply (StronglySorted_unique_strong pair_by_name).
  - intros x1 x2 H1 H2 H12 H21.
    assert (Hin : forall x l, x ∈ map name_size (sorted_by_name l) ->
                              exists m, In m l /\ x = name_size m).
    { intros x l Hx. rewrite sorted_by_name_perm in Hx.
      apply list_elem_of_In, in_map_iff in Hx as (m & <- & ?). eauto. }
    assert (H2' : x2 ∈ map name_size (sorted_by_name l1)).
    { rewrite sorted_by_name_perm, Hperm, <- (sorted_by_name_perm l2). done. }
    apply Hin in H1 as (m1 & Hm1 & ->). apply Hin in H2' as (m2 & Hm2 & ->).
    assert (E : member_name m1 = member_name m2).
    { apply (anti_symm String.le); done. }
    unfold name_size. by rewrite E, (Hdet m1 m2 Hm1 Hm2 E).
  - apply (StronglySorted_fmap _ by_name); [done|]. apply sorted_by_name_sorted.
  - apply (StronglySorted_fmap _ by_name); [done|]. apply sorted_by_name_sorted.
  - by rewrite !sorted_by_name_perm.
Qed.

(** C9: the content hash, the first 30 hexadecimal characters of the MD5 of
    the name-sorted [name:size] lines, reads the names and sizes of the
    extracted members and nothing else: two member lists whose names and
    sizes are the same up to order, whatever their files hold, have the
    same hash. *)
Theorem content_hash_reads_names_and_sizes (l1 l2 : list FileMember) :
  names_determine_sizes l1 ->
  map name_size l1 ≡ₚ map name_size l2 ->
  content_hash l1 = content_hash l2 /\
  content_hash l1 =
  String.substring 0 30
    (MD5.hexdigest
       (String.concat newline
          (map (fun p => (fst p ++ ":" ++ Py.str_of_N (snd p))%string)
               (map name_size (sorted_by_name l1))))).
Proof.
  intros Hdet Hperm.
  assert (E : forall l, map listing_line (sorted_by_name l) =
                        map (fun p => (fst p ++ ":" ++ Py.str_of_N (snd p))%string)
                            (map name_size (sorted_by_name l))).
  { intros l. rewrite map_map. apply map_ext. intros m.
    apply listing_line_name_size. }
  unfold content_hash, listing_content. rewrite !E.
  by rewrite (sorted_name_sizes l1 l2 Hdet Hperm).
Qed.

(** Extraction leaves members whose names determine their sizes. *)
Lemma extracted_names_distinct (upload_dir name : string) (buffer : file_buffer)
    (file_listing : list FileMember) :
  dump_and_extract upload_dir buffer name = Ok file_listing ->
  NoDup (map member_name file_listing).
Proof.
  unfold dump_and_extract. destruct (Py.endswith _ _); [|done].
  destruct buffer as [msg|infolist]; [done|].
  destruct (first_size_conflict _ _); [done|].
  intros [= <-]. apply extracted_members_names.
Qed.

Lemma distinct_names_determine_sizes (file_listing : list FileMember) :
  NoDup (map member_name file_listing) -> names_determine_sizes file_listing.
Proof.
  intros Hnd a b Ha Hb E.
  enough (a = b) by congruence.
  clear -Hnd Ha Hb E.
  induction file_listing as [|m rest IH]; [done|].
  simpl in Hnd. apply NoDup_cons in Hnd as [Hnot Hnd].
  rewrite list_elem_of_In, in_map_iff in Hnot.
  destruct Ha as [<-|Ha], Hb as [<-|Hb]; auto.
  - destruct Hnot. eauto.
  - destruct Hnot. eauto.
Qed.


(** ** The executors *)

(** The steps a call still has to take: three when submitted, two once a
    worker has it, one once the existence check has answered. *)
Definition phase_steps (ph : phase) : nat :=
  match ph with
  | Lookup => 2
  | Decided _ => 1
  end.

Definition running_steps (r : list (Task * phase)) : nat :=
  sum_list_with (fun tp => phase_steps (snd tp)) r.

Definition remaining (p : Pool) : nat :=
  3 * length (queue p) + running_steps (running p).

Lemma running_steps_app (r1 r2 : list (Task * phase)) :
  running_steps (r1 ++ r2) = running_steps r1 + running_steps r2.
Proof. apply sum_list_with_app. Qed.

(** What a step of the pool is. *)
Lemma pool_step_cases (bucket : string) (workers choice : nat) (p : Pool) :
  (enabled workers p = 0 /\ pool_step bucket workers choice p = p)
  \/ (can_start workers p = true /\
      pool_step bucket workers choice p = start p)
  \/ (exists i t ph,
        running p !! i = Some (t, ph) /\
        pool_step bucket workers choice p = advance bucket i p).
Proof.
  unfold pool_step. destruct (enabled workers p) as [|n] eqn:En; [by left|].
  right.
  assert (Hlt : choice mod S n < S n) by (apply Nat.mod_upper_bound; lia).
  unfold enabled in En.
  destruct (can_start workers p) eqn:Hc.
  - destruct (choice mod S n) as [|i] eqn:Ec; [by left|].
    right. assert (Hi : i < length (running p)) by lia.
    apply lookup_lt_is_Some in Hi as [[t ph] Hi]. eauto.
  - right. assert (Hi : choice mod S n < length (running p)) by lia.
    apply lookup_lt_is_Some in Hi as [[t ph] Hi]. eauto.
Qed.

Lemma remaining_start (workers : nat) (p : Pool) :
  can_start workers p = true -> S (remaining (start p)) = remaining p.
Proof.
  unfold can_start, start, remaining.
  destruct (queue p) as [|t rest]; [by rewrite andb_false_r|].
  intros _. simpl. rewrite running_steps_app.
  unfold running_steps. simpl. lia.
Qed.

Lemma remaining_advance (bucket : string) (i : nat) (p : Pool) (t : Task)
    (ph : phase) :
  running p !! i = Some (t, ph) ->
  S (remaining (advance bucket i p)) = remaining p.
Proof.
  intros Hi. unfold advance, remaining. rewrite Hi.
  assert (Hrs : running_steps (running p) =
                running_steps (take i (running p)) + phase_steps ph +
                running_steps (drop (S i) (running p))).
  { rewrite <- (take_drop_middle _ _ _ Hi) at 1.
    rewrite running_steps_app. unfold running_steps. simpl. lia. }
  destruct ph as [|found].
  - simpl. rewrite insert_take_drop by (by eapply lookup_lt_Some).
    rewrite running_steps_app, Hrs. unfold running_steps. simpl. lia.
  - destruct (finish_upload _ _ _ _ _) as [st file_upload]. simpl.
    rewrite running_steps_app, Hrs. simpl. lia.
Qed.

Lemma enabled_none (workers : nat) (p : Pool) :
  1 <= workers -> enabled workers p = 0 -> remaining p = 0.
Proof.
  unfold enabled, can_start, remaining. intros Hw H.
  destruct (running p) as [|r rs]; [|simpl in H; lia].
  simpl in *. destruct (queue p); [done|].
  destruct (Nat.ltb_spec 0 workers); simpl in H; lia.
Qed.

Lemma remaining_step (bucket : string) (workers choice : nat) (p : Pool) :
  1 <= workers ->
  remaining (pool_step bucket workers choice p) = pred (remaining p).
Proof.
  intros Hw.
  destruct (pool_step_cases bucket workers choice p)
    as [[H ->]|[[H ->]|(i & t & ph & H & ->)]].
  - by rewrite (enabled_none _ _ Hw H).
  - by rewrite <- (remaining_start _ _ H).
  - by rewrite <- (remaining_advance bucket _ _ _ _ H).
Qed.

Lemma remaining_steps (bucket : string) (workers : nat) (sch : nat -> nat)
    (fuel clock : nat) (p : Pool) :
  1 <= workers ->
  remaining (pool_steps bucket workers sch clock fuel p) = remaining p - fuel.
Proof.
  intros Hw. revert clock p.
  induction fuel as [|fuel IH]; intros clock p; simpl; [lia|].
  rewrite IH, remaining_step by done. lia.
Qed.

Lemma remaining_zero (p : Pool) :
  remaining p = 0 -> queue p = [] /\ running p = [].
Proof.
  unfold remaining. destruct (queue p); [|simpl; lia].
  destruct (running p) as [|[t ph] rs]; [done|].
  unfold running_steps. destruct ph; simpl; lia.
Qed.

(** Whatever the scheduler does, the pool runs every submitted call to its
    end. *)
Lemma run_thread_pool_finishes (bucket : string) (workers : nat)
    (sch : nat -> nat) (st : Storage) (tasks : list Task) :
  1 <= workers ->
  let p := pool_steps bucket workers sch 0 (3 * length tasks)
             {| queue := tasks; running := []; finished := []; store := st |} in
  queue p = [] /\ running p = [].
Proof.
  intros Hw. apply remaining_zero.
  rewrite remaining_steps by done. unfold remaining, running_steps. simpl. lia.
Qed.

(** A property that the start of a call and a step of a call keep is kept
    by the whole run. *)
Lemma pool_steps_invariant (I : Pool -> Prop) (bucket : string)
    (workers : nat) (sch : nat -> nat) :
  (forall p, I p -> can_start workers p = true -> I (start p)) ->
  (forall p i t ph, I p -> running p !! i = Some (t, ph) ->
                    I (advance bucket i p)) ->
  forall fuel clock p, I p -> I (pool_steps bucket workers sch clock fuel p).
Proof.
  intros Hstart Hadv. induction fuel as [|fuel IH]; intros clock p Hp; [done|].
  simpl. apply IH.
  destruct (pool_step_cases bucket workers (sch clock) p)
    as [[H ->]|[[H ->]|(i & t & ph & H & ->)]]; eauto.
Qed.


(** The three moves of the pool, as a relation between its states. *)
Inductive pool_move (bucket : string) : Pool -> Pool -> Prop :=
| move_start t rest r f st :
    pool_move bucket
      {| queue := t :: rest; running := r; finished := f; store := st |}
      {| queue := rest; running := r ++ [(t, Lookup)]; finished := f;
         store := st |}
| move_lookup q before t after f st :
    pool_move bucket
      {| queue := q; running := before ++ (t, Lookup) :: after;
         finished := f; store := st |}
      {| queue := q;
         running :=
           before ++
           (t, Decided (exists_with_size st bucket (task_key t)
                          (member_size (task_member t)))) :: after;
         finished := f; store := st |}
| move_finish q before t found after f st :
    pool_move bucket
      {| queue := q; running := before ++ (t, Decided found) :: after;
         finished := f; store := st |}
      {| queue := q; running := before ++ after;
         finished :=
           f ++ [(task_key t,
                  snd (finish_upload st bucket (task_key t) (task_member t)
                         found))];
         store :=
           fst (finish_upload st bucket (task_key t) (task_member t) found) |}.

Lemma start_is_move (bucket : string) (workers : nat) (p : Pool) :
  can_start workers p = true -> pool_move bucket p (start p).
Proof.
  unfold can_start, start. destruct p as [q r f st]. simpl.
  destruct q as [|t rest]; [by rewrite andb_false_r|].
  intros _. constructor.
Qed.

Lemma advance_is_move (bucket : string) (i : nat) (p : Pool) (t : Task)
    (ph : phase) :
  running p !! i = Some (t, ph) -> pool_move bucket p (advance bucket i p).
Proof.
  intros Hi. unfold advance. rewrite Hi.
  pose proof (take_drop_middle _ _ _ Hi) as Hmid.
  destruct p as [q r f st]. simpl in *.
  destruct ph as [|found].
  - rewrite insert_take_drop by (by eapply lookup_lt_Some).
    rewrite <- Hmid at 1. constructor.
  - destruct (finish_upload st bucket (task_key t) (task_member t) found)
      as [st' file_upload] eqn:E.
    rewrite <- Hmid at 1.
    replace st' with
      (fst (finish_upload st bucket (task_key t) (task_member t) found))
      by (by rewrite E).
    replace file_upload with
      (snd (finish_upload st bucket (task_key t) (task_member t) found))
      by (by rewrite E).
    constructor.
Qed.

(** A property kept by every move is kept by the whole run. *)
Lemma pool_steps_keep (I : Pool -> Prop) (bucket : string) (workers : nat)
    (sch : nat -> nat) :
  (forall p p', I p -> pool_move bucket p p' -> I p') ->
  forall fuel clock p, I p -> I (pool_steps bucket workers sch clock fuel p).
Proof.
  intros Hmove. apply pool_steps_invariant.
  - intros p Hp Hc. eapply Hmove; [exact Hp|]. by eapply start_is_move.
  - intros p i t ph Hp Hi. eapply Hmove; [exact Hp|].
    by eapply advance_is_move.
Qed.

(** With one worker the pool is the synchronous executor. *)
Lemma pool_steps_one_worker (bucket : string) (sch : nat -> nat)
    (tasks : list Task) (clock : nat) (f : list Done) (st : Storage) :
  pool_steps bucket 1 sch clock (3 * length tasks)
    {| queue := tasks; running := []; finished := f; store := st |} =
  {| queue := []; running := [];
     finished := f ++ snd (run_synchronous bucket st tasks);
     store := fst (run_synchronous bucket st tasks) |}.
Proof.
  revert clock f st. induction tasks as [|t rest IH]; intros clock f st.
  - simpl. by rewrite app_nil_r.
  - replace (3 * length (t :: rest)) with (S (S (S (3 * length rest))))
      by (simpl; lia).
    cbn [pool_steps].
    assert (H1 : forall c,
      pool_step bucket 1 c
        {| queue := t :: rest; running := []; finished := f; store := st |} =
      {| queue := rest; running := [(t, Lookup)]; finished := f; store := st |}).
    { intros c. unfold pool_step, enabled, can_start. simpl.
      by rewrite ?Nat.mod_1_r. }
    assert (H2 : forall c ph,
      pool_step bucket 1 c
        {| queue := rest; running := [(t, ph)]; finished := f; store := st |} =
      advance bucket 0
        {| queue := rest; running := [(t, ph)]; finished := f; store := st |}).
    { intros c ph. unfold pool_step, enabled, can_start. simpl.
      by rewrite ?Nat.mod_1_r. }
    rewrite H1, H2. unfold advance. simpl. rewrite H2.
    unfold advance. simpl.
    unfold upload_file_upload.
    destruct (finish_upload st bucket (task_key t) (task_member t) _)
      as [st1 file_upload].
    rewrite IH.
    destruct (run_synchronous bucket st1 rest) as [st2 dones]. simpl.
    by rewrite <- app_assoc.
Qed.

Lemma run_thread_pool_one_worker (bucket : string) (sch : nat -> nat)
    (st : Storage) (tasks : list Task) :
  run_thread_pool bucket 1 sch st tasks = run_synchronous bucket st tasks.
Proof.
  unfold run_thread_pool. rewrite pool_steps_one_worker. simpl.
  by destruct (run_synchronous bucket st tasks).
Qed.


(** The calls not yet finished, and the keys of all of them. *)
Definition pending (p : Pool) : list Task := queue p ++ map fst (running p).

Definition pool_keys (p : Pool) : list string :=
  map task_key (pending p) ++ map fst (finished p).

(** A finished call that made a [FileUpload] made it for its own key. *)
Definition own_key (d : Done) : Prop :=
  match snd d with
  | Ok (Some file_upload) => key file_upload = fst d
  | _ => True
  end.

Lemma finish_upload_own_key (st : Storage) (bucket key_name : string)
    (m : FileMember) (found : bool) :
  own_key (key_name, snd (finish_upload st bucket key_name m found)).
Proof.
  unfold finish_upload, own_key. destruct found; [done|].
  by destruct (objects st !! _) as [[]|].
Qed.

(** No move loses or repeats a call. *)
Lemma pool_move_keys (bucket : string) (p p' : Pool) :
  pool_move bucket p p' ->
  pool_keys p' ≡ₚ pool_keys p /\
  (Forall own_key (finished p) -> Forall own_key (finished p')).
Proof.
  unfold pool_keys, pending.
  destruct 1; simpl; rewrite ?map_app; simpl; rewrite ?map_app; simpl.
  - split; [|done].
    rewrite <- !app_assoc. simpl. rewrite <- !Permutation_middle.
    reflexivity.
  - done.
  - split.
    { rewrite <- !app_assoc. simpl. rewrite <- !Permutation_middle.
      by rewrite app_nil_r. }
    intros H. apply Forall_app. split; [done|].
    constructor; [|done]. apply finish_upload_own_key.
Qed.

(** Both executors complete every submitted call once. *)
Lemma run_thread_pool_keys (bucket : string) (workers : nat)
    (sch : nat -> nat) (st : Storage) (tasks : list Task) :
  1 <= workers ->
  map fst (snd (run_thread_pool bucket workers sch st tasks))
    ≡ₚ map task_key tasks /\
  Forall own_key (snd (run_thread_pool bucket workers sch st tasks)).
Proof.
  intros Hw. unfold run_thread_pool.
  set (p0 := {| queue := tasks; running := []; finished := []; store := st |}).
  assert (H : pool_keys (pool_steps bucket workers sch 0 (3 * length tasks) p0)
                ≡ₚ pool_keys p0 /\
              Forall own_key
                (finished (pool_steps bucket workers sch 0 (3 * length tasks) p0))).
  { apply (pool_steps_keep
             (fun p => pool_keys p ≡ₚ pool_keys p0 /\ Forall own_key (finished p))).
    - intros p p' [Hk Hf] Hm. destruct (pool_move_keys _ _ _ Hm) as [Hk' Hf'].
      split; [by rewrite Hk' | auto].
    - split; [done | constructor]. }
  destruct (run_thread_pool_finishes bucket workers sch st tasks Hw) as [Hq Hr].
  fold p0 in Hq, Hr. destruct H as [Hk Hf]. simpl. split; [|done].
  unfold pool_keys, pending in Hk. rewrite Hq, Hr in Hk. simpl in Hk.
  rewrite Hk. unfold p0. simpl. rewrite !app_nil_r. reflexivity.
Qed.


(** ** The outcome of a batch *)

(** The rule that puts a member aside, in the words of the specification:
    its name ends with -symbols.txt whatever the case, or its base name is
    one of the ignorable file names. *)
Definition ignorable (name : string) : Prop :=
  Py.endswith (Py.lower name) "-symbols.txt" = true \/
  In (Py.basename name) _ignorable_filenames.

Lemma _ignore_member_file_spec (name : string) :
  _ignore_member_file name = true <-> ignorable name.
Proof.
  clear lookup_times_out.
  clear schedule fnmatch cpu_count bucket_prefix bucket_name bucket_exists.
  unfold _ignore_member_file, ignorable.
  destruct (Py.endswith _ _); [tauto|].
  rewrite <- str_in_spec. destruct (str_in _ _); intuition congruence.
Qed.

Definition ignored_member (m : FileMember) : bool :=
  _ignore_member_file (member_name m).

Lemma ignored_names_spec (file_listing : list FileMember) :
  ignored_names file_listing =
  map member_name (List.filter ignored_member file_listing).
Proof.
  unfold ignored_member.
  induction file_listing as [|m rest IH]; simpl; [done|].
  destruct (_ignore_member_file _); simpl; by rewrite IH.
Qed.

Lemma submitted_spec (prefix : string) (file_listing : list FileMember) :
  submitted prefix file_listing =
  map (fun m => {| task_key := Py.path_join prefix (member_name m);
                   task_member := m |})
      (List.filter (fun m => negb (ignored_member m)) file_listing).
Proof.
  unfold ignored_member.
  induction file_listing as [|m rest IH]; simpl; [done|].
  destruct (_ignore_member_file _); simpl; by rewrite IH.
Qed.

Lemma filter_lengths {A : Type} (f : A -> bool) (l : list A) :
  length (List.filter f l) + length (List.filter (fun x => negb (f x)) l) =
  length l.
Proof.
  induction l as [|x l IH]; simpl; [done|].
  destruct (f x); simpl; lia.
Qed.

(** No future has an exception exactly when [result()] raises for
    none. *)
Definition answered (d : Done) : Prop :=
  match snd d with
  | Ok _ => True
  | Raise _ => False
  end.

Lemma first_failure_none (dones : list Done) :
  first_failure dones = None <-> Forall answered dones.
Proof.
  induction dones as [|[k [r|e]] rest IH]; simpl.
  - split; [constructor | done].
  - rewrite IH. split; [by constructor | by inversion 1].
  - split; [done | by inversion 1].
Qed.

Lemma first_failure_some (dones : list Done) (e : exn) :
  first_failure dones = Some e -> exists k, In (k, Raise e) dones.
Proof.
  induction dones as [|[k [r|e']] rest IH]; simpl; [done| |].
  - intros H. destruct (IH H) as [k' ?]. eauto.
  - intros [= ->]. eauto.
Qed.

(** Each call that was answered counts once, as created or as skipped. *)
Lemma dones_counted_once (dones : list Done) :
  Forall own_key dones -> first_failure dones = None ->
  skipped_of dones ++ map key (created_of dones) ≡ₚ map fst dones.
Proof.
  induction 1 as [|[k [[file_upload|]|e]] rest Hk Hrest IH]; simpl.
  - done.
  - intros Hf. unfold own_key in Hk. simpl in Hk. rewrite Hk.
    rewrite <- Permutation_middle. by rewrite IH.
  - intros Hf. by rewrite IH.
  - done.
Qed.

Lemma created_skipped_length (dones : list Done) :
  first_failure dones = None ->
  length (skipped_of dones) + length (created_of dones) = length dones.
Proof.
  induction dones as [|[k [[file_upload|]|e]] rest IH]; simpl; try done;
    intros Hf; specialize (IH Hf); lia.
Qed.

(** The order of the futures does not change what they add up to. *)
Lemma skipped_of_perm (l l' : list Done) :
  l ≡ₚ l' -> skipped_of l ≡ₚ skipped_of l'.
Proof.
  induction 1 as [|d l l' _ IH|d d' l|l l' l'' _ IH1 _ IH2].
  - done.
  - destruct d as [k [[fu|]|e]]; simpl; rewrite ?IH; reflexivity.
  - destruct d as [k [[fu|]|e]], d' as [k' [[fu'|]|e']]; simpl;
      try reflexivity; apply perm_swap.
  - by etrans.
Qed.

Lemma created_of_perm (l l' : list Done) :
  l ≡ₚ l' -> created_of l ≡ₚ created_of l'.
Proof.
  induction 1 as [|d l l' _ IH|d d' l|l l' l'' _ IH1 _ IH2].
  - done.
  - destruct d as [k [[fu|]|e]]; simpl; rewrite ?IH; reflexivity.
  - destruct d as [k [[fu|]|e]], d' as [k' [[fu'|]|e']]; simpl;
      try reflexivity; apply perm_swap.
  - by etrans.
Qed.

Lemma first_failure_perm (l l' : list Done) :
  l ≡ₚ l' -> first_failure l = None -> first_failure l' = None.
Proof.
  intros Hp. rewrite !first_failure_none. by rewrite Hp.
Qed.

(** [as_completed] gives every future once. *)
Lemma arrange_perm (fuel clock : nat) (futures : list Done) :
  length futures = fuel -> arrange clock fuel futures ≡ₚ futures.
Proof.
  revert clock futures.
  induction fuel as [|fuel IH]; intros clock futures Hl; simpl.
  - by destruct futures.
  - assert (Hi : completion_order clock mod length futures < length futures).
    { apply Nat.mod_upper_bound. lia. }
    apply lookup_lt_is_Some in Hi as [d Hd]. rewrite Hd.
    rewrite IH.
    + by rewrite <- delete_Permutation.
    + rewrite length_delete by eauto. lia.
Qed.

Lemma as_completed_perm (futures : list Done) :
  as_completed futures ≡ₚ futures.
Proof. by apply arrange_perm. Qed.

Lemma max_workers_positive : 1 <= max_workers.
Proof. unfold max_workers. destruct (UPLOAD_FILE_UPLOAD_MAX_WORKERS _); lia. Qed.

(** Whichever executor is configured, every submitted call completes
    once. *)
Lemma run_executor_keys (bucket : string) (st : Storage) (tasks : list Task) :
  map fst (snd (run_executor bucket st tasks)) ≡ₚ map task_key tasks /\
  Forall own_key (snd (run_executor bucket st tasks)).
Proof.
  unfold run_executor. destruct (SYNCHRONOUS_UPLOAD_FILE_UPLOAD settings).
  - rewrite <- (run_thread_pool_one_worker bucket (fun _ => 0)).
    by apply run_thread_pool_keys.
  - apply run_thread_pool_keys, max_workers_positive.
Qed.

(** ** The keys of a validated archive are distinct *)

Fixpoint count_slashes (s : string) : nat :=
  match s with
  | EmptyString => 0
  | String c s' => (if Ascii.eqb c "/" then 1 else 0) + count_slashes s'
  end.

Lemma split_length (s : string) :
  length (Py.split "/" s) = S (count_slashes s).
Proof.
  induction s as [|c s IH]; simpl; [done|].
  destruct (Ascii.eqb c "/"); simpl; [by rewrite IH|].
  destruct (Py.split "/" s); simpl in *; lia.
Qed.

Lemma count_slashes_app (a b : string) :
  count_slashes (a ++ b) = count_slashes a + count_slashes b.
Proof.
  induction a as [|c a IH]; [done|].
  rewrite append_cons. simpl. rewrite IH. lia.
Qed.

Lemma append_cancel (a b c : string) : (a ++ b = a ++ c)%string -> b = c.
Proof.
  induction a as [|x a IH]; [done|]. rewrite !append_cons. intros [= H]. auto.
Qed.

(** What [os.path.join] puts before a relative name. *)
Definition joined_prefix (a : string) : string :=
  if String.eqb a "" || Py.endswith a "/" then a else (a ++ "/")%string.

Lemma path_join_relative (a b : string) :
  Py.startswith b "/" = false ->
  Py.path_join a b = (joined_prefix a ++ b)%string.
Proof.
  intros H. unfold Py.path_join, joined_prefix. rewrite H.
  destruct (_ || _); [done|]. by rewrite append_assoc.
Qed.

Lemma path_join_absolute (a b : string) :
  Py.startswith b "/" = true -> Py.path_join a b = b.
Proof. intros H. unfold Py.path_join. by rewrite H. Qed.

Lemma startswith_slash (s : string) :
  Py.startswith s "/" = true <-> exists rest, s = String "/" rest.
Proof.
  unfold Py.startswith. destruct s as [|c s].
  - split; [done | by intros [? ?]].
  - change (String.prefix "/" (String c s))
      with (if ascii_dec "/" c then String.prefix "" s else false).
    destruct (ascii_dec "/" c) as [<-|Hne].
    + split; [eauto | intros _; by destruct s].
    + split; [done|]. intros [rest [= -> _]]. done.
Qed.

(** Names of three segments are joined to different keys. *)
Lemma path_join_injective (prefix n1 n2 : string) :
  count_slashes n1 = 2 -> count_slashes n2 = 2 ->
  Py.path_join prefix n1 = Py.path_join prefix n2 -> n1 = n2.
Proof.
  intros H1 H2.
  assert (Hmixed : forall a r,
            count_slashes a = 2 -> count_slashes r = 2 ->
            Py.startswith a "/" = true -> Py.startswith r "/" = false ->
            a <> (joined_prefix prefix ++ r)%string).
  { intros a r Ha Hr Habs Hrel E.
    assert (Hc : count_slashes (joined_prefix prefix) = 0).
    { rewrite E, count_slashes_app in Ha. lia. }
    apply startswith_slash in Habs as [rest ->].
    destruct (joined_prefix prefix) as [|c P].
    - rewrite append_nil in E. subst r.
      assert (Py.startswith (String "/" rest) "/" = true)
        by (apply startswith_slash; eauto).
      congruence.
    - rewrite append_cons in E. injection E as <- _. simpl in Hc. lia. }
  destruct (Py.startswith n1 "/") eqn:E1, (Py.startswith n2 "/") eqn:E2.
  - by rewrite (path_join_absolute prefix n1), (path_join_absolute prefix n2).
  - rewrite (path_join_absolute prefix n1), (path_join_relative prefix n2)
      by done.
    intros E. by apply Hmixed in E.
  - rewrite (path_join_absolute prefix n2), (path_join_relative prefix n1)
      by done.
    intros E. symmetry in E. by apply Hmixed in E.
  - rewrite (path_join_relative prefix n1), (path_join_relative prefix n2)
      by done.
    apply append_cancel.
Qed.

(** A member that passed validation and is not put aside has a name of
    three segments. *)
Lemma submitted_name_segments (m : FileMember) :
  check_file_listing m = Continue ->
  _ignore_member_file (member_name m) = false ->
  count_slashes (member_name m) = 2.
Proof.
  intros Hc Hi. apply check_file_listing_continue in Hc as [_ Hr].
  assert (Hni : ~ ignorable (member_name m)).
  { rewrite <- _ignore_member_file_spec. congruence. }
  destruct Hr as [a h f Hs _ _ _|_ He|Hl].
  - pose proof (split_length (member_name m)) as Hlen.
    rewrite Hs in Hlen. simpl in Hlen. lia.
  - destruct Hni. by left.
  - destruct Hni. by right.
Qed.

Lemma validated_members (file_listings : list FileMember) :
  check_symbols_archive_file_listing file_listings = None ->
  forall m, In m file_listings -> check_file_listing m = Continue.
Proof.
  induction file_listings as [|x rest IH]; simpl; [by intros _ ? []|].
  destruct (check_file_listing x) eqn:E; [|done].
  intros H m [<-|Hm]; auto.
Qed.

(** The keys submitted for an extracted and validated listing. *)
Lemma submitted_keys_distinct (prefix : string) (file_listing : list FileMember) :
  NoDup (map member_name file_listing) ->
  check_symbols_archive_file_listing file_listing = None ->
  NoDup (map task_key (submitted prefix file_listing)).
Proof.
  intros Hnd Hv. pose proof (validated_members _ Hv) as Hall. clear Hv.
  induction file_listing as [|m rest IH]; simpl; [constructor|].
  simpl in Hnd. apply NoDup_cons in Hnd as [Hnot Hnd].
  assert (IH' : NoDup (map task_key (submitted prefix rest))).
  { apply IH; [done|]. intros x ?. apply Hall. by right. }
  destruct (_ignore_member_file (member_name m)) eqn:Hi; [done|].
  simpl. apply NoDup_cons. split; [|done].
  rewrite list_elem_of_In, in_map_iff. intros (t & E & Ht).
  rewrite submitted_spec in Ht. apply in_map_iff in Ht as (m' & <- & Hm').
  apply filter_In in Hm' as [Hm' Hi']. simpl in E.
  apply negb_true_iff in Hi'. unfold ignored_member in Hi'.
  apply path_join_injective in E.
  - apply Hnot. rewrite list_elem_of_In, in_map_iff. eauto.
  - apply submitted_name_segments; [|done]. apply Hall. by right.
  - apply submitted_name_segments; [|done]. apply Hall. by left.
Qed.


(** ** Runs of the executors *)

(** The runs the view can make: the synchronous executor, or a pool of at
    least one worker under any scheduler. *)
Inductive executes (bucket : string) (st : Storage) (tasks : list Task)
  : Storage * list Done -> Prop :=
| executes_synchronous :
    executes bucket st tasks (run_synchronous bucket st tasks)
| executes_thread_pool workers sch :
    1 <= workers ->
    executes bucket st tasks (run_thread_pool bucket workers sch st tasks).

Lemma executes_as_pool (bucket : string) (st : Storage) (tasks : list Task)
    (r : Storage * list Done) :
  executes bucket st tasks r ->
  exists workers sch,
    1 <= workers /\ r = run_thread_pool bucket workers sch st tasks.
Proof.
  destruct 1 as [|workers sch Hw].
  - exists 1, (fun _ => 0). split; [lia|].
    by rewrite run_thread_pool_one_worker.
  - eauto.
Qed.

Lemma run_executor_executes (bucket : string) (st : Storage)
    (tasks : list Task) :
  executes bucket st tasks (run_executor bucket st tasks).
Proof.
  unfold run_executor. destruct (SYNCHRONOUS_UPLOAD_FILE_UPLOAD settings).
  - constructor.
  - constructor. apply max_workers_positive.
Qed.

(** The object for the call is there, with the member's size. *)
Definition has_size (bucket : string) (st : Storage) (t : Task) : Prop :=
  objects st !! (bucket, task_key t) =
  Some (Object (member_size (task_member t))).

(** No object is there for the call. *)
Definition absent (bucket : string) (st : Storage) (t : Task) : Prop :=
  objects st !! (bucket, task_key t) = None.

(** The existence check of the call is answered in time. *)
Definition in_time (bucket : string) (t : Task) : Prop :=
  lookup_times_out bucket (task_key t) = false.

Lemma exists_with_size_true (bucket : string) (st : Storage) (t : Task) :
  exists_with_size st bucket (task_key t) (member_size (task_member t)) = true
  <-> in_time bucket t /\ has_size bucket st t.
Proof.
  unfold exists_with_size, has_size, in_time.
  destruct (lookup_times_out _ _); [split; [done | by intros [? _]]|].
  destruct (objects st !! _) as [[sz|msg]|];
    try (split; [done | by intros [_ ?]]).
  rewrite N.eqb_eq. split; [by intros -> | by intros [_ [= ->]]].
Qed.

Lemma exists_with_size_absent (bucket : string) (st : Storage) (t : Task) :
  absent bucket st t ->
  exists_with_size st bucket (task_key t) (member_size (task_member t)) = false.
Proof.
  unfold exists_with_size, absent. intros ->.
  by destruct (lookup_times_out _ _).
Qed.

(** A run on a bucket that has every object with its size, with every
    existence check answered in time, writes nothing and makes no
    [FileUpload]. *)
Lemma pool_move_all_present (bucket : string) (st : Storage) (p p' : Pool) :
  pool_move bucket p p' ->
  store p = st /\
  Forall (fun t => in_time bucket t /\ has_size bucket st t) (pending p) /\
  Forall (fun tp => snd tp <> Decided false) (running p) /\
  Forall (fun d : Done => snd d = Ok None) (finished p) ->
  store p' = st /\
  Forall (fun t => in_time bucket t /\ has_size bucket st t) (pending p') /\
  Forall (fun tp => snd tp <> Decided false) (running p') /\
  Forall (fun d : Done => snd d = Ok None) (finished p').
Proof.
  unfold pending.
  destruct 1 as [t rest r f s|q before t after f s|q before t found after f s];
    simpl; rewrite ?map_app; simpl; rewrite ?Forall_app, ?Forall_cons, ?Forall_nil;
    simpl; rewrite ?Forall_app, ?Forall_cons, ?Forall_nil;
    intros (-> & Hp & Hr & Hf).
  - destruct Hp as ((? & ?) & ? & ?). repeat split; done.
  - destruct Hp as (? & ? & Ht & ?), Hr as (? & _ & ?). pose proof Ht as [? ?].
    apply exists_with_size_true in Ht as Ht'. rewrite Ht'.
    repeat split; done.
  - destruct Hp as (? & ? & ? & ?), Hr as (? & Hfound & ?).
    assert (found = true) as -> by (by destruct found).
    simpl. repeat split; done.
Qed.

Lemma run_thread_pool_all_present (bucket : string) (workers : nat)
    (sch : nat -> nat) (st : Storage) (tasks : list Task) :
  Forall (fun t => in_time bucket t /\ has_size bucket st t) tasks ->
  fst (run_thread_pool bucket workers sch st tasks) = st /\
  Forall (fun d : Done => snd d = Ok None)
         (snd (run_thread_pool bucket workers sch st tasks)).
Proof.
  intros Hall. unfold run_thread_pool. simpl.
  set (I := fun p : Pool =>
    store p = st /\
    Forall (fun t => in_time bucket t /\ has_size bucket st t) (pending p) /\
    Forall (fun tp => snd tp <> Decided false) (running p) /\
    Forall (fun d : Done => snd d = Ok None) (finished p)).
  assert (H : I (pool_steps bucket workers sch 0 (3 * length tasks)
                   {| queue := tasks; running := []; finished := [];
                      store := st |})).
  { apply (pool_steps_keep I).
    - intros p p' Hp Hm. by apply (pool_move_all_present bucket st p p').
    - unfold I, pending. simpl. rewrite app_nil_r. auto. }
  destruct H as (? & _ & _ & ?). done.
Qed.


Lemma absent_put_other (bucket : string) (st : Storage) (t t' : Task) :
  task_key t' <> task_key t ->
  absent bucket st t' ->
  absent bucket
    (put_object st bucket (task_key t) (member_size (task_member t))) t'.
Proof.
  unfold absent, put_object. simpl. intros Hne H.
  rewrite lookup_insert_ne; [done | congruence].
Qed.

(** A run on a bucket that has none of the objects, for calls with
    distinct keys, makes a [FileUpload] for every call, however the steps
    of the workers interleave. *)
Lemma pool_move_all_absent (bucket : string) (p p' : Pool) :
  pool_move bucket p p' ->
  NoDup (map task_key (pending p)) /\
  Forall (absent bucket (store p)) (pending p) /\
  Forall (fun tp => snd tp <> Decided true) (running p) /\
  Forall (fun d : Done => exists file_upload, snd d = Ok (Some file_upload))
         (finished p) ->
  NoDup (map task_key (pending p')) /\
  Forall (absent bucket (store p')) (pending p') /\
  Forall (fun tp => snd tp <> Decided true) (running p') /\
  Forall (fun d : Done => exists file_upload, snd d = Ok (Some file_upload))
         (finished p').
Proof.
  unfold pending.
  destruct 1 as [t rest r f s|q before t after f s|q before t found after f s];
    simpl; rewrite ?map_app; simpl; rewrite ?map_app; simpl.
  - intros (Hnd & Hp & Hr & Hf).
    repeat split.
    + rewrite app_assoc, <- Permutation_cons_append. done.
    + rewrite app_assoc, <- Permutation_cons_append. done.
    + apply Forall_app. split; [done|]. by repeat constructor.
    + done.
  - intros (Hnd & Hp & Hr & Hf).
    assert (Ht : absent bucket s t).
    { rewrite !Forall_app, Forall_cons in Hp. by destruct Hp as (_ & _ & ? & _). }
    rewrite (exists_with_size_absent _ _ _ Ht).
    repeat split; try done.
    rewrite Forall_app, Forall_cons in *. simpl.
    destruct Hr as (? & _ & ?). auto.
  - intros (Hnd & Hp & Hr & Hf).
    assert (found = false) as ->.
    { rewrite Forall_app, Forall_cons in Hr. simpl in Hr.
      destruct Hr as (_ & ? & _). by destruct found. }
    assert (Ht : objects s !! (bucket, task_key t) = None).
    { rewrite !Forall_app, Forall_cons in Hp. by destruct Hp as (_ & _ & ? & _). }
    unfold finish_upload. rewrite Ht. simpl.
    rewrite <- !Permutation_middle in Hnd, Hp.
    apply NoDup_cons in Hnd as [Hnot Hnd].
    rewrite Forall_cons in Hp. destruct Hp as [_ Hp].
    repeat split.
    + done.
    + rewrite Forall_forall in *. intros t' Ht'.
      apply absent_put_other; [|by apply Hp].
      intros E. apply Hnot. rewrite <- E.
      assert (Hin : In (task_key t')
                (map task_key (q ++ map fst before ++ map fst after))).
      { apply in_map, list_elem_of_In, Ht'. }
      rewrite !map_app in Hin. by apply list_elem_of_In.
    + rewrite Forall_app, Forall_cons in *. destruct Hr as (? & _ & ?). auto.
    + apply Forall_app. split; [done|].
      constructor; [simpl; eauto | constructor].
Qed.

Lemma run_thread_pool_all_absent (bucket : string) (workers : nat)
    (sch : nat -> nat) (st : Storage) (tasks : list Task) :
  NoDup (map task_key tasks) ->
  Forall (absent bucket st) tasks ->
  Forall (fun d : Done => exists file_upload, snd d = Ok (Some file_upload))
         (snd (run_thread_pool bucket workers sch st tasks)).
Proof.
  intros Hnd Hall. unfold run_thread_pool. simpl.
  set (I := fun p : Pool =>
    NoDup (map task_key (pending p)) /\
    Forall (absent bucket (store p)) (pending p) /\
    Forall (fun tp => snd tp <> Decided true) (running p) /\
    Forall (fun d : Done => exists file_upload, snd d = Ok (Some file_upload))
           (finished p)).
  assert (H : I (pool_steps bucket workers sch 0 (3 * length tasks)
                   {| queue := tasks; running := []; finished := [];
                      store := st |})).
  { apply (pool_steps_keep I).
    - intros p p' Hp Hm. by apply (pool_move_all_absent bucket p p').
    - unfold I, pending. simpl. rewrite app_nil_r. auto. }
  destruct H as (_ & _ & _ & ?). done.
Qed.


(** Calls for the same key are for members of the same size. *)
Definition keys_determine_sizes (tasks : list Task) : Prop :=
  forall t t', In t tasks -> In t' tasks -> task_key t = task_key t' ->
               member_size (task_member t) = member_size (task_member t').

Lemma distinct_keys_determine_sizes (tasks : list Task) :
  NoDup (map task_key tasks) -> keys_determine_sizes tasks.
Proof.
  intros Hnd t t' Ht Ht' E.
  enough (t = t') by congruence.
  induction tasks as [|x rest IH]; [done|].
  simpl in Hnd. apply NoDup_cons in Hnd as [Hnot Hnd].
  rewrite list_elem_of_In, in_map_iff in Hnot.
  destruct Ht as [<-|Ht], Ht' as [<-|Ht']; auto.
  - destruct Hnot. eauto.
  - destruct Hnot. eauto.
Qed.

Lemma has_size_put (bucket : string) (st : Storage) (tasks : list Task)
    (t t' : Task) :
  keys_determine_sizes tasks -> In t tasks -> In t' tasks ->
  has_size bucket st t' ->
  has_size bucket
    (put_object st bucket (task_key t) (member_size (task_member t))) t'.
Proof.
  unfold has_size, put_object. simpl. intros Hk Ht Ht' H.
  destruct (decide (task_key t = task_key t')) as [E|Hne].
  - rewrite E, lookup_insert_eq. do 2 f_equal. by apply Hk.
  - rewrite lookup_insert_ne; [done | congruence].
Qed.

Lemma has_size_put_same (bucket : string) (st : Storage) (t : Task) :
  has_size bucket
    (put_object st bucket (task_key t) (member_size (task_member t))) t.
Proof. unfold has_size, put_object. simpl. apply lookup_insert_eq. Qed.

(** A call that is finished has left the object with the member's size, or
    has raised. *)
Definition settled (bucket : string) (p : Pool) (t : Task) : Prop :=
  has_size bucket (store p) t \/
  exists e, In (task_key t, Raise e) (finished p).

(** After a run the bucket has the object of every call that did not
    raise, with its size. *)
Lemma pool_move_leaves_sizes (bucket : string) (tasks : list Task)
    (p p' : Pool) :
  keys_determine_sizes tasks ->
  pool_move bucket p p' ->
  Forall (fun t => In t tasks) (pending p) /\
  Forall (fun tp => snd tp = Decided true -> has_size bucket (store p) (fst tp))
         (running p) /\
  (forall t, In t tasks -> In t (pending p) \/ settled bucket p t) ->
  Forall (fun t => In t tasks) (pending p') /\
  Forall (fun tp => snd tp = Decided true -> has_size bucket (store p') (fst tp))
         (running p') /\
  (forall t, In t tasks -> In t (pending p') \/ settled bucket p' t).
Proof.
  intros Hk. unfold pending, settled.
  destruct 1 as [t rest r f s|q before t after f s|q before t found after f s];
    simpl; rewrite ?map_app; simpl; intros (Hp & Hr & Hall).
  - repeat split.
    + rewrite app_assoc, <- Permutation_cons_append. done.
    + apply Forall_app. split; [done|]. by repeat constructor.
    + intros x Hx. destruct (Hall x Hx) as [Hin|?]; [left|by right].
      simpl in Hin. rewrite !in_app_iff in *. simpl.
      destruct Hin as [<-|[?|?]]; auto.
  - repeat split.
    + done.
    + rewrite Forall_app, Forall_cons in *. simpl.
      destruct Hr as (? & _ & ?). repeat split; try done.
      intros [= E]. by apply exists_with_size_true in E as [_ ?].
    + done.
  - assert (Ht : In t tasks).
    { rewrite !Forall_app, Forall_cons in Hp. by destruct Hp as (_ & _ & ? & _). }
    assert (Hpend : Forall (fun t => In t tasks)
                      (q ++ map fst before ++ map fst after)).
    { rewrite !Forall_app, Forall_cons in Hp.
      destruct Hp as (? & ? & _ & ?). rewrite !Forall_app. auto. }
    assert (Hkeep : forall t', In t' tasks -> has_size bucket s t' ->
              has_size bucket
                (fst (finish_upload s bucket (task_key t) (task_member t) found))
                t').
    { intros t' Ht' H. unfold finish_upload. destruct found; [done|].
      destruct (objects s !! (bucket, task_key t)) as [[sz|msg]|];
        simpl; first [by eapply has_size_put | done]. }
    assert (Hself :
      has_size bucket
        (fst (finish_upload s bucket (task_key t) (task_member t) found)) t
      \/ exists e,
           snd (finish_upload s bucket (task_key t) (task_member t) found) =
           Raise e).
    { unfold finish_upload. destruct found; simpl.
      - left. rewrite Forall_app, Forall_cons in Hr. simpl in Hr.
        destruct Hr as (_ & Ht' & _). auto.
      - destruct (objects s !! (bucket, task_key t)) as [[sz|msg]|]; simpl;
          first [left; apply has_size_put_same | right; eauto]. }
    repeat split.
    + done.
    + rewrite Forall_app, Forall_cons in Hr. destruct Hr as (Hb & _ & Ha).
      apply Forall_app. split.
      * rewrite Forall_forall in *. intros [t' ph'] Hin E. simpl in *.
        apply Hkeep; [|by apply (Hb _ Hin)].
        rewrite !Forall_app in Hpend. destruct Hpend as (_ & Hpb & _).
        rewrite Forall_forall in Hpb. apply Hpb.
        apply list_elem_of_In, (in_map fst _ (t', ph')), list_elem_of_In, Hin.
      * rewrite Forall_forall in *. intros [t' ph'] Hin E. simpl in *.
        apply Hkeep; [|by apply (Ha _ Hin)].
        rewrite !Forall_app in Hpend. destruct Hpend as (_ & _ & Hpa).
        rewrite Forall_forall in Hpa. apply Hpa.
        apply list_elem_of_In, (in_map fst _ (t', ph')), list_elem_of_In, Hin.
    + intros x Hx. destruct (Hall x Hx) as [Hin|[Hs|[e He]]].
      * rewrite !in_app_iff in Hin. simpl in Hin. rewrite !in_app_iff.
        destruct Hin as [?|[?|[<-|?]]]; auto.
        right. destruct Hself as [?|[e He]]; [by left|right].
        exists e. rewrite in_app_iff. right. left. by rewrite He.
      * right. left. by apply Hkeep.
      * right. right. exists e. rewrite in_app_iff. by left.
Qed.

Lemma run_thread_pool_leaves_sizes (bucket : string) (workers : nat)
    (sch : nat -> nat) (st : Storage) (tasks : list Task) :
  1 <= workers ->
  keys_determine_sizes tasks ->
  first_failure (snd (run_thread_pool bucket workers sch st tasks)) = None ->
  Forall (has_size bucket (fst (run_thread_pool bucket workers sch st tasks)))
         tasks.
Proof.
  intros Hw Hk. unfold run_thread_pool. simpl. intros Hnone.
  set (I := fun p : Pool =>
    Forall (fun t => In t tasks) (pending p) /\
    Forall (fun tp => snd tp = Decided true -> has_size bucket (store p) (fst tp))
           (running p) /\
    (forall t, In t tasks -> In t (pending p) \/ settled bucket p t)).
  assert (H : I (pool_steps bucket workers sch 0 (3 * length tasks)
                   {| queue := tasks; running := []; finished := [];
                      store := st |})).
  { apply (pool_steps_keep I).
    - intros p p' Hp Hm. by apply (pool_move_leaves_sizes bucket tasks p p').
    - unfold I, pending. simpl. rewrite app_nil_r. repeat split.
      + apply Forall_forall. intros x Hx. by apply list_elem_of_In.
      + constructor.
      + auto. }
  destruct (run_thread_pool_finishes bucket workers sch st tasks Hw) as [Hq Hr].
  destruct H as (_ & _ & H). apply Forall_forall. intros t Ht.
  apply list_elem_of_In in Ht. destruct (H t Ht) as [Hin|[?|[e He]]].
  - unfold pending in Hin. cbv zeta in Hq, Hr. rewrite Hq, Hr in Hin. done.
  - done.
  - apply first_failure_none in Hnone. rewrite Forall_forall in Hnone.
    apply list_elem_of_In in He. by destruct (Hnone _ He).
Qed.


(** The keys [putObject] was called for, in the order of the calls. *)
Fixpoint put_keys (dones : list Done) : list string :=
  match dones with
  | [] => []
  | (_, Ok None) :: rest => put_keys rest
  | (key_name, _) :: rest => key_name :: put_keys rest
  end.

Lemma put_keys_app (l1 l2 : list Done) :
  put_keys (l1 ++ l2) = put_keys l1 ++ put_keys l2.
Proof.
  induction l1 as [|[k [[fu|]|e]] l1 IH]; simpl; by rewrite ?IH.
Qed.

Lemma put_keys_created (dones : list Done) :
  Forall own_key dones -> first_failure dones = None ->
  put_keys dones = map key (created_of dones).
Proof.
  induction 1 as [|[k [[fu|]|e]] rest Hk _ IH]; simpl; try done.
  - intros Hf. unfold own_key in Hk. simpl in Hk. by rewrite Hk, IH.
Qed.

(** The log of the storage collaborator grows by these calls, whatever the
    order of the steps. *)
Lemma pool_move_put_log (bucket : string) (log : list (string * string))
    (p p' : Pool) :
  pool_move bucket p p' ->
  put_log (store p) = log ++ map (pair bucket) (put_keys (finished p)) ->
  put_log (store p') = log ++ map (pair bucket) (put_keys (finished p')).
Proof.
  destruct 1 as [t rest r f s|q before t after f s|q before t found after f s];
    simpl; try done.
  intros H. rewrite put_keys_app, map_app, app_assoc, <- H.
  unfold finish_upload. destruct found; simpl; [by rewrite app_nil_r|].
  by destruct (objects s !! (bucket, task_key t)) as [[sz|msg]|].
Qed.

Lemma run_thread_pool_put_log (bucket : string) (workers : nat)
    (sch : nat -> nat) (st : Storage) (tasks : list Task) :
  put_log (fst (run_thread_pool bucket workers sch st tasks)) =
  put_log st ++
  map (pair bucket) (put_keys (snd (run_thread_pool bucket workers sch st tasks))).
Proof.
  unfold run_thread_pool. simpl.
  apply (pool_steps_keep
           (fun p => put_log (store p) =
                     put_log st ++ map (pair bucket) (put_keys (finished p)))).
  - intros p p' Hp Hm. by apply (pool_move_put_log bucket _ p p').
  - simpl. by rewrite app_nil_r.
Qed.

(** A call raises only for a key that had a fault before the run. *)
Lemma pool_move_faults (bucket : string) (st : Storage) (p p' : Pool) :
  pool_move bucket p p' ->
  (forall k msg, objects (store p) !! (bucket, k) = Some (Fault msg) ->
                 objects st !! (bucket, k) = Some (Fault msg)) /\
  Forall (fun d : Done =>
            forall e, snd d = Raise e ->
              exists msg, e = ClientError msg /\
                          objects st !! (bucket, fst d) = Some (Fault msg))
         (finished p) ->
  (forall k msg, objects (store p') !! (bucket, k) = Some (Fault msg) ->
                 objects st !! (bucket, k) = Some (Fault msg)) /\
  Forall (fun d : Done =>
            forall e, snd d = Raise e ->
              exists msg, e = ClientError msg /\
                          objects st !! (bucket, fst d) = Some (Fault msg))
         (finished p').
Proof.
  destruct 1 as [t rest r f s|q before t after f s|q before t found after f s];
    simpl; try done.
  intros [Hs Hf]. unfold finish_upload. destruct found; simpl.
  - split; [done|]. apply Forall_app. split; [done|].
    constructor; [done | constructor].
  - destruct (objects s !! (bucket, task_key t)) as [[sz|msg]|] eqn:E; simpl.
    + split.
      * intros k msg. destruct (decide (k = task_key t)) as [->|Hne].
        -- by rewrite lookup_insert_eq.
        -- rewrite lookup_insert_ne by congruence. apply Hs.
      * apply Forall_app. split; [done|]. constructor; [done | constructor].
    + split; [done|]. apply Forall_app. split; [done|].
      constructor; [|constructor]. simpl. intros e [= <-]. eauto.
    + split.
      * intros k msg. destruct (decide (k = task_key t)) as [->|Hne].
        -- by rewrite lookup_insert_eq.
        -- rewrite lookup_insert_ne by congruence. apply Hs.
      * apply Forall_app. split; [done|]. constructor; [done | constructor].
Qed.

Lemma run_thread_pool_faults (bucket : string) (workers : nat)
    (sch : nat -> nat) (st : Storage) (tasks : list Task) :
  Forall (fun d : Done =>
            forall e, snd d = Raise e ->
              exists msg, e = ClientError msg /\
                          objects st !! (bucket, fst d) = Some (Fault msg))
         (snd (run_thread_pool bucket workers sch st tasks)).
Proof.
  unfold run_thread_pool. simpl.
  apply (pool_steps_keep
           (fun p =>
              (forall k msg, objects (store p) !! (bucket, k) = Some (Fault msg) ->
                             objects st !! (bucket, k) = Some (Fault msg)) /\
              Forall (fun d : Done =>
                        forall e, snd d = Raise e ->
                          exists msg, e = ClientError msg /\
                            objects st !! (bucket, fst d) = Some (Fault msg))
                     (finished p))).
  - intros p p' Hp Hm. by apply (pool_move_faults bucket st p p').
  - simpl. split; [done | constructor].
Qed.


Lemma all_skipped (dones : list Done) :
  Forall (fun d : Done => snd d = Ok None) dones ->
  created_of dones = [] /\ skipped_of dones = map fst dones /\
  first_failure dones = None /\ put_keys dones = [].
Proof.
  induction 1 as [|[k r] rest Hr _ (IHc & IHs & IHf & IHp)]; [done|].
  simpl in Hr. subst r. simpl. by rewrite IHc, IHs.
Qed.

Lemma all_created (dones : list Done) :
  Forall (fun d : Done => exists file_upload, snd d = Ok (Some file_upload))
         dones ->
  skipped_of dones = [] /\ first_failure dones = None.
Proof.
  induction 1 as [|[k r] rest [file_upload Hr] _ IH]; [done|].
  simpl in Hr. subst r. done.
Qed.

(** The keys of an extracted and validated archive determine the sizes. *)
Lemma archive_keys_distinct (upload_dir name prefix : string)
    (buffer : file_buffer) (file_listing : list FileMember) :
  dump_and_extract upload_dir buffer name = Ok file_listing ->
  check_symbols_archive_file_listing file_listing = None ->
  NoDup (map task_key (submitted prefix file_listing)).
Proof.
  intros He Hv. apply submitted_keys_distinct; [|done].
  by eapply extracted_names_distinct.
Qed.

(** C8: for an archive that was extracted and validated and a bucket that
    has no object, the synchronous executor and a thread pool of any size,
    under any scheduling of its workers, give the same ignored names, the
    same skipped keys (none) and the same created keys, up to order. *)
Theorem concurrency_degree_does_not_matter
    (upload_dir name prefix bucket : string) (buffer : file_buffer)
    (file_listing : list FileMember) (st : Storage) (workers : nat)
    (sch : nat -> nat) :
  dump_and_extract upload_dir buffer name = Ok file_listing ->
  check_symbols_archive_file_listing file_listing = None ->
  (forall key_name, objects st !! (bucket, key_name) = None) ->
  1 < workers ->
  let tasks := submitted prefix file_listing in
  let one := snd (run_synchronous bucket st tasks) in
  let many := snd (run_thread_pool bucket workers sch st tasks) in
  ignored_keys (aggregate file_listing tasks one) =
    ignored_keys (aggregate file_listing tasks many)
  /\ skipped_keys (aggregate file_listing tasks one) ≡ₚ
     skipped_keys (aggregate file_listing tasks many)
  /\ map key (created_of one) ≡ₚ map key (created_of many)
  /\ file_uploads_created (aggregate file_listing tasks one) =
     file_uploads_created (aggregate file_listing tasks many)
  /\ uploaded_symbol_keys (aggregate file_listing tasks one) ≡ₚ
     uploaded_symbol_keys (aggregate file_listing tasks many)
  /\ skipped_keys (aggregate file_listing tasks many) = []
  /\ map key (created_of many) ≡ₚ map task_key tasks.
Proof.
  intros He Hv Hempty Hw tasks one many.
  pose proof (archive_keys_distinct _ _ prefix _ _ He Hv) as Hnd.
  fold tasks in Hnd.
  assert (Habsent : Forall (absent bucket st) tasks).
  { apply Forall_forall. intros t _. apply Hempty. }
  assert (Hrun : forall w s, 1 <= w ->
            let dones := snd (run_thread_pool bucket w s st tasks) in
            skipped_of dones = [] /\
            map key (created_of dones) ≡ₚ map task_key tasks).
  { intros w s Hw1 dones.
    pose proof (run_thread_pool_all_absent bucket w s st tasks Hnd Habsent)
      as Hsome.
    destruct (run_thread_pool_keys bucket w s st tasks Hw1) as [Hkeys Hown].
    fold dones in Hsome, Hkeys, Hown.
    destruct (all_created _ Hsome) as [Hskip Hnone].
    pose proof (dones_counted_once _ Hown Hnone) as Hcount.
    rewrite Hskip in *. simpl in Hcount.
    split; [done|]. by rewrite Hcount. }
  destruct (Hrun 1 (fun _ => 0)) as [Hs1 Hc1]; [lia|].
  rewrite run_thread_pool_one_worker in Hs1, Hc1. fold one in Hs1, Hc1.
  destruct (Hrun workers sch) as [Hs2 Hc2]; [lia|]. fold many in Hs2, Hc2.
  assert (Hcreated : map key (created_of one) ≡ₚ map key (created_of many)).
  { by rewrite Hc1, Hc2. }
  simpl. rewrite Hs1, Hs2. repeat split; try done.
  - rewrite <- (length_map key (created_of one)).
    rewrite <- (length_map key (created_of many)).
    by apply Permutation_length.
  - rewrite <- !(map_map key (fun k => default [] (key_to_symbol_keys tasks !! k))).
    by apply Permutation_map.
Qed.


(** ** More on validation *)

Lemma lstrip_first (c : ascii) (s : string) :
  Py.is_space c = false -> Py.lstrip (String c s) = String c s.
Proof. intros H. simpl. by rewrite H. Qed.

Lemma rstrip_last (s : string) (c : ascii) :
  Py.is_space c = false ->
  Py.rstrip (s ++ String c "") = (s ++ String c "")%string.
Proof.
  intros H. induction s as [|x s IH].
  - rewrite append_nil. simpl. by rewrite H.
  - rewrite append_cons. simpl. rewrite IH.
    destruct (s ++ String c "")%string eqn:E; [|done].
    by destruct s.
Qed.

(** A text that starts and ends with characters that are no white space is
    its own [strip]. *)
Lemma strip_between (c d : ascii) (s : string) :
  Py.is_space c = false -> Py.is_space d = false ->
  Py.strip (String c (s ++ String d "")) = String c (s ++ String d "").
Proof.
  intros Hc Hd. unfold Py.strip. rewrite lstrip_first by done.
  rewrite <- append_cons. by apply rstrip_last.
Qed.

Lemma repr_quoted (s : string) :
  exists q body, Py.repr s = String q (body ++ String q "") /\
                 Py.is_space q = false.
Proof.
  unfold Py.repr.
  destruct (Py.any_char _ s && negb (Py.any_char _ s)); eauto.
Qed.

(** The texts the validator returns are not empty and have no white space
    at either end. *)
Lemma validator_message_stripped (m : FileMember) (msg : string) :
  check_file_listing m = Return msg ->
  msg <> EmptyString /\ Py.strip msg = msg.
Proof.
  intros H. apply check_file_listing_return in H.
  destruct H as [(snippet & _ & -> & _)
                |[(_ & _ & _ & -> & _)|(_ & _ & _ & -> & _)]].
  - split; [done|].
    change (snippet_message snippet)
      with (String "C" ("ontent of archive file contains the snippet " ++
              "'" ++ snippet ++ "' which is not allowe" ++ String "d" "")).
    rewrite <- !append_assoc. by apply strip_between.
  - split; [done|]. unfold invalid_character_message.
    destruct (repr_quoted (member_name m)) as (q & body & -> & Hq).
    change ("Invalid character in filename " ++ String q (body ++ String q ""))%string
      with (String "I" ("nvalid character in filename " ++
                        String q (body ++ String q ""))).
    replace ("nvalid character in filename " ++
             String q (body ++ String q ""))%string
      with (("nvalid character in filename " ++ String q body) ++
            String q "")%string
      by (by rewrite append_assoc, append_cons).
    by apply strip_between.
  - split; [done|].
    change (unrecognized_message (member_name m))
      with (String "U"
              ("nrecognized file pattern. Should only be <module>/<hex>/<file> " ++
               "or <name>-symbols.txt and nothing else. " ++
               "(First unrecognized pattern was " ++ member_name m ++
               String ")" "")).
    rewrite <- !append_assoc. by apply strip_between.
Qed.


(** X1: the verdict on two listings one after the other is the error of
    the first when it has one, and the verdict on the second otherwise. *)
Theorem validation_of_concatenation (l1 l2 : list FileMember) :
  check_symbols_archive_file_listing (l1 ++ l2) =
  match check_symbols_archive_file_listing l1 with
  | Some msg => Some msg
  | None => check_symbols_archive_file_listing l2
  end.
Proof.
  induction l1 as [|m l1 IH]; simpl; [done|].
  by destruct (check_file_listing m).
Qed.

Lemma validator_message (file_listings : list FileMember) (msg : string) :
  check_symbols_archive_file_listing file_listings = Some msg ->
  msg <> EmptyString /\ Py.strip msg = msg.
Proof.
  induction file_listings as [|m rest IH]; simpl; [done|].
  destruct (check_file_listing m) as [|msg'] eqn:E; [done|].
  intros [= ->]. by apply (validator_message_stripped m).
Qed.

(** X2: an error of the validator is never the empty text, which the test
    [if error:] would take for no error, and has no white space at its ends:
    [upload_archive] answers 400 with exactly that text, whatever the form
    fields are, and leaves the world as it was. *)
Theorem policy_violation_is_answered_verbatim (upload_dir : string)
    (request : Request) (world : World) (received : Received) (msg : string) :
  receive upload_dir request = inr received ->
  check_symbols_archive_file_listing (received_listing received) = Some msg ->
  msg <> EmptyString /\
  upload_archive upload_dir request world = (Ok (JsonError 400 msg), world).
Proof.
  intros Hr Hc. destruct (validator_message _ _ Hc) as [Hne Hs].
  split; [done|]. unfold upload_archive. by rewrite Hr, Hc, Hs.
Qed.

Lemma submitted_members (prefix : string) (file_listing : list FileMember)
    (t : Task) :
  In t (submitted prefix file_listing) ->
  In (task_member t) file_listing /\
  _ignore_member_file (member_name (task_member t)) = false /\
  task_key t = Py.path_join prefix (member_name (task_member t)).
Proof.
  rewrite submitted_spec, in_map_iff. intros (m & <- & Hm).
  apply filter_In in Hm as [Hm Hi]. apply negb_true_iff in Hi. done.
Qed.

Lemma key_to_symbol_keys_fold (tasks : list Task)
    (m : gmap string (list string)) (k : string) :
  ~ In k (map task_key tasks) ->
  fold_left (fun m t => <[task_key t := symbol_key (task_member t)]> m) tasks m
    !! k = m !! k.
Proof.
  clear lookup_times_out.
  clear schedule fnmatch cpu_count bucket_prefix bucket_name bucket_exists.
  revert m. induction tasks as [|t rest IH]; intros m Hk; simpl; [done|].
  simpl in Hk. rewrite IH by tauto.
  rewrite lookup_insert_ne; [done|]. intros E. apply Hk. by left.
Qed.

Lemma key_to_symbol_keys_lookup (tasks : list Task) (t : Task) :
  NoDup (map task_key tasks) -> In t tasks ->
  key_to_symbol_keys tasks !! task_key t = Some (symbol_key (task_member t)).
Proof.
  unfold key_to_symbol_keys. generalize (∅ : gmap string (list string)).
  induction tasks as [|x rest IH]; intros m Hnd Ht; [done|].
  simpl in Hnd. apply NoDup_cons in Hnd as [Hnot Hnd].
  destruct Ht as [->|Ht]; simpl.
  - rewrite key_to_symbol_keys_fold.
    + apply lookup_insert_eq.
    + by rewrite <- list_elem_of_In.
  - by apply IH.
Qed.

(** X3: in a listing that passed validation, every member that is
    submitted has a name of three segments, a module, a run of hexadecimal
    digits and a file, with no illegal key character in module and file; its
    symbol key is the module and the digits, and when the names are distinct
    that is what the view finds for its key. *)
Theorem submitted_members_have_symbol_keys (prefix : string)
    (file_listing : list FileMember) (t : Task) :
  check_symbols_archive_file_listing file_listing = None ->
  In t (submitted prefix file_listing) ->
  exists module_ hex file,
    Py.split "/" (member_name (task_member t)) = [module_; hex; file] /\
    all_chars is_hex_digit hex /\
    all_chars valid_key_char module_ /\
    all_chars valid_key_char file /\
    symbol_key (task_member t) = [module_; hex] /\
    (NoDup (map member_name file_listing) ->
     key_to_symbol_keys (submitted prefix file_listing) !! task_key t =
     Some [module_; hex]).
Proof.
  intros Hv Ht. destruct (submitted_members _ _ _ Ht) as (Hin & Hi & Hk).
  pose proof (validated_members _ Hv _ Hin) as Hc.
  apply check_file_listing_continue in Hc as [_ Hr].
  assert (Hni : ~ ignorable (member_name (task_member t))).
  { rewrite <- _ignore_member_file_spec. congruence. }
  destruct Hr as [a h f Hs Ha Hf Hh|_ He|Hl].
  - exists a, h, f.
    assert (Hsym : symbol_key (task_member t) = [a; h]).
    { unfold symbol_key. by rewrite Hs. }
    repeat split; try done.
    intros Hnd. rewrite <- Hsym. apply key_to_symbol_keys_lookup; [|done].
    by apply submitted_keys_distinct.
  - destruct Hni. by left.
  - destruct Hni. by right.
Qed.

(** X4: the storage key of a submitted member whose name does not start
    with a slash is the prefix, a slash unless the prefix is empty or ends
    with one, and the name.  A name that starts with a slash, which
    validation accepts as a name with an empty module, is its own key: the
    prefix is dropped. *)
Theorem storage_key_of_submitted_member (prefix : string)
    (file_listing : list FileMember) (t : Task) :
  In t (submitted prefix file_listing) ->
  let name := member_name (task_member t) in
  let sep :=
    if String.eqb prefix "" || Py.endswith prefix "/" then EmptyString
    else "/"%string in
  (Py.startswith name "/" = false ->
   Py.startswith (task_key t) prefix = true /\
   task_key t = (prefix ++ sep ++ name)%string)
  /\ (Py.startswith name "/" = true -> task_key t = name).
Proof.
  intros Ht name sep. destruct (submitted_members _ _ _ Ht) as (_ & _ & ->).
  fold name. split.
  - intros Hrel. rewrite path_join_relative by done.
    assert (Hsep : (joined_prefix prefix ++ name = prefix ++ sep ++ name)%string).
    { unfold joined_prefix, sep. destruct (_ || _).
      - by rewrite append_nil.
      - by rewrite append_assoc. }
    rewrite Hsep. split; [|done].
    unfold Py.startswith. apply prefix_app.
  - intros Habs. by apply path_join_absolute.
Qed.


(** ** More on the view *)

Lemma default_or_none (keys : list string) : default [] (or_none keys) = keys.
Proof. by destruct keys. Qed.

Lemma update_created (rows : list Upload) (row : Upload)
    (skipped ignored : list string) :
  update_upload (rows ++ [row]) (length rows) skipped ignored =
  rows ++ [completed_row skipped ignored row].
Proof.
  unfold update_upload. rewrite <- (Nat.add_0_r (length rows)).
  by rewrite alter_app_r.
Qed.

Lemma ledger_grows (rows : list Upload) (row : Upload) : rows ++ [row] <> rows.
Proof.
  intros H. apply (f_equal length) in H.
  rewrite length_app in H. simpl in H. lia.
Qed.

(** The listing the [try] block leaves behind was extracted. *)
Lemma receive_extracted (upload_dir : string) (request : Request)
    (received : Received) :
  receive upload_dir request = inr received ->
  exists buffer name,
    dump_and_extract upload_dir buffer name = Ok (received_listing received).
Proof.
  unfold receive.
  destruct (FILES request) as [|[name upload_] rest].
  - destruct (truthy _); [|done].
    destruct (download _) as [msg|msg|url|url name size redirect_urls buffer];
      try done.
    destruct (dump_and_extract _ _ _) as [l|e] eqn:E; [|done].
    intros [= <-]. eauto.
  - destruct (dump_and_extract _ _ _) as [l|e] eqn:E; [|done].
    intros [= <-]. eauto.
Qed.

(** What the early endings are. *)
Definition rejection (r : result response) : Prop :=
  (exists status error,
      r = Ok (JsonError status error) /\
      (status = 400 \/ status = 403 \/ status = 500)%N)
  \/ exists msg, r = Raise (ImproperlyConfigured msg).

(** What the view has done when it has created the row. *)
Definition batch (upload_dir : string) (request : Request)
    (world world' : World) (r : result response) (received : Received)
    (bucket_info : StorageBucket) : Prop :=
  receive upload_dir request = inr received /\
  check_symbols_archive_file_listing (received_listing received) = None /\
  get_bucket_info (user request) (PyStr <$> POST request !! "try")
    (POST request !! "bucket_name") = Ok bucket_info /\
  bucket_exists (bucket_url bucket_info) = true /\
  let file_listing := received_listing received in
  let tasks := submitted (key_prefix bucket_info) file_listing in
  let run :=
    run_executor (bucket_name (bucket_url bucket_info)) (storage world) tasks in
  let completed := as_completed (snd run) in
  exists flag,
    let upload_obj := new_upload request received bucket_info flag in
    storage world' = fst run /\
    match first_failure completed with
    | Some e => r = Raise e /\ uploads world' = uploads world ++ [upload_obj]
    | None =>
        r = Ok (JsonUpload 201 upload_obj) /\
        uploads world' =
          uploads world ++
          [completed_row (skipped_of completed) (ignored_names file_listing)
             upload_obj]
    end.

(** The view ends early and leaves the world as it was, or it creates the
    row and runs the batch. *)
Lemma upload_archive_cases (upload_dir : string) (request : Request)
    (world : World) :
  let r := fst (upload_archive upload_dir request world) in
  let world' := snd (upload_archive upload_dir request world) in
  (world' = world /\ rejection r)
  \/ exists received bucket_info,
       batch upload_dir request world world' r received bucket_info.
Proof.
  unfold upload_archive, rejection.
  destruct (receive upload_dir request) as [early|received] eqn:Hr.
  { left. split; [done|]. left. unfold receive in Hr.
    assert (Hraised : forall e, exists msg, raised e = JsonError 400 msg).
    { intros e. destruct e; simpl; eauto. }
    destruct (FILES request) as [|[name upload_] rest].
    - destruct (truthy _).
      + destruct (download _) as [msg|msg|url|url name size redirect_urls buffer].
        * injection Hr as <-. simpl. eauto 6.
        * injection Hr as <-. simpl. eauto 6.
        * injection Hr as <-. simpl. eauto 6.
        * destruct (dump_and_extract _ _ _) as [l|e]; [done|].
          injection Hr as <-. destruct (Hraised e) as [msg ->]. simpl. eauto 6.
      + injection Hr as <-. simpl. eauto 6.
    - destruct (dump_and_extract _ _ _) as [l|e]; [done|].
      injection Hr as <-. destruct (Hraised e) as [msg ->]. simpl. eauto 6. }
  destruct (check_symbols_archive_file_listing _) eqn:Hv;
    [left; simpl; eauto 8|].
  destruct (get_bucket_info _ _ _) as [bucket_info|] eqn:Hb;
    [|left; simpl; eauto 8].
  destruct (bucket_exists _) eqn:He; simpl; [|left; eauto].
  right. exists received, bucket_info. unfold batch.
  rewrite Hr. repeat split; try done.
  eexists. unfold create_upload.
  destruct (run_executor _ _ _) as [st futures]. simpl.
  destruct (first_failure _); simpl; [done|].
  by rewrite update_created.
Qed.

(** What a run of the configured executor adds up to, for calls with
    distinct keys: the log has the calls to [putObject]; when no call has
    raised every key is skipped or put, once, and has its object; a call
    raises only for a key with a fault. *)
Lemma run_executor_account (bucket : string) (st : Storage)
    (tasks : list Task) :
  NoDup (map task_key tasks) ->
  let run := run_executor bucket st tasks in
  let completed := as_completed (snd run) in
  put_log (fst run) = put_log st ++ map (pair bucket) (put_keys (snd run)) /\
  (first_failure completed = None ->
   skipped_of completed ++ put_keys (snd run) ≡ₚ map task_key tasks /\
   Forall (has_size bucket (fst run)) tasks) /\
  (forall e, first_failure completed = Some e ->
     exists key_name msg,
       In key_name (map task_key tasks) /\ e = ClientError msg /\
       objects st !! (bucket, key_name) = Some (Fault msg)).
Proof.
  intros Hnd run completed.
  destruct (executes_as_pool _ _ _ _ (run_executor_executes bucket st tasks))
    as (workers & sch & Hw & Hrun).
  fold run in Hrun. unfold completed. rewrite Hrun.
  destruct (run_thread_pool_keys bucket workers sch st tasks Hw)
    as [Hkeys Hown].
  pose proof (as_completed_perm
                (snd (run_thread_pool bucket workers sch st tasks))) as Hperm.
  split; [apply run_thread_pool_put_log|]. split.
  - intros Hnone.
    assert (Hnone' : first_failure
                       (snd (run_thread_pool bucket workers sch st tasks)) =
                     None).
    { by apply (first_failure_perm _ _ Hperm). }
    split.
    + rewrite (skipped_of_perm _ _ Hperm).
      rewrite (put_keys_created _ Hown Hnone').
      by rewrite (dones_counted_once _ Hown Hnone').
    + apply run_thread_pool_leaves_sizes; [done| |done].
      by apply distinct_keys_determine_sizes.
  - intros e He. apply first_failure_some in He as [k Hin].
    apply list_elem_of_In in Hin. rewrite Hperm in Hin.
    pose proof (run_thread_pool_faults bucket workers sch st tasks) as Hf.
    rewrite Forall_forall in Hf.
    destruct (Hf _ Hin e eq_refl) as (msg & -> & Hfault).
    exists k, msg. repeat split; try done.
    apply list_elem_of_In. rewrite <- Hkeys.
    apply list_elem_of_In, (in_map fst _ (k, Raise (ClientError msg))).
    by apply list_elem_of_In.
Qed.

(** A run on a bucket that has every object with its size, with every
    existence check answered in time, skips every call. *)
Lemma run_executor_all_present (bucket : string) (st : Storage)
    (tasks : list Task) :
  Forall (fun t => in_time bucket t /\ has_size bucket st t) tasks ->
  let run := run_executor bucket st tasks in
  fst run = st /\
  first_failure (as_completed (snd run)) = None /\
  skipped_of (as_completed (snd run)) ≡ₚ map task_key tasks.
Proof.
  intros Hall run.
  destruct (executes_as_pool _ _ _ _ (run_executor_executes bucket st tasks))
    as (workers & sch & Hw & Hrun).
  fold run in Hrun. rewrite Hrun.
  destruct (run_thread_pool_all_present bucket workers sch st tasks Hall)
    as [Hst Hnone].
  destruct (all_skipped _ Hnone) as (_ & Hs & Hf & _).
  destruct (run_thread_pool_keys bucket workers sch st tasks Hw) as [Hkeys _].
  pose proof (as_completed_perm
                (snd (run_thread_pool bucket workers sch st tasks))) as Hperm.
  split; [done|]. split.
  - apply first_failure_none. rewrite Hperm. by apply first_failure_none.
  - by rewrite (skipped_of_perm _ _ Hperm), Hs.
Qed.

(** The second of two uploads: when the bucket has the object of every
    submitted member with its size and every existence check is answered
    in time, the view writes nothing to storage and records every key as
    skipped. *)
Lemma upload_archive_all_present (upload_dir : string) (request : Request)
    (world : World) (received : Received) (bucket_info : StorageBucket) :
  receive upload_dir request = inr received ->
  check_symbols_archive_file_listing (received_listing received) = None ->
  get_bucket_info (user request) (PyStr <$> POST request !! "try")
    (POST request !! "bucket_name") = Ok bucket_info ->
  bucket_exists (bucket_url bucket_info) = true ->
  let bucket := bucket_name (bucket_url bucket_info) in
  let tasks := submitted (key_prefix bucket_info) (received_listing received) in
  Forall (fun t => in_time bucket t /\ has_size bucket (storage world) t)
         tasks ->
  exists upload row,
    upload_archive upload_dir request world =
      (Ok (JsonUpload 201 upload),
       {| storage := storage world; uploads := uploads world ++ [row] |}) /\
    upload_completed row = true /\
    default [] (upload_skipped_keys row) ≡ₚ map task_key tasks.
Proof.
  intros Hr Hv Hb He bucket tasks Hall.
  destruct (run_executor_all_present bucket (storage world) tasks Hall)
    as (Hst & Hnone & Hskipped).
  unfold upload_archive. rewrite Hr, Hv, Hb, He. simpl.
  unfold create_upload. fold bucket tasks.
  destruct (run_executor bucket (storage world) tasks) as [st futures].
  simpl in Hst, Hnone, Hskipped. subst st. rewrite Hnone.
  rewrite update_created. eexists _, _. split; [reflexivity|].
  split; [done|]. simpl. by rewrite default_or_none.
Qed.

(** C6: when the view answers 201 every member of the listing is accounted
    for in exactly one class.  It is among the ignored keys of the row, and
    was not submitted, exactly when its name ends with -symbols.txt
    whatever the case or its base name is an ignorable file name; every
    other member was submitted under its own key, and that key is once
    among the skipped keys of the row or among the keys [putObject] was
    called for, after which the bucket has its object. *)
Theorem every_member_is_accounted_for (upload_dir : string)
    (request : Request) (world world' : World) (status : N)
    (upload : Upload) :
  upload_archive upload_dir request world =
    (Ok (JsonUpload status upload), world') ->
  exists received bucket_info row created,
    receive upload_dir request = inr received /\
    get_bucket_info (user request) (PyStr <$> POST request !! "try")
      (POST request !! "bucket_name") = Ok bucket_info /\
    let file_listing := received_listing received in
    let bucket := upload_bucket_name upload in
    let prefix := key_prefix bucket_info in
    let tasks := submitted prefix file_listing in
    let ignored := default [] (upload_ignored_keys row) in
    let skipped := default [] (upload_skipped_keys row) in
    uploads world' = uploads world ++ [row] /\
    upload_completed row = true /\
    put_log (storage world') =
      put_log (storage world) ++ map (pair bucket) created /\
    (forall m, In m file_listing ->
       (In (member_name m) ignored <-> ignorable (member_name m))
       /\ (In m (map task_member tasks) <-> ~ ignorable (member_name m)))
    /\ ignored = map member_name (List.filter ignored_member file_listing)
    /\ map task_member tasks =
       List.filter (fun m => negb (ignored_member m)) file_listing
    /\ map task_key tasks =
       map (fun m => Py.path_join prefix (member_name m))
           (map task_member tasks)
    /\ NoDup (map task_key tasks)
    /\ skipped ++ created ≡ₚ map task_key tasks
    /\ Forall (has_size bucket (storage world')) tasks
    /\ length ignored + length skipped + length created = length file_listing.
Proof.
  intros H.
  pose proof (upload_archive_cases upload_dir request world) as Hcases.
  rewrite H in Hcases. simpl in Hcases.
  destruct Hcases as [[_ [(? & ? & [=] & _)|[? [=]]]]|Hbatch].
  destruct Hbatch as (received & bucket_info & Hr & Hv & Hb & He & flag
                      & Hst & Hend).
  destruct (receive_extracted _ _ _ Hr) as (buffer & name & Hx).
  pose proof (archive_keys_distinct _ _ (key_prefix bucket_info) _ _ Hx Hv)
    as Hnd.
  destruct (run_executor_account (bucket_name (bucket_url bucket_info))
              (storage world) _ Hnd) as (Hlog & Hnone & _).
  destruct (first_failure _); [by destruct Hend|].
  destruct Hend as [[= -> ->] Hrows].
  destruct (Hnone eq_refl) as [Hperm Hsizes].
  eexists received, bucket_info, _, _. split; [done|]. split; [done|].
  cbn [new_upload upload_bucket_name].
  split; [exact Hrows|]. split; [done|].
  rewrite Hst. split; [exact Hlog|].
  cbn [completed_row upload_ignored_keys upload_skipped_keys].
  rewrite !default_or_none.
  set (file_listing := received_listing received) in *.
  set (tasks := submitted (key_prefix bucket_info) file_listing) in *.
  assert (Hmembers : map task_member tasks =
                     List.filter (fun m => negb (ignored_member m)) file_listing).
  { unfold tasks. rewrite submitted_spec, map_map. simpl. apply map_id. }
  assert (Hignored : ignored_names file_listing =
                     map member_name (List.filter ignored_member file_listing)).
  { apply ignored_names_spec. }
  repeat split; try done.
  - rewrite Hignored, in_map_iff. intros (m' & E & Hin).
    apply filter_In in Hin as [_ Hin].
    rewrite <- E. by apply _ignore_member_file_spec.
  - intros Hi. rewrite Hignored, in_map_iff.
    exists m. split; [done|]. apply filter_In. split; [done|].
    by apply _ignore_member_file_spec.
  - rewrite Hmembers, filter_In, negb_true_iff.
    rewrite <- _ignore_member_file_spec. unfold ignored_member.
    destruct (_ignore_member_file _); intuition congruence.
  - rewrite Hmembers, filter_In, negb_true_iff.
    rewrite <- _ignore_member_file_spec. unfold ignored_member.
    destruct (_ignore_member_file _); intuition congruence.
  - unfold tasks. by rewrite submitted_spec, !map_map.
  - rewrite Hignored, length_map, <- Nat.add_assoc, <- length_app.
    rewrite (Permutation_length Hperm), length_map.
    rewrite <- (length_map task_member tasks), Hmembers.
    apply filter_lengths.
Qed.



(** ** The shape of a digest *)

Lemma le_bytes_length (count : nat) (x : Z) :
  length (MD5.le_bytes count x) = count.
Proof. unfold MD5.le_bytes. by rewrite length_map, length_seq. Qed.

Lemma le_bytes_range (count : nat) (x : Z) :
  Forall (fun b => (0 <= b < 256)%Z) (MD5.le_bytes count x).
Proof.
  unfold MD5.le_bytes. apply Forall_forall. intros b Hb.
  apply list_elem_of_In, in_map_iff in Hb as (i & <- & _).
  change 255%Z with (Z.ones 8). rewrite Z.land_ones by lia.
  pose proof (Z.mod_pos_bound (Z.shiftr x (8 * Z.of_nat i)) (2 ^ 8)). lia.
Qed.

Lemma digest_bytes (msg : list Z) :
  length (MD5.digest msg) = 16 /\
  Forall (fun b => (0 <= b < 256)%Z) (MD5.digest msg).
Proof.
  unfold MD5.digest.
  destruct (MD5.blocks _ _ _) as [[[a b] c] d].
  rewrite !length_app, !le_bytes_length, !Forall_app.
  auto using le_bytes_range.
Qed.

Lemma hex_digit_lower (n : N) :
  (n < 16)%N -> is_lower_hex_digit (Py.hex_digit n).
Proof.
  intros H. unfold is_lower_hex_digit.
  assert (Hn : In n (map N.of_nat (seq 0 16))).
  { apply in_map_iff. exists (N.to_nat n). split; [lia|].
    apply in_seq. lia. }
  simpl in Hn.
  repeat (destruct Hn as [<-|Hn];
          [vm_compute; repeat (first [left; reflexivity | right])|]).
  destruct Hn.
Qed.

Lemma hex_shape (bytes : list Z) :
  Forall (fun b => (0 <= b < 256)%Z) bytes ->
  String.length (MD5.hex bytes) = 2 * length bytes /\
  all_chars is_lower_hex_digit (MD5.hex bytes).
Proof.
  unfold all_chars. induction 1 as [|b rest Hb _ [IHl IHc]]; simpl.
  - split; [done | constructor].
  - split; [lia|].
    constructor; [|constructor; [|done]]; apply hex_digit_lower.
    + assert (b / 16 < 16)%Z by (apply Z.div_lt_upper_bound; lia).
      assert (0 <= b / 16)%Z by (apply Z.div_pos; lia). lia.
    + pose proof (Z.mod_pos_bound b 16). lia.
Qed.

(** An MD5 digest in hexadecimal is 32 lower-case hexadecimal digits. *)
Lemma hexdigest_shape (text : string) :
  String.length (MD5.hexdigest text) = 32 /\
  all_chars is_lower_hex_digit (MD5.hexdigest text).
Proof.
  unfold MD5.hexdigest.
  destruct (digest_bytes (MD5.utf8 text)) as [Hl Hr].
  destruct (hex_shape _ Hr) as [Hl' Hc]. rewrite Hl in Hl'. done.
Qed.

Lemma substring_prefix_shape (P : ascii -> Prop) (m : nat) (s : string) :
  m <= String.length s -> all_chars P s ->
  String.length (String.substring 0 m s) = m /\
  all_chars P (String.substring 0 m s).
Proof.
  unfold all_chars. revert s.
  induction m as [|m IH]; intros s Hm Hs.
  - destruct s; simpl; split; by try constructor.
  - destruct s as [|c s]; simpl in *; [lia|].
    inversion Hs as [|? ? Hc Hrest]; subst.
    destruct (IH s) as [Hl Hp]; [lia | done |].
    split; [by rewrite Hl | by constructor].
Qed.

(** X6: the content hash of any listing, the empty one too, is 30
    lower-case hexadecimal digits. *)
Theorem content_hash_is_thirty_hex_digits (file_listing : list FileMember) :
  String.length (content_hash file_listing) = 30 /\
  all_chars is_lower_hex_digit (content_hash file_listing).
Proof.
  unfold content_hash.
  destruct (hexdigest_shape (listing_content file_listing)) as [Hl Hc].
  apply substring_prefix_shape; [lia | done].
Qed.


(** ** More on bucket resolution *)

Lemma lower_char_idempotent (c : ascii) :
  Py.lower_char (Py.lower_char c) = Py.lower_char c.
Proof. destruct c as [[] [] [] [] [] [] [] []]; reflexivity. Qed.

Lemma lower_idempotent (s : string) : Py.lower (Py.lower s) = Py.lower s.
Proof.
  induction s as [|c s IH]; simpl; [done|].
  by rewrite lower_char_idempotent, IH.
Qed.

Lemma dict_get_in (d : list (string * string)) (k v : string) :
  dict_get d k = Some v -> In (k, v) d.
Proof.
  induction d as [|[k' v'] rest IH]; simpl; [done|].
  destruct (String.eqb_spec k k') as [->|].
  - intros [= ->]. by left.
  - auto.
Qed.

Lemma dict_get_distinct (d : list (string * string)) (k v : string) :
  NoDup (map fst d) -> In (k, v) d ->
  dict_has d k = true /\ dict_get d k = Some v.
Proof.
  unfold dict_has.
  induction d as [|[k' v'] rest IH]; simpl; [done|].
  intros Hnd Hin. apply NoDup_cons in Hnd as [Hnot Hnd].
  destruct Hin as [[= -> ->]|Hin].
  - by rewrite String.eqb_refl.
  - destruct (String.eqb_spec k k') as [->|]; [|by apply IH].
    destruct Hnot. apply list_elem_of_In, in_map_iff. by exists (k', v).
Qed.

Lemma first_wildcard_match_in (email_lower u : string)
    (exceptions : list (string * string)) :
  first_wildcard_match email_lower exceptions = Some u ->
  exists pattern,
    In (pattern, u) exceptions /\
    fnmatch email_lower (Py.lower pattern) = true.
Proof.
  induction exceptions as [|[pattern url] rest IH]; simpl; [done|].
  destruct (fnmatch email_lower (Py.lower pattern)) eqn:E.
  - intros [= ->]. eauto.
  - intros H. destruct (IH H) as (p & ? & ?). eauto.
Qed.

Lemma matching_entry_is_permitted (user : User) (pattern u : string) :
  In (pattern, u) (UPLOAD_URL_EXCEPTIONS settings) ->
  entry_matches user (pattern, u) = true ->
  In u (permitted_urls user).
Proof.
  intros Hin Hm. unfold permitted_urls.
  assert (Hp : In u (if is_superuser user
                     then map snd (UPLOAD_URL_EXCEPTIONS settings)
                     else map snd (List.filter (entry_matches user)
                                     (UPLOAD_URL_EXCEPTIONS settings)))).
  { destruct (is_superuser user); apply in_map_iff; exists (pattern, u);
      (split; [done|]); [done|]. by apply filter_In. }
  by destruct (if is_superuser user then _ else _).
Qed.

(** X7: the bucket an identity is resolved to through its exception entry
    is one of the URLs it is permitted to use, so asking for that URL as the
    preferred bucket is never refused. *)
Theorem exception_bucket_is_permitted (user : User)
    (try_symbols_ : option pyvalue) (u : string) :
  exception_of user = Some u ->
  u <> EmptyString ->
  get_bucket_info user try_symbols_ None =
    Ok {| bucket_url := u;
          try_symbols :=
            match try_symbols_ with
            | None => PyBool (negb (has_perm user "upload.upload_symbols"))
            | Some v => v
            end |}
  /\ In u (permitted_urls user)
  /\ exists bucket, get_bucket_info user try_symbols_ (Some u) = Ok bucket.
Proof.
  intros He Hne.
  assert (Hin : In u (permitted_urls user)).
  { unfold exception_of in He.
    destruct (dict_has _ _).
    - apply dict_get_in in He.
      apply (matching_entry_is_permitted user _ _ He).
      unfold entry_matches. simpl.
      by rewrite lower_idempotent, String.eqb_refl.
    - apply first_wildcard_match_in in He as (pattern & Hp & Hf).
      apply (matching_entry_is_permitted user _ _ Hp).
      unfold entry_matches. simpl. rewrite Hf. apply orb_true_r. }
  split; [|split; [done|]].
  - unfold get_bucket_info. simpl. rewrite He. simpl.
    apply String.eqb_neq in Hne. by rewrite Hne.
  - apply get_bucket_info_preferred. exists u. split; [done|].
    apply contains_spec. exists EmptyString, EmptyString.
    by rewrite append_nil, append_empty_r.
Qed.

(** X8: an entry whose key is the identity's address in lower case decides
    the bucket, also when a wildcard entry that matches the address stands
    before it. *)
Theorem exact_exception_key_wins (user : User) (u : string) :
  NoDup (map fst (UPLOAD_URL_EXCEPTIONS settings)) ->
  In (Py.lower (email user), u) (UPLOAD_URL_EXCEPTIONS settings) ->
  exception_of user = Some u.
Proof.
  intros Hnd Hin. unfold exception_of.
  destruct (dict_get_distinct _ _ _ Hnd Hin) as [-> ->]. done.
Qed.

End Views.

(** * Two uploads of one archive *)

Section TwoUploads.

Set Default Proof Using "Type".

(** What the two uploads share, and what each of them meets: the
    existence checks that time out, the size of the machine, the scheduler
    of the threads and the order of completion. *)
Variable invalid_key_char : ascii -> bool.
Variable fnmatch : string -> string -> bool.
Variable settings : Settings.
Variable bucket_name bucket_prefix : string -> string.
Variable bucket_exists : string -> bool.
Variable download : gmap string string -> download_outcome.
Variable lookup_times_out lookup_times_out' : string -> string -> bool.
Variable cpu_count cpu_count' : nat.
Variable schedule schedule' : nat -> nat.
Variable completion_order completion_order' : nat -> nat.

(** C5, as amended: when an upload was answered 201 and the same request
    is made again, with every existence check of the second run answered
    in time, the second run is answered 201, makes no call to [putObject]
    and leaves the objects as they were, and the row it completes has
    every submitted key as skipped, the keys the first run called
    [putObject] for among them; after the first run the bucket has, for
    every submitted key, an object of the member's size.  The two runs may
    differ in the executor's scheduling, in the order of completion and in
    the existence checks that time out in the first. *)
Theorem second_upload_skips_everything (upload_dir : string)
    (request : Request) (world world1 world2 : World) (status : N)
    (upload : Upload) (r : result response) :
  upload_archive invalid_key_char fnmatch settings lookup_times_out
    bucket_name bucket_prefix bucket_exists download cpu_count schedule
    completion_order upload_dir request world =
    (Ok (JsonUpload status upload), world1) ->
  upload_archive invalid_key_char fnmatch settings lookup_times_out'
    bucket_name bucket_prefix bucket_exists download cpu_count' schedule'
    completion_order' upload_dir request world1 = (r, world2) ->
  (forall key_name,
      lookup_times_out' (upload_bucket_name upload) key_name = false) ->
  exists received bucket_info created upload' row,
    receive download upload_dir request = inr received /\
    get_bucket_info fnmatch settings (user request)
      (PyStr <$> POST request !! "try") (POST request !! "bucket_name") =
      Ok bucket_info /\
    let bucket := upload_bucket_name upload in
    let tasks :=
      submitted (key_prefix settings bucket_prefix bucket_info)
        (received_listing received) in
    let skipped := default [] (upload_skipped_keys row) in
    put_log (storage world1) =
      put_log (storage world) ++ map (pair bucket) created /\
    Forall (has_size bucket (storage world1)) tasks /\
    r = Ok (JsonUpload 201 upload') /\
    storage world2 = storage world1 /\
    uploads world2 = uploads world1 ++ [row] /\
    upload_completed row = true /\
    skipped ≡ₚ map task_key tasks /\
    (forall key_name, In key_name created -> In key_name skipped).
Proof.
  intros H1 H2 Hfast.
  pose proof (upload_archive_cases invalid_key_char fnmatch settings
                lookup_times_out bucket_name bucket_prefix bucket_exists
                download cpu_count schedule completion_order upload_dir
                request world) as Hcases.
  rewrite H1 in Hcases. simpl in Hcases.
  destruct Hcases as [[_ [(? & ? & [=] & _)|[? [=]]]]|Hbatch].
  destruct Hbatch as (received & bucket_info & Hr & Hv & Hb & He & flag
                      & Hst & Hend).
  destruct (receive_extracted _ _ _ _ Hr) as (buffer & name & Hx).
  pose proof (archive_keys_distinct _ _ _ _
                (key_prefix settings bucket_prefix bucket_info) _ _ Hx Hv)
    as Hnd.
  destruct (run_executor_account settings lookup_times_out cpu_count schedule
              completion_order (bucket_name (bucket_url bucket_info))
              (storage world) _ Hnd) as (Hlog & Hnone & _).
  destruct (first_failure _); [by destruct Hend|].
  destruct Hend as [[= -> ->] _].
  destruct (Hnone eq_refl) as [Hperm Hsizes].
  rewrite <- Hst in Hlog, Hsizes.
  cbn [new_upload upload_bucket_name] in *.
  destruct (upload_archive_all_present invalid_key_char fnmatch settings
              lookup_times_out' bucket_name bucket_prefix bucket_exists
              download cpu_count' schedule' completion_order' upload_dir
              request world1 received bucket_info Hr Hv Hb He)
    as (upload' & row & Hsecond & Hdone & Hskipped).
  { rewrite Forall_forall in *. intros t Ht. split; [apply Hfast | auto]. }
  rewrite Hsecond in H2. injection H2 as <- <-.
  eexists received, bucket_info, _, upload', row.
  split; [done|]. split; [done|]. cbn zeta. split; [exact Hlog|].
  repeat split; try done.
  intros key_name Hin. apply list_elem_of_In.
  rewrite Hskipped, <- Hperm.
  apply list_elem_of_In, in_app_iff. by right.
Qed.

End TwoUploads.


(** * The model and the theorems on the example deployment *)

(** The listing of the example archive passes validation. *)
Lemma accepted_listing_example :
  check_symbols_archive_file_listing example_invalid_key_char example_settings
    [example_member "xul.pdb/ABCD1234/xul.sym" 740;
     example_member ".DS_Store" 6;
     example_member "readme-symbols.txt" 31] = None.
Proof.
  apply recognized_listing_is_accepted.
  intros m [<-|[<-|[<-|[]]]];
    (split; [|intros s [<-|[<-|[]]]; reflexivity]).
  - apply (module_hex_file _ _ "xul.pdb" "ABCD1234" "xul.sym");
      [reflexivity | | |]; unfold all_chars, valid_key_char, is_hex_digit;
      simpl;
      repeat (constructor;
              [first [reflexivity
                     | repeat (first [left; reflexivity | right])]|]);
      constructor.
  - apply ignorable_file. left. reflexivity.
  - apply symbols_listing; reflexivity.
Defined.

(** A snippet in the name of a later member is not what the message is
    about when an earlier member has an unrecognized name. *)
Lemma snippet_of_later_member_is_not_reported :
  In "evil" (DISALLOWED_SYMBOLS_SNIPPETS example_settings)
  /\ Py.contains "evil" "a/12/evil" = true
  /\ check_symbols_archive_file_listing example_invalid_key_char
       example_settings
       [example_member "bad" 1; example_member "a/12/evil" 2] =
     Some (unrecognized_message "bad")
  /\ Py.contains "evil" (unrecognized_message "bad") = false.
Proof. repeat split; [simpl; auto | vm_compute; reflexivity ..]. Qed.

(** The message of the key-character rule has the [repr] of the name, which
    is not the name when the name has a backslash. *)
Lemma invalid_character_message_is_not_verbatim :
  check_symbols_archive_file_listing example_invalid_key_char example_settings
    [example_member "a\b/12/c" 1] =
  Some "Invalid character in filename 'a\\b/12/c'"
  /\ Py.contains "a\b/12/c" "Invalid character in filename 'a\\b/12/c'" = false.
Proof. split; vm_compute; reflexivity. Qed.

Lemma example_tryer_matches_no_exception :
  matches_no_exception example_fnmatch example_settings example_tryer.
Proof. intros pattern url [[= <- <-]|[]]. split; [discriminate | reflexivity]. Qed.

Lemma example_releaser_matches_no_exception :
  matches_no_exception example_fnmatch example_settings example_releaser.
Proof. intros pattern url [[= <- <-]|[]]. split; [discriminate | reflexivity]. Qed.

(** An identity without the release permission, matching no exception, with
    nothing asked for, is resolved to the try bucket, not the default one. *)
Lemma try_uploader_is_resolved_to_try_bucket :
  matches_no_exception example_fnmatch example_settings example_tryer
  /\ has_perm example_tryer "upload.upload_symbols" = false
  /\ get_bucket_info example_fnmatch example_settings example_tryer None None =
     Ok {| bucket_url := "https://s3.example.com/symbols-try";
           try_symbols := PyBool true |}
  /\ UPLOAD_DEFAULT_URL example_settings = "https://s3.example.com/symbols-public".
Proof.
  split; [apply example_tryer_matches_no_exception|].
  repeat split; vm_compute; reflexivity.
Qed.

(** A holder of the release permission is resolved to the default bucket. *)
Lemma releaser_is_resolved_to_default_bucket :
  get_bucket_info example_fnmatch example_settings example_releaser None None =
  Ok {| bucket_url := "https://s3.example.com/symbols-public";
        try_symbols := PyBool false |}.
Proof.
  apply (resolution_without_exception example_fnmatch example_settings
           example_releaser).
  apply example_releaser_matches_no_exception.
Defined.

(** A bucket name that is in none of the permitted URLs is refused. *)
Lemma unpermitted_bucket_is_refused :
  upload_archive example_invalid_key_char example_fnmatch example_settings
    example_lookup_times_out
    example_bucket_name example_bucket_prefix example_bucket_exists
    example_download example_cpu_count example_schedule
      example_completion_order "/tmp/upload"
    (example_request example_releaser [("bucket_name", "symbols-private")])
    example_empty_world =
  (Ok (JsonError 403 "No valid bucket"), example_empty_world).
Proof.
  eapply (proj2 (proj2 (proj2
            (preferred_bucket_must_be_permitted example_invalid_key_char
               example_fnmatch example_settings
                 example_lookup_times_out example_bucket_name
               example_bucket_prefix example_bucket_exists example_download
               example_cpu_count example_schedule
                 example_completion_order example_releaser None
               "symbols-private")))).
  - reflexivity.
  - vm_compute. reflexivity.
  - vm_compute. reflexivity.
  - vm_compute. reflexivity.
  - intros url [<-|[]]. vm_compute. reflexivity.
Defined.

Lemma example_archive_is_extracted :
  dump_and_extract "/tmp/upload" example_archive "symbols.zip" =
  Ok example_listing.
Proof. vm_compute. reflexivity. Qed.

Lemma example_listing_is_valid :
  check_symbols_archive_file_listing example_invalid_key_char example_settings
    example_listing = None.
Proof. vm_compute. reflexivity. Qed.

(** The example archive uploaded twice to the pool deployment, the second
    time under another scheduling and another order of completion: the
    second run is answered 201 and leaves the storage as it was. *)
Lemma second_upload_example :
  let world1 :=
    snd (upload_archive example_invalid_key_char example_fnmatch
           example_pool_settings slow_lookup_times_out example_bucket_name
           example_bucket_prefix example_bucket_exists example_download
           example_cpu_count example_schedule example_completion_order
           "/tmp/upload" (example_request example_releaser [])
           example_empty_world) in
  let second :=
    upload_archive example_invalid_key_char example_fnmatch
      example_pool_settings example_lookup_times_out example_bucket_name
      example_bucket_prefix example_bucket_exists example_download 2
      example_completion_order example_schedule "/tmp/upload"
      (example_request example_releaser []) world1 in
  storage (snd second) = storage world1
  /\ exists upload, fst second = Ok (JsonUpload 201 upload).
Proof.
  intros world1 second.
  eassert (H1 : upload_archive example_invalid_key_char example_fnmatch
                  example_pool_settings slow_lookup_times_out
                  example_bucket_name example_bucket_prefix
                  example_bucket_exists example_download example_cpu_count
                  example_schedule example_completion_order "/tmp/upload"
                  (example_request example_releaser []) example_empty_world =
                (Ok (JsonUpload _ _), world1)).
  { vm_compute. reflexivity. }
  assert (H2 : upload_archive example_invalid_key_char example_fnmatch
                 example_pool_settings example_lookup_times_out
                 example_bucket_name example_bucket_prefix
                 example_bucket_exists example_download 2
                 example_completion_order example_schedule "/tmp/upload"
                 (example_request example_releaser []) world1 =
               (fst second, snd second)).
  { unfold second. apply surjective_pairing. }
  destruct (second_upload_skips_everything _ _ _ _ _ _ _ _ _ _ _ _ _ _ _ _ _
              _ _ _ _ _ _ H1 H2)
    as (_ & _ & _ & upload' & _ & _ & _ & _ & _ & Hr & Hst & _).
  - intros key_name. reflexivity.
  - split; [exact Hst | by exists upload'].
Defined.

(** When the existence checks of the second run time out, the objects of
    the first run are there with their sizes and are written again: no key
    is skipped. *)
Lemma second_upload_with_slow_lookups_writes_again :
  let upload :=
    upload_archive example_invalid_key_char example_fnmatch example_settings
      slow_lookup_times_out example_bucket_name example_bucket_prefix
      example_bucket_exists example_download example_cpu_count
      example_schedule example_completion_order "/tmp/upload"
      (example_request example_releaser []) in
  let world1 := snd (upload example_empty_world) in
  let world2 := snd (upload world1) in
  (exists status upload1,
      fst (upload example_empty_world) = Ok (JsonUpload status upload1))
  /\ put_log (storage world1) =
     [("symbols-public", "v1/xul.pdb/ABCD1234/xul.sym");
      ("symbols-public", "v1/libxul.so/0F0F0F/libxul.so.sym")]
  /\ objects (storage world1)
       !! ("symbols-public", "v1/xul.pdb/ABCD1234/xul.sym") =
     Some (Object 740)
  /\ objects (storage world1)
       !! ("symbols-public", "v1/libxul.so/0F0F0F/libxul.so.sym") =
     Some (Object 1200)
  /\ put_log (storage world2) =
     put_log (storage world1) ++
     [("symbols-public", "v1/xul.pdb/ABCD1234/xul.sym");
      ("symbols-public", "v1/libxul.so/0F0F0F/libxul.so.sym")]
  /\ map upload_skipped_keys (uploads world2) = [None; None].
Proof.
  intros upload world1 world2.
  split; [eexists _, _; vm_compute; reflexivity|].
  repeat split; vm_compute; reflexivity.
Qed.

(** The members of the example archive on an empty bucket: two are
    ignored, none is skipped, and [putObject] is called for the keys of the
    other two. *)
Lemma example_members_are_accounted_for :
  let world' :=
    snd (upload_archive example_invalid_key_char example_fnmatch
           example_pool_settings example_lookup_times_out example_bucket_name
           example_bucket_prefix example_bucket_exists example_download
           example_cpu_count example_schedule example_completion_order
           "/tmp/upload" (example_request example_releaser [])
           example_empty_world) in
  exists row created,
    uploads world' = [row]
    /\ put_log (storage world') = map (pair "symbols-public") created
    /\ default [] (upload_ignored_keys row) =
       [".DS_Store"; "readme-symbols.txt"]
    /\ default [] (upload_skipped_keys row) ++ created ≡ₚ
       ["v1/xul.pdb/ABCD1234/xul.sym"; "v1/libxul.so/0F0F0F/libxul.so.sym"].
Proof.
  intros world'.
  eassert (H : upload_archive example_invalid_key_char example_fnmatch
                 example_pool_settings example_lookup_times_out
                 example_bucket_name example_bucket_prefix
                 example_bucket_exists example_download example_cpu_count
                 example_schedule example_completion_order "/tmp/upload"
                 (example_request example_releaser []) example_empty_world =
               (Ok (JsonUpload _ _), world')).
  { vm_compute. reflexivity. }
  destruct (every_member_is_accounted_for _ _ _ _ _ _ _ _ _ _ _ _ _ _ _ _ _ H)
    as (received & bucket_info & row & created & Hr & Hb & Hrows & _ & Hlog
        & _ & Hignored & _ & _ & _ & Hperm & _).
  vm_compute in Hr. injection Hr as <-.
  vm_compute in Hb. injection Hb as <-.
  exists row, created. split; [exact Hrows|]. split; [exact Hlog|].
  split; [exact Hignored | exact Hperm].
Defined.

(** A member upload that raises: the view ends with the error, the row
    stays as it was created, and the other member was uploaded. *)
Lemma member_upload_failure_example :
  upload_archive example_invalid_key_char example_fnmatch
    example_pool_settings example_lookup_times_out example_bucket_name
    example_bucket_prefix example_bucket_exists example_download
    example_cpu_count example_schedule example_completion_order
    "/tmp/upload" (example_request example_releaser [])
    {| storage :=
         {| objects :=
              {[("symbols-public", "v1/libxul.so/0F0F0F/libxul.so.sym") :=
                  Fault "503 Slow Down"]};
            put_log := [] |};
       uploads := [] |} =
  (Raise (ClientError "503 Slow Down"),
   {| storage :=
        {| objects :=
             <[("symbols-public", "v1/xul.pdb/ABCD1234/xul.sym") :=
                 Object 740]>
               {[("symbols-public", "v1/libxul.so/0F0F0F/libxul.so.sym") :=
                   Fault "503 Slow Down"]};
           put_log :=
             [("symbols-public", "v1/libxul.so/0F0F0F/libxul.so.sym");
              ("symbols-public", "v1/xul.pdb/ABCD1234/xul.sym")] |};
      uploads :=
        [new_upload example_bucket_name
           (example_request example_releaser [])
           {| received_listing := example_listing;
              received_name := "symbols.zip"; received_size := 977;
              received_url := None; received_redirect_urls := [] |}
           {| bucket_url := "https://s3.example.com/symbols-public";
              try_symbols := PyBool false |} false] |}).
Proof. vm_compute. reflexivity. Qed.

(** Two entries of one name: accepted with one size, a conflict with two;
    the conflict is answered with 400 and nothing is touched. *)
Lemma duplicate_entries_example :
  dump_and_extract "/tmp/upload"
    (ZipFile [example_entry "xul.pdb/ABCD1234/xul.sym" 740;
              example_entry "xul.pdb/ABCD1234/xul.sym" 740]) "symbols.zip" =
  Ok [example_member "xul.pdb/ABCD1234/xul.sym" 740]
  /\ exists msg,
       dump_and_extract "/tmp/upload"
         (ZipFile [example_entry "xul.pdb/ABCD1234/xul.sym" 740;
                   example_entry "xul.pdb/ABCD1234/xul.sym" 741])
         "symbols.zip" =
       Raise (DuplicateFileDifferentSize msg).
Proof.
  split.
  - refine (proj1 (duplicate_entries_conflict_by_size
                     example_invalid_key_char
                     example_fnmatch example_settings
                       example_lookup_times_out example_bucket_name
                     example_bucket_prefix example_bucket_exists
                     example_download example_cpu_count example_schedule
                       example_completion_order
                     "/tmp/upload" "symbols.zip"
                     [example_entry "xul.pdb/ABCD1234/xul.sym" 740;
                      example_entry "xul.pdb/ABCD1234/xul.sym" 740]
                     eq_refl) _).
    intros a b [<-|[<-|[]]] [<-|[<-|[]]] _; reflexivity.
  - destruct (proj2 (duplicate_entries_conflict_by_size
                       example_invalid_key_char
                       example_fnmatch example_settings
                         example_lookup_times_out example_bucket_name
                       example_bucket_prefix example_bucket_exists
                       example_download example_cpu_count example_schedule
                         example_completion_order
                       "/tmp/upload" "symbols.zip"
                       [example_entry "xul.pdb/ABCD1234/xul.sym" 740;
                        example_entry "xul.pdb/ABCD1234/xul.sym" 741]
                       eq_refl))
      as (msg & E & _).
    + exists (example_entry "xul.pdb/ABCD1234/xul.sym" 740),
             (example_entry "xul.pdb/ABCD1234/xul.sym" 741).
      simpl. repeat split; auto; discriminate.
    + exists msg. exact E.
Defined.

(** The example archive on an empty bucket, by the synchronous executor and
    by a pool of three workers: the same keys are created. *)
Lemma concurrency_example :
  map key (created_of
             (snd (run_synchronous example_lookup_times_out "symbols-public"
                     example_storage (submitted "v1" example_listing))))
  ≡ₚ map key (created_of
                (snd (run_thread_pool example_lookup_times_out
                        "symbols-public" 3 example_schedule
                        example_storage (submitted "v1" example_listing)))).
Proof.
  destruct (concurrency_degree_does_not_matter example_invalid_key_char
              example_settings example_lookup_times_out
              "/tmp/upload" "symbols.zip" "v1"
              "symbols-public" example_archive example_listing
              example_storage 3 example_schedule
              example_archive_is_extracted example_listing_is_valid)
    as (_ & _ & H & _).
  - intros key_name. reflexivity.
  - lia.
  - exact H.
Defined.

(** The digest is the one [hashlib] computes. *)
Lemma md5_of_abc : MD5.hexdigest "abc" = "900150983cd24fb0d6963f7d28e17f72".
Proof. vm_compute. reflexivity. Qed.

Lemma content_hash_of_example_listing :
  content_hash example_listing = "30d6e4cc4ae6ca9b2b40db481a64b6".
Proof. vm_compute. reflexivity. Qed.

(** Two members of one name and different sizes, which extraction never
    leaves, keep their order under the stable sort by name, and the hash
    tells the two orders apart. *)
Lemma same_name_members_keep_their_order :
  content_hash [example_member "a/0B/a.sym" 1; example_member "a/0B/a.sym" 2]
  <> content_hash
       [example_member "a/0B/a.sym" 2; example_member "a/0B/a.sym" 1].
Proof. vm_compute. discriminate. Qed.

(** The same names and sizes in another order, extracted elsewhere, have
    the same content hash. *)
Lemma content_hash_example :
  content_hash
    [{| member_name := "b/0A/b.sym"; member_size := 2; member_path := "/x/b" |};
     {| member_name := "a/0B/a.sym"; member_size := 1; member_path := "/x/a" |}]
  = content_hash
      [{| member_name := "a/0B/a.sym"; member_size := 1; member_path := "/y/a" |};
       {| member_name := "b/0A/b.sym"; member_size := 2; member_path := "/y/b" |}].
Proof.
  apply content_hash_reads_names_and_sizes.
  - intros a b [<-|[<-|[]]] [<-|[<-|[]]]; simpl; intros E;
      first [reflexivity | discriminate E].
  - simpl. apply Permutation_swap.
Defined.

(** A try parameter that reads false still makes a try upload. *)
Lemma try_false_is_a_try_upload :
  exists status upload world',
    upload_archive example_invalid_key_char example_fnmatch example_settings
      example_lookup_times_out
      example_bucket_name example_bucket_prefix example_bucket_exists
      example_download example_cpu_count example_schedule
        example_completion_order "/tmp/upload"
      (example_request example_tryer [("try", "false")]) example_empty_world =
    (Ok (JsonUpload status upload), world')
    /\ upload_try_symbols upload = true
    /\ upload_bucket_name upload = "symbols-try".
Proof.
  eassert (E : upload_archive example_invalid_key_char example_fnmatch
                 example_settings
                   example_lookup_times_out example_bucket_name example_bucket_prefix
                 example_bucket_exists example_download example_cpu_count
                 example_schedule example_completion_order "/tmp/upload"
                 (example_request example_tryer [("try", "false")])
                 example_empty_world = (Ok (JsonUpload _ _), _)).
  { vm_compute. reflexivity. }
  destruct (try_parameter_is_taken_by_truth _ _ _ _ _ _ _ _ _ _ _ _ _ _ _ _ _
              E)
    as [Hflag Hbucket].
  eexists _, _, _. split; [exact E|]. split; [exact Hflag|].
  rewrite Hbucket; [reflexivity | | reflexivity].
  apply example_tryer_matches_no_exception.
Defined.

(** A try upload of an identity on the exception list goes to the bucket of
    its exception entry, not to the try bucket. *)
Lemma try_upload_of_exception_goes_to_its_bucket :
  exists upload world',
    upload_archive example_invalid_key_char example_fnmatch example_settings
      example_lookup_times_out
      example_bucket_name example_bucket_prefix example_bucket_exists
      example_download example_cpu_count example_schedule
        example_completion_order "/tmp/upload"
      (example_request example_partner [("try", "1")]) example_empty_world =
    (Ok (JsonUpload 201 upload), world')
    /\ upload_try_symbols upload = true
    /\ upload_bucket_name upload = "symbols-private"
    /\ example_bucket_name (UPLOAD_TRY_SYMBOLS_URL example_settings) =
       "symbols-try".
Proof.
  eexists _, _. split; [vm_compute; reflexivity|].
  repeat split; vm_compute; reflexivity.
Qed.

(** ** The further properties on the example deployment *)

(** An archive whose first member has an unrecognized name is answered 400
    with the validator's text, by whoever sends it and with whatever
    fields. *)
Lemma unrecognized_name_is_answered_400 :
  upload_archive example_invalid_key_char example_fnmatch example_settings
    example_lookup_times_out
    example_bucket_name example_bucket_prefix example_bucket_exists
    example_download example_cpu_count example_schedule
      example_completion_order "/tmp/upload"
    {| FILES := [("symbols.zip",
                  {| uploaded_buffer :=
                       ZipFile [example_entry "bad" 1;
                                example_entry "a/12/evil" 2];
                     uploaded_size := 3 |})];
       POST := list_to_map [("try", "1")];
       user := example_partner |}
    example_empty_world =
  (Ok (JsonError 400 (unrecognized_message "bad")), example_empty_world).
Proof.
  eassert (Hr : receive example_download "/tmp/upload"
                  {| FILES := [("symbols.zip",
                                {| uploaded_buffer :=
                                     ZipFile [example_entry "bad" 1;
                                              example_entry "a/12/evil" 2];
                                   uploaded_size := 3 |})];
                     POST := list_to_map [("try", "1")];
                     user := example_partner |} = inr _).
  { vm_compute. reflexivity. }
  refine (proj2 (policy_violation_is_answered_verbatim
                   example_invalid_key_char example_fnmatch example_settings
                     example_lookup_times_out
                   example_bucket_name example_bucket_prefix
                   example_bucket_exists example_download example_cpu_count
                   example_schedule
                     example_completion_order _ _ example_empty_world _
                   (unrecognized_message "bad") Hr _)).
  vm_compute. reflexivity.
Defined.

(** The symbol key the view finds for a key of the example archive. *)
Lemma symbol_key_of_example_member :
  key_to_symbol_keys (submitted "v1" example_listing)
    !! "v1/xul.pdb/ABCD1234/xul.sym" = Some ["xul.pdb"; "ABCD1234"].
Proof.
  destruct (submitted_members_have_symbol_keys example_invalid_key_char
              example_settings "v1" example_listing
              {| task_key := "v1/xul.pdb/ABCD1234/xul.sym";
                 task_member := example_member "xul.pdb/ABCD1234/xul.sym" 740 |})
    as (module_ & hex & file & Hsplit & _ & _ & _ & _ & Hkey).
  - vm_compute. reflexivity.
  - left. reflexivity.
  - vm_compute in Hsplit. injection Hsplit as <- <- <-.
    apply Hkey. vm_compute.
    repeat (constructor; [intros H; repeat (inversion H as [|? ? ? H']; clear H; rename H' into H); inversion H|]).
    constructor.
Defined.

(** A member named with a leading slash passes the example policy and is
    stored under its own name, outside the prefix; its neighbour is stored
    under the prefix. *)
Lemma absolute_member_name_drops_the_prefix :
  let file_listing :=
    [example_member "xul.pdb/AB/xul.sym" 1; example_member "/AB/x.sym" 2] in
  check_symbols_archive_file_listing example_invalid_key_char example_settings
    file_listing = None
  /\ map task_key (submitted "v1" file_listing) =
     ["v1/xul.pdb/AB/xul.sym"; "/AB/x.sym"]
  /\ Py.startswith "/AB/x.sym" "v1" = false.
Proof.
  intros file_listing. split; [vm_compute; reflexivity|].
  split; [|reflexivity].
  pose proof (storage_key_of_submitted_member "v1" file_listing
                {| task_key := Py.path_join "v1" "xul.pdb/AB/xul.sym";
                   task_member := example_member "xul.pdb/AB/xul.sym" 1 |}
                (or_introl eq_refl)) as [H1 _].
  pose proof (storage_key_of_submitted_member "v1" file_listing
                {| task_key := Py.path_join "v1" "/AB/x.sym";
                   task_member := example_member "/AB/x.sym" 2 |}
                (or_intror (or_introl eq_refl))) as [_ H2].
  specialize (H2 eq_refl). simpl in H2.
  change (map task_key (submitted "v1" file_listing))
    with [Py.path_join "v1" "xul.pdb/AB/xul.sym"; Py.path_join "v1" "/AB/x.sym"].
  rewrite H2. reflexivity.
Defined.

(** The partner of the example deployment is resolved to the bucket of its
    exception entry, and may ask for it by its URL. *)
Lemma partner_may_ask_for_its_bucket :
  get_bucket_info example_fnmatch example_settings example_partner None None =
  Ok {| bucket_url := "https://s3.example.com/symbols-private";
        try_symbols := PyBool false |}
  /\ exists bucket,
       get_bucket_info example_fnmatch example_settings example_partner None
         (Some "https://s3.example.com/symbols-private") = Ok bucket.
Proof.
  destruct (exception_bucket_is_permitted example_fnmatch example_settings
              example_partner None "https://s3.example.com/symbols-private")
    as (H1 & _ & H2).
  - vm_compute. reflexivity.
  - discriminate.
  - split; [exact H1 | exact H2].
Defined.

(** An exception entry under the identity's own address is found before the
    patterns are tried. *)
Lemma own_address_entry_is_found :
  exception_of example_fnmatch
    {| DISALLOWED_SYMBOLS_SNIPPETS := [];
       UPLOAD_DEFAULT_URL := "https://s3.example.com/symbols-public";
       UPLOAD_TRY_SYMBOLS_URL := "https://s3.example.com/symbols-try";
       UPLOAD_URL_EXCEPTIONS :=
         [("*@private.example.com", "https://s3.example.com/symbols-private");
          ("dev@private.example.com", "https://s3.example.com/symbols-dev")];
       SYMBOL_FILE_PREFIX := "v1";
       SYNCHRONOUS_UPLOAD_FILE_UPLOAD := true;
       UPLOAD_FILE_UPLOAD_MAX_WORKERS := 0 |}
    example_partner = Some "https://s3.example.com/symbols-dev".
Proof.
  apply exact_exception_key_wins.
  - simpl. repeat constructor; [|intros H; inversion H].
    intros H. apply list_elem_of_In in H. destruct H as [H|[]]. discriminate.
  - right. left. reflexivity.
Defined.

(** * The hash of a missing symbol *)

Lemma not_none_app (xs ys : list (option string)) :
  not_none (xs ++ ys) = not_none xs ++ not_none ys.
Proof. induction xs as [|[x|] xs IH]; simpl; by rewrite ?IH. Qed.

(** X9: an argument that is [None] leaves no mark in the hash, wherever it
    stands: a value given as [code_file] with no [code_id] and the same
    value given as [code_id] with no [code_file] have one hash. *)
Theorem none_arguments_are_skipped (xs ys : list (option string)) :
  make_md5_hash (xs ++ None :: ys) = make_md5_hash (xs ++ ys).
Proof. unfold make_md5_hash. by rewrite !not_none_app. Qed.

(** X10: the hash is 32 lower-case hexadecimal digits, whatever the
    arguments are and however many: it fills the column [hash] exactly. *)
Theorem md5_hash_fits_its_column (strings : list (option string)) :
  String.length (make_md5_hash strings) = hash_max_length /\
  all_chars is_lower_hex_digit (make_md5_hash strings).
Proof. apply hexdigest_shape. Qed.

Lemma concat_cons (sep x y : string) (rest : list string) :
  String.concat sep (x :: y :: rest) =
  (x ++ sep ++ String.concat sep (y :: rest))%string.
Proof. reflexivity. Qed.

Lemma concat_cons_congr (sep x : string) (l1 l2 : list string) :
  String.concat sep l1 = String.concat sep l2 ->
  (l1 = [] <-> l2 = []) ->
  String.concat sep (x :: l1) = String.concat sep (x :: l2).
Proof.
  intros H Hnil. destruct l1 as [|a l1], l2 as [|b l2]; [done | | |].
  - by destruct (proj1 Hnil eq_refl).
  - by destruct (proj2 Hnil eq_refl).
  - by rewrite !concat_cons, H.
Qed.

(** X11: the arguments are joined with colons that are not escaped, so two
    arguments and the one argument that has their texts around a colon have
    one hash. *)
Theorem colon_in_an_argument_joins_two (xs ys : list (option string))
    (a b : string) :
  make_md5_hash (xs ++ Some a :: Some b :: ys) =
  make_md5_hash (xs ++ Some (a ++ ":" ++ b)%string :: ys).
Proof.
  unfold make_md5_hash. f_equal. rewrite !not_none_app. simpl.
  induction (not_none xs) as [|x l IH]; simpl app.
  - destruct (not_none ys) as [|y l].
    + reflexivity.
    + by rewrite !concat_cons, !append_assoc.
  - apply concat_cons_congr; [exact IH|].
    split; intros H; by destruct l.
Qed.

(** [hashlib]'s digest of the three texts between colons. *)
Lemma make_md5_hash_of_three_texts :
  make_md5_hash [Some "xul.pdb"; Some "ABCD"; Some "xul.sym"; None; None] =
  "a349ec7ca35fcb1fb1fd85b719da46a9".
Proof. vm_compute. reflexivity. Qed.

(** * The Auth0 blocked check *)

Section UseradminProperties.

Import Useradmin.

Set Default Proof Using "Type".

Variable settings : Settings.
Variable netloc : string -> string.

Lemma list_grows {X : Type} (l : list X) (x : X) (rest : list X) :
  l ++ x :: rest <> l.
Proof.
  intros H. apply (f_equal length) in H.
  rewrite length_app in H. simpl in H. lia.
Qed.

Lemma any_blocked_errors (users : list json) (e : error) :
  any_blocked users = Raised e -> e = AttributeError.
Proof.
  induction users as [|user rest IH]; simpl; [done|].
  destruct user; simpl; try congruence.
  destruct (json_truth _); [done | exact IH].
Qed.

(** X12: a check asks Auth0 for a token first, with the client's secret,
    and searches the users only with the token it was given, by the
    address between double quotes; it has an answer only when both calls
    were answered with status 200. *)
Theorem token_is_asked_before_the_search (session : Session)
    (email : string) (sent : list HttpRequest) :
  let result := is_blocked_in_auth0 settings netloc session email sent in
  exists url payload,
    In ("client_secret", OIDC_RP_CLIENT_SECRET settings) payload /\
    ((snd result = sent ++ [Post url payload] /\
      exists e, fst result = Raised e)
     \/ exists response body token url',
          post session url payload = Answered response /\
          status_code response = 200%Z /\
          json_body response = Answered body /\
          getitem body "access_token" = Returned token /\
          let query :=
            [("q", ("email:" ++ String Py.dquote
                                  (email ++ String Py.dquote ""))%string)] in
          let headers :=
            [("Authorization", ("Bearer " ++ str token)%string)] in
          snd result = sent ++ [Post url payload; Get url' query headers] /\
          forall b, fst result = Returned b ->
            exists reply,
              get session url' query headers = Answered reply /\
              status_code reply = 200%Z).
Proof.
  intros result. subst result.
  unfold is_blocked_in_auth0, find_users, _get_access_token.
  set (domain := netloc (OIDC_OP_USER_ENDPOINT settings)).
  exists ("https://" ++ domain ++ "/oauth/token")%string,
    [("client_id", OIDC_RP_CLIENT_ID settings);
     ("client_secret", OIDC_RP_CLIENT_SECRET settings);
     ("grant_type", "client_credentials"%string);
     ("audience", ("https://" ++ domain ++ "/api/v2/")%string)].
  split; [right; left; reflexivity|].
  destruct (post session _ _) as [response|msg] eqn:Hpost; [|left; eauto].
  destruct (status_code response =? 200)%Z eqn:Hstatus; simpl;
    [|left; eauto].
  apply Z.eqb_eq in Hstatus.
  destruct (json_body response) as [body|msg] eqn:Hbody; [|left; eauto].
  destruct (getitem body "access_token") as [token|e] eqn:Htoken;
    [|left; eauto].
  right. exists response, body, token. eexists.
  rewrite <- app_assoc. simpl.
  destruct (get session _ _ _) as [reply|msg] eqn:Hget;
    [|repeat split; try done; intros b [=]].
  destruct (status_code reply =? 200)%Z eqn:Hreply; simpl;
    [|repeat split; try done; intros b [=]].
  apply Z.eqb_eq in Hreply.
  destruct (json_body reply) as [users|msg];
    [|repeat split; try done; intros b [=]].
  destruct (iterate users) as [items|e];
    repeat split; try done; intros b _; eauto.
Qed.

Lemma check_is_sent (session : Session) (email : string)
    (sent : list HttpRequest) :
  snd (is_blocked_in_auth0 settings netloc session email sent) <> sent.
Proof.
  destruct (token_is_asked_before_the_search session email sent)
    as (url & payload & _ & [[-> _]|H]).
  - apply list_grows.
  - destruct H as (? & ? & ? & ? & _ & _ & _ & _ & -> & _).
    apply list_grows.
Qed.

Lemma check_errors (session : Session) (email : string)
    (sent sent' : list HttpRequest) (e : error) :
  is_blocked_in_auth0 settings netloc session email sent = (Raised e, sent') ->
  forall msg, e <> PermissionDenied msg.
Proof.
  unfold is_blocked_in_auth0, find_users, _get_access_token.
  intros H msg ->.
  destruct (post session _ _) as [response|?]; [|done].
  destruct (negb (status_code response =? 200)%Z); [done|].
  destruct (json_body response) as [body|?]; [|done].
  destruct (getitem body "access_token") as [token|e] eqn:Htoken.
  2:{ destruct body; simpl in Htoken; try congruence.
      destruct (lookup_item _ _); congruence. }
  destruct (get session _ _ _) as [reply|?]; [|done].
  destruct (negb (status_code reply =? 200)%Z); [done|].
  destruct (json_body reply) as [users|?]; [|done].
  destruct (iterate users) as [items|e] eqn:Hiter.
  2:{ destruct users; simpl in Hiter; congruence. }
  injection H as H _. by apply any_blocked_errors in H.
Qed.

Lemma cache_key_of_id (u1 u2 : User) :
  id u1 = id u2 -> cache_key u1 = cache_key u2.
Proof. unfold cache_key. by intros ->. Qed.

(** The cases of [process_request] in which Auth0 is asked. *)
Lemma process_request_checks {A : Type} (session : Session) (now later : Z)
    (request request' : Request) (world world' : World)
    (r : outcome (option A)) :
  process_request settings netloc session now later request world =
    (r, request', world') ->
  sent world' <> sent world ->
  exists u,
    user request = Authenticated u /\ is_active u = true /\
    email u <> EmptyString /\
    cache_get now (cache world) (cache_key u) = None /\
    exists b,
      is_blocked_in_auth0 settings netloc session (email u) (sent world) =
        (b, sent world') /\
      match b with
      | Raised e => r = Raised e /\ request' = request /\
                    cache world' = cache world /\ saved world' = saved world
      | Returned true =>
          r = Raised (PermissionDenied
                        "User is blocked in Auth0 and made inactive.") /\
          request' = {| user := AnonymousUser; session := ∅ |} /\
          cache world' = cache world /\
          saved world' =
            <[id u := {| id := id u; email := email u; is_active := false |}]>
              (saved world)
      | Returned false =>
          r = Returned None /\ request' = request /\
          cache world' =
            cache_set later (cache world) (cache_key u)
              (NOT_BLOCKED_IN_AUTH0_INTERVAL_SECONDS settings) /\
          saved world' = saved world
      end.
Proof.
  unfold process_request. intros H Hsent.
  destruct (user request) as [|u]; [by injection H as _ _ <-|].
  destruct (is_active u) eqn:Hactive; simpl in H;
    [|by injection H as _ _ <-].
  destruct (String.eqb (email u) "") eqn:Hemail;
    [by injection H as _ _ <-|].
  apply String.eqb_neq in Hemail.
  destruct (cache_get now _ _) eqn:Hcache; [by injection H as _ _ <-|].
  exists u. repeat split; try done.
  destruct (is_blocked_in_auth0 _ _ _ _ _) as [[[|]|e] sent'];
    injection H as <- <- <-; simpl; eexists; (split; [reflexivity|]);
    by simpl.
Qed.

(** The cases in which it is not. *)
Lemma process_request_passes {A : Type} (session : Session) (now later : Z)
    (request : Request) (world : World) :
  match user request with
  | AnonymousUser => True
  | Authenticated u =>
      is_active u = false \/ email u = EmptyString \/
      exists expires, cache world !! cache_key u = Some expires /\
                      (now < expires)%Z
  end ->
  process_request (A:=A) settings netloc session now later request world =
    (Returned None, request, world).
Proof.
  unfold process_request. destruct (user request) as [|u]; [done|].
  intros [->|[->|(expires & Hc & Ht)]]; [done | |].
  - by rewrite orb_true_r.
  - destruct (_ || _); [done|]. unfold cache_get. rewrite Hc.
    by rewrite (proj2 (Z.ltb_lt _ _) Ht).
Qed.

Lemma process_request_asks {A : Type} (session : Session) (now later : Z)
    (request : Request) (world : World) (u : User) :
  user request = Authenticated u -> is_active u = true ->
  email u <> EmptyString ->
  cache_get now (cache world) (cache_key u) = None ->
  sent (snd (process_request (A:=A) settings netloc session now later
               request world)) <> sent world.
Proof.
  intros Hu Ha He Hc. unfold process_request. rewrite Hu, Ha, Hc.
  apply String.eqb_neq in He. rewrite He. simpl.
  pose proof (check_is_sent session (email u) (sent world)) as H.
  by destruct (is_blocked_in_auth0 _ _ _ _ _) as [[[|]|e] sent'].
Qed.

(** A call that leaves the list of calls to Auth0 as it was has returned
    and changed nothing. *)
Lemma process_request_silent {A : Type} (session : Session) (now later : Z)
    (request request' : Request) (world world' : World)
    (r : outcome (option A)) :
  process_request settings netloc session now later request world =
    (r, request', world') ->
  sent world' = sent world ->
  r = Returned None /\ request' = request /\ world' = world.
Proof.
  unfold process_request. intros H Heq.
  destruct (user request) as [|u]; [by injection H as <- <- <-|].
  destruct (_ || _); [by injection H as <- <- <-|].
  destruct (cache_get _ _ _); [by injection H as <- <- <-|].
  pose proof (check_is_sent session (email u) (sent world)) as Hs.
  destruct (is_blocked_in_auth0 _ _ _ _ _) as [[[|]|e] sent'];
    simpl in Hs; injection H as <- <- <-; by simpl in Heq.
Qed.

(** X13: after a check that found the user not blocked, no request of
    that user asks Auth0 again for the configured interval, whatever Auth0
    would say, and every such request passes unchanged; once the interval
    is over the next request asks again. *)
Theorem check_is_throttled {A : Type} (session : Session) (now later : Z)
    (request request' : Request) (world world' : World) :
  process_request (A:=A) settings netloc session now later request world =
    (Returned None, request', world') ->
  sent world' <> sent world ->
  request' = request /\
  exists u,
    user request = Authenticated u /\
    (forall session2 t t2 request2 u2,
        user request2 = Authenticated u2 -> id u2 = id u ->
        (later <= t < later + NOT_BLOCKED_IN_AUTH0_INTERVAL_SECONDS settings)%Z ->
        process_request (A:=A) settings netloc session2 t t2 request2 world' =
          (Returned None, request2, world')) /\
    (forall session2 t t2,
        (later + NOT_BLOCKED_IN_AUTH0_INTERVAL_SECONDS settings <= t)%Z ->
        sent (snd (process_request (A:=A) settings netloc session2 t t2
                     request world')) <> sent world').
Proof.
  intros H Hsent.
  destruct (process_request_checks _ _ _ _ _ _ _ _ H Hsent)
    as (u & Hu & Ha & He & Hc & b & Hb & Hcase).
  destruct b as [[|]|e]; [by destruct Hcase | | by destruct Hcase].
  destruct Hcase as (_ & -> & Hcache & Hsaved).
  split; [done|]. exists u. split; [done|]. split.
  - intros session2 t t2 request2 u2 Hu2 Hid Ht.
    apply process_request_passes. rewrite Hu2. right. right.
    rewrite (cache_key_of_id _ _ Hid), Hcache. unfold cache_set.
    rewrite lookup_insert_eq. eexists. split; [reflexivity|].
    destruct (Z.eqb_spec (NOT_BLOCKED_IN_AUTH0_INTERVAL_SECONDS settings) 0);
      lia.
  - intros session2 t t2 Ht.
    apply (process_request_asks _ _ _ _ _ u); try done.
    unfold cache_get. rewrite Hcache. unfold cache_set.
    rewrite lookup_insert_eq.
    destruct (Z.ltb_spec t
                (later + (if (NOT_BLOCKED_IN_AUTH0_INTERVAL_SECONDS settings
                              =? 0)%Z then -1
                          else NOT_BLOCKED_IN_AUTH0_INTERVAL_SECONDS settings)))
      as [Hlt|]; [|done].
    destruct (Z.eqb_spec (NOT_BLOCKED_IN_AUTH0_INTERVAL_SECONDS settings) 0);
      lia.
Qed.

(** X14: [PermissionDenied] is raised only for a user Auth0 has blocked,
    and then the user is saved inactive and the request is logged out, the
    cache is not written, and no later request of the saved user is checked
    or refused by the middleware. *)
Theorem blocked_user_is_refused_once {A : Type} (session : Session)
    (now later : Z) (request request' : Request) (world world' : World)
    (msg : string) :
  process_request (A:=A) settings netloc session now later request world =
    (Raised (PermissionDenied msg), request', world') ->
  msg = "User is blocked in Auth0 and made inactive."%string /\
  user request' = AnonymousUser /\ Useradmin.session request' = ∅ /\
  cache world' = cache world /\
  exists u,
    user request = Authenticated u /\ is_active u = true /\
    fst (is_blocked_in_auth0 settings netloc session (email u) (sent world)) =
      Returned true /\
    let u' := {| id := id u; email := email u; is_active := false |} in
    saved world' = <[id u := u']> (saved world) /\
    forall session2 t t2 request2,
      user request2 = Authenticated u' ->
      process_request (A:=A) settings netloc session2 t t2 request2 world' =
        (Returned None, request2, world').
Proof.
  intros H.
  assert (Hsent : sent world' <> sent world).
  { intros Heq. by destruct (process_request_silent _ _ _ _ _ _ _ _ H Heq). }
  destruct (process_request_checks _ _ _ _ _ _ _ _ H Hsent)
    as (u & Hu & Ha & He & Hc & b & Hb & Hcase).
  destruct b as [[|]|e].
  - destruct Hcase as ([= <-] & -> & Hcache & Hsaved).
    repeat split; try done. exists u. rewrite Hb.
    repeat split; try done.
    intros session2 t t2 request2 Hu2.
    apply process_request_passes. rewrite Hu2. by left.
  - by destruct Hcase.
  - destruct Hcase as ([= <-] & _). by destruct (check_errors _ _ _ _ _ Hb msg).
Qed.

(** X15: a check that fails, on the network, on a status that is not 200
    or on a reply of an unexpected shape, leaves the user, the request and
    the cache as they were, and is not remembered: the next request of the
    user asks Auth0 again. *)
Theorem failed_check_is_not_remembered {A : Type} (session : Session)
    (now later : Z) (request request' : Request) (world world' : World)
    (e : error) :
  process_request (A:=A) settings netloc session now later request world =
    (Raised e, request', world') ->
  (forall msg, e <> PermissionDenied msg) ->
  request' = request /\ cache world' = cache world /\
  saved world' = saved world /\ sent world' <> sent world /\
  forall session2 t t2,
    (now <= t)%Z ->
    sent (snd (process_request (A:=A) settings netloc session2 t t2 request
                 world')) <> sent world'.
Proof.
  intros H Hne.
  assert (Hsent : sent world' <> sent world).
  { intros Heq. by destruct (process_request_silent _ _ _ _ _ _ _ _ H Heq). }
  destruct (process_request_checks _ _ _ _ _ _ _ _ H Hsent)
    as (u & Hu & Ha & He & Hc & b & Hb & Hcase).
  destruct b as [[|]|e'].
  - destruct Hcase as ([= ->] & _). by destruct (Hne _ eq_refl).
  - by destruct Hcase.
  - destruct Hcase as (_ & -> & Hcache & Hsaved).
    repeat split; try done.
    intros session2 t t2 Ht.
    apply (process_request_asks _ _ _ _ _ u); try done.
    rewrite Hcache. revert Hc. unfold cache_get.
    destruct (cache world !! cache_key u) as [expires|]; [|done].
    destruct (Z.ltb_spec now expires); [done|]. intros _.
    destruct (Z.ltb_spec t expires); [lia | done].
Qed.

Lemma append_inv_head (p x y : string) :
  (p ++ x)%string = (p ++ y)%string -> x = y.
Proof.
  induction p as [|c p IH]; [done|].
  rewrite !append_cons. intros [= H]. by apply IH.
Qed.

Lemma str_of_N_injective (n m : N) : Py.str_of_N n = Py.str_of_N m -> n = m.
Proof.
  unfold Py.str_of_N. intros H.
  apply (f_equal DecimalString.NilZero.uint_of_string) in H.
  assert (Hnil : forall k, N.to_uint k <> Decimal.Nil).
  { intros [|p]; [done|]. apply DecimalPos.Unsigned.to_uint_nonnil. }
  rewrite !DecimalString.NilZero.usu in H by apply Hnil.
  injection H as H. by apply DecimalN.Unsigned.to_uint_inj.
Qed.

(** X16: two users never share an entry of the cache. *)
Theorem users_have_their_own_cache_entry (u1 u2 : User) :
  id u1 <> id u2 -> cache_key u1 <> cache_key u2.
Proof.
  intros Hid H. apply Hid. unfold cache_key in H.
  by apply append_inv_head, str_of_N_injective in H.
Qed.

(** X17: the middleware never answers a request itself: what does not end
    in an exception is handed to [get_response], with the request as it
    came and the stored users as they were. *)
Theorem request_is_handed_on {A : Type}
    (get_response : Request -> World -> outcome A * Request * World)
    (session : Session) (now later : Z) (request : Request) (world : World) :
  match process_request (A:=A) settings netloc session now later request
          world with
  | (Returned r, request', world') =>
      r = None /\ request' = request /\ saved world' = saved world /\
      __call__ settings netloc get_response session now later request world =
        get_response request world'
  | (Raised e, request', world') =>
      __call__ settings netloc get_response session now later request world =
        (Raised e, request', world')
  end.
Proof.
  unfold __call__.
  destruct (process_request _ _ _ _ _ _ _) as [[[r|e] request'] world']
    eqn:H; [|done].
  revert H. unfold process_request.
  destruct (user request) as [|u]; [by intros [= <- <- <-]|].
  destruct (_ || _); [by intros [= <- <- <-]|].
  destruct (cache_get _ _ _); [by intros [= <- <- <-]|].
  destruct (is_blocked_in_auth0 _ _ _ _ _) as [[[|]|e] sent'];
    [done | by intros [= <- <- <-] | done].
Qed.

(** X18: the first record of the reply whose [blocked] is true decides:
    what comes after it is not looked at, whatever it is. *)
Theorem first_blocked_record_decides (before after : list json)
    (record blocked : json) :
  Forall (fun user => exists v, get_method user "blocked" = Returned v /\
                                json_truth v = false) before ->
  get_method record "blocked" = Returned blocked ->
  json_truth blocked = true ->
  any_blocked (before ++ record :: after) = Returned true.
Proof.
  intros Hbefore Hrecord Htruth.
  induction Hbefore as [|user rest (v & Hv & Hf) _ IH]; simpl.
  - by rewrite Hrecord, Htruth.
  - by rewrite Hv, Hf.
Qed.

End UseradminProperties.

(** ** The blocked check on the example deployment *)

(** A user Auth0 found not blocked at time 100 is let through at time
    50000 without a call, though Auth0 would now say blocked. *)
Lemma user_is_not_checked_again_within_a_day :
  let world' :=
    snd (Useradmin.process_request (A:=unit) Useradmin.example_settings
           Useradmin.example_netloc
           (Useradmin.example_session (Useradmin.JBool false)) 100 101
           Useradmin.example_request Useradmin.example_world) in
  Useradmin.process_request (A:=unit) Useradmin.example_settings
    Useradmin.example_netloc
    (Useradmin.example_session (Useradmin.JBool true)) 50000 50001
    Useradmin.example_request world' =
  (Useradmin.Returned None, Useradmin.example_request, world').
Proof.
  intros world'.
  assert (H : Useradmin.process_request (A:=unit) Useradmin.example_settings
                Useradmin.example_netloc
                (Useradmin.example_session (Useradmin.JBool false)) 100 101
                Useradmin.example_request Useradmin.example_world =
              (Useradmin.Returned None, Useradmin.example_request, world')).
  { vm_compute. reflexivity. }
  destruct (check_is_throttled _ _ _ _ _ _ _ _ _ H)
    as (_ & u & Hu & Hin & _).
  - vm_compute. discriminate.
  - injection Hu as <-.
    apply (Hin _ _ _ _ Useradmin.example_user); [reflexivity ..|].
    simpl. lia.
Defined.

(** A user Auth0 has blocked is refused, logged out and saved inactive;
    the next request made in that user's name passes. *)
Lemma blocked_user_example :
  exists request' world',
    Useradmin.process_request (A:=unit) Useradmin.example_settings
      Useradmin.example_netloc
      (Useradmin.example_session (Useradmin.JBool true)) 100 101
      Useradmin.example_request Useradmin.example_world =
    (Useradmin.Raised
       (Useradmin.PermissionDenied
          "User is blocked in Auth0 and made inactive."),
     request', world')
    /\ Useradmin.user request' = Useradmin.AnonymousUser
    /\ Useradmin.cache world' = ∅
    /\ let inactive :=
         {| Useradmin.user :=
              Useradmin.Authenticated
                {| Useradmin.id := 42; Useradmin.email := "dev@example.com";
                   Useradmin.is_active := false |};
            Useradmin.session := ∅ |} in
       Useradmin.process_request (A:=unit) Useradmin.example_settings
         Useradmin.example_netloc
         (Useradmin.example_session (Useradmin.JBool true)) 200 201
         inactive world' =
       (Useradmin.Returned None, inactive, world').
Proof.
  eassert (H : Useradmin.process_request (A:=unit) Useradmin.example_settings
                 Useradmin.example_netloc
                 (Useradmin.example_session (Useradmin.JBool true)) 100 101
                 Useradmin.example_request Useradmin.example_world =
               (Useradmin.Raised (Useradmin.PermissionDenied _), _, _)).
  { vm_compute. reflexivity. }
  destruct (blocked_user_is_refused_once _ _ _ _ _ _ _ _ _ _ H)
    as (_ & Hanon & _ & Hcache & u & Hu & _ & _ & _ & Hnext).
  injection Hu as <-.
  eexists _, _. split; [exact H|]. split; [exact Hanon|].
  split; [exact Hcache|]. intros inactive. by apply Hnext.
Defined.

(** A token that is refused with status 401 ends the request with the
    error of the module; nothing is cached and the next request asks
    again. *)
Lemma refused_token_example :
  exists world',
    Useradmin.process_request (A:=unit) Useradmin.example_settings
      Useradmin.example_netloc Useradmin.example_refusing_session 100 101
      Useradmin.example_request Useradmin.example_world =
    (Useradmin.Raised (Useradmin.Auth0ManagementAPIError 401),
     Useradmin.example_request, world')
    /\ Useradmin.cache world' = ∅
    /\ length (Useradmin.sent world') = 1
    /\ Useradmin.sent
         (snd (Useradmin.process_request (A:=unit) Useradmin.example_settings
                 Useradmin.example_netloc Useradmin.example_refusing_session
                 200 201 Useradmin.example_request world')) <>
       Useradmin.sent world'.
Proof.
  eassert (H : Useradmin.process_request (A:=unit) Useradmin.example_settings
                 Useradmin.example_netloc Useradmin.example_refusing_session
                 100 101 Useradmin.example_request Useradmin.example_world =
               (Useradmin.Raised (Useradmin.Auth0ManagementAPIError 401),
                Useradmin.example_request, _)).
  { vm_compute. reflexivity. }
  destruct (failed_check_is_not_remembered _ _ _ _ _ _ _ _ _ _ H)
    as (_ & Hcache & _ & _ & Hnext); [discriminate|].
  eexists. split; [exact H|]. split; [exact Hcache|].
  split; [reflexivity|]. apply Hnext. lia.
Defined.

(** The entries of users 42 and 7. *)
Lemma cache_keys_of_two_users :
  Useradmin.cache_key Useradmin.example_user <>
  Useradmin.cache_key
    {| Useradmin.id := 7; Useradmin.email := "ops@example.com";
       Useradmin.is_active := true |}.
Proof. apply users_have_their_own_cache_entry. discriminate. Defined.

(** A text is true, [false] too; what follows the record is not looked
    at. *)
Lemma blocked_by_a_text :
  Useradmin.any_blocked
    [Useradmin.JDict [("email", Useradmin.JStr "dev@example.com")];
     Useradmin.JDict [("blocked", Useradmin.JStr "false")];
     Useradmin.JInt 3] = Useradmin.Returned true.
Proof.
  apply (first_blocked_record_decides
           [Useradmin.JDict [("email", Useradmin.JStr "dev@example.com")]]
           [Useradmin.JInt 3]
           (Useradmin.JDict [("blocked", Useradmin.JStr "false")])
           (Useradmin.JStr "false")).
  - constructor; [|constructor]. exists Useradmin.JNull. by split.
  - reflexivity.
  - reflexivity.
Defined.

(** * What the view does not read *)

(** X19: of a request that carries files, the view reads the first entry
    of [request.FILES] and nothing else of what was sent: the other
    entries, the [url] field and what the download collaborators would
    answer do not change the response or the world. *)
Theorem first_file_decides (invalid_key_char : ascii -> bool)
    (fnmatch : string -> string -> bool) (settings : Settings)
    (lookup_times_out : string -> string -> bool)
    (bucket_name bucket_prefix : string -> string)
    (bucket_exists : string -> bool)
    (download download' : gmap string string -> download_outcome)
    (cpu_count : nat) (schedule completion_order : nat -> nat)
    (upload_dir name : string)
    (upload_ : UploadedFile) (others : list (string * UploadedFile))
    (post : gmap string string) (url : option string) (u : User)
    (world : World) :
  upload_archive invalid_key_char fnmatch settings lookup_times_out
    bucket_name bucket_prefix bucket_exists download cpu_count schedule
    completion_order upload_dir
    {| FILES := (name, upload_) :: others; POST := post; user := u |} world =
  upload_archive invalid_key_char fnmatch settings lookup_times_out
    bucket_name bucket_prefix bucket_exists download' cpu_count schedule
    completion_order upload_dir
    {| FILES := [(name, upload_)];
       POST := partial_alter (fun _ => url) "url" post;
       user := u |} world.
Proof.
  unfold upload_archive, receive. simpl.
  rewrite !lookup_partial_alter_ne by done.
  reflexivity.
Qed.
